(** * Asset publishing pipeline: layer composition, LOD planning,
      version allocation and farm submission

    A shallow embedding of the publish tool
    ([mayaMenuBar/commands/shader_publish.py], releases 25.12.7 and
    26.02.03) and the properties its specification states about it.

    Conventions of the embedding:
    - file and node names are [string]s over the 8-bit alphabet;
    - the file system, the Maya scene, the composed USD stage and the
      Deadline farm are explicit states threaded through the functions;
    - Python exceptions are the left summand of a sum type;
    - calls into external tools (polyReduce, oiiotool, deadlinecommand,
      the asset resolver) are parameters of the section that uses them. *)

From Stdlib Require Import String Ascii List NArith ZArith QArith Qpower Qminmax Lia Lqa Bool.
From Stdlib Require Import DecimalString DecimalN DecimalNat DecimalFacts.
From stdpp Require Import base option list gmap strings.

Local Open Scope string_scope.
Local Open Scope list_scope.

(** ** Strings shared by every component *)

Module Str.

(** [s.replace("\\", "/")]: both patterns are one character long, so the
    replacement is a character-wise map. *)
Definition backslash : ascii := ascii_of_nat 92.
Definition slash : ascii := ascii_of_nat 47.

Fixpoint replace_backslash (s : string) : string :=
  match s with
  | EmptyString => EmptyString
  | String c r =>
      String (if Ascii.eqb c backslash then slash else c) (replace_backslash r)
  end.

Fixpoint no_backslash (s : string) : bool :=
  match s with
  | EmptyString => true
  | String c r => negb (Ascii.eqb c backslash) && no_backslash r
  end.

(** [str(n)] / the [d] format of an f-string, on a non-negative integer. *)
Definition str_of_N (n : N) : string := NilEmpty.string_of_uint (N.to_uint n).
Definition str_of_nat (n : nat) : string := NilEmpty.string_of_uint (Nat.to_uint n).

Fixpoint zeros (k : nat) : string :=
  match k with
  | O => EmptyString
  | S k' => String "0" (zeros k')
  end.

(** [f"{n:03d}"]: decimal digits, left-padded with zeros to width 3; longer
    numbers keep all their digits. *)
Definition format_03d (n : N) : string :=
  let s := str_of_N n in zeros (3 - String.length s) +:+ s.

(** [s.startswith(p)] *)
Fixpoint startswith (p s : string) : bool :=
  match p, s with
  | EmptyString, _ => true
  | String a p', String b s' => Ascii.eqb a b && startswith p' s'
  | String _ _, EmptyString => false
  end.

End Str.

(** ** VersionAllocator: [_next_version_folder] *)

Module VersionAllocator.

(** What [os.path.isdir] can tell about an entry of the parent. *)
Inductive node_kind := NDir | NFile.

(** The parent directory as the function meets it.  [Missing creatable]
    is a path that does not exist; [os.makedirs] succeeds on it exactly
    when [creatable].  [Directory entries] lists the names in the order
    [os.listdir] yields them. *)
Inductive dir_state :=
| Missing (creatable : bool)
| NotADirectory
| Directory (entries : list (string * node_kind)).

Inductive error := OSError.

Definition is_digit (c : ascii) : bool :=
  let n := nat_of_ascii c in Nat.leb 48 n && Nat.leb n 57.

Fixpoint all_digits (s : string) : bool :=
  match s with
  | EmptyString => true
  | String c r => is_digit c && all_digits r
  end.

Definition newline : ascii := ascii_of_nat 10.

(** Python's [$] (without MULTILINE) matches at the end of the string and
    also just before a newline that is the last character: [chomp] removes
    that one newline. *)
Fixpoint chomp (s : string) : string :=
  match s with
  | EmptyString => EmptyString
  | String c r =>
      match r with
      | EmptyString => if Ascii.eqb c newline then EmptyString else s
      | String _ _ => String c (chomp r)
      end
  end.

Definition is_v (c : ascii) : bool := Ascii.eqb c "v" || Ascii.eqb c "V".

(** [re.compile(r'^v(\d{3,})$', re.IGNORECASE).match(name)], returning
    [m.group(1)] when there is a match. *)
Definition pat_match (name : string) : option string :=
  match name with
  | EmptyString => None
  | String c r =>
      let g := chomp r in
      if is_v c && all_digits g && Nat.leb 3 (String.length g)
      then Some g else None
  end.

(** [int(m.group(1))] on a string of decimal digits. *)
Definition int_of_digits (g : string) : N :=
  match NilEmpty.uint_of_string g with
  | Some d => N.of_uint d
  | None => 0%N
  end.

(** One iteration of the scan loop (source lines 54-61). *)
Definition scan_step (max_n : N) (e : string * node_kind) : N :=
  match snd e with
  | NDir =>
      match pat_match (fst e) with
      | Some g => let n := int_of_digits g in
                  if (max_n <? n)%N then n else max_n
      | None => max_n
      end
  | NFile => max_n
  end.

Definition scan (entries : list (string * node_kind)) : N :=
  fold_left scan_step entries 0%N.

Definition version_label (max_n : N) : string :=
  "v" +:+ Str.format_03d (max_n + 1).

(** [os.path.join(parent_dir, name)] for a relative [name]. *)
Fixpoint ends_with_slash (s : string) : bool :=
  match s with
  | EmptyString => false
  | String c r =>
      match r with
      | EmptyString => Ascii.eqb c Str.slash
      | String _ _ => ends_with_slash r
      end
  end.

Definition path_join (parent name : string) : string :=
  if String.eqb parent "" || ends_with_slash parent
  then parent +:+ name else parent +:+ "/" +:+ name.

Fixpoint entry_kind (entries : list (string * node_kind)) (name : string)
  : option node_kind :=
  match entries with
  | [] => None
  | (n, k) :: rest => if String.eqb n name then Some k else entry_kind rest name
  end.

(** [_next_version_folder(parent_dir)]: the label, the path of the version
    directory, and the parent directory afterwards. *)
Definition _next_version_folder (parent_dir : string) (st : dir_state)
  : error + (string * string * dir_state) :=
  let after_makedirs :=
    match st with
    | Directory entries => inr entries
    | Missing true => inr []
    | Missing false => inl OSError
    | NotADirectory => inl OSError
    end in
  match after_makedirs with
  | inl e => inl e
  | inr entries =>
      let max_n := scan entries in
      let ver := version_label max_n in
      let ver_path := path_join parent_dir ver in
      match entry_kind entries ver with
      | Some NDir => inr (ver, ver_path, Directory entries)
      | Some NFile => inl OSError
      | None => inr (ver, ver_path, Directory (entries ++ [(ver, NDir)]))
      end
  end.

(** The allocator as the specification words it: the maximum is taken over
    every entry whose name matches, whatever its kind. *)
Definition spec_scan_step (max_n : N) (e : string * node_kind) : N :=
  match pat_match (fst e) with
  | Some g => N.max max_n (int_of_digits g)
  | None => max_n
  end.

Definition spec_next_label (entries : list (string * node_kind)) : string :=
  version_label (fold_left spec_scan_step entries 0%N).

(** The entries of the parent the scan reads: none when it is missing. *)
Definition listing (st : dir_state) : list (string * node_kind) :=
  match st with
  | Directory es => es
  | _ => []
  end.

End VersionAllocator.


(** ** LODPlanner: the reduction plan of [run_local_publish]

    The spin-box value and the plan are decimal fractions; the arithmetic
    of source lines 1203-1207 is carried out here on exact rationals. *)

Module LODPlanner.

Local Open Scope Q_scope.

(** Source lines 1203-1207, for level [i] of [range(1, lod_count + 1)]. *)
Definition remove_percent (base_keep_percent : Q) (i : nat) : Q :=
  let keep_ratio := (base_keep_percent / 100) ^ (Z.of_nat i) in
  let remove_percent := 100 - keep_ratio * 100 in
  Qmax 0 (Qmin 99 remove_percent).

(** The percentages handed to [task_export_single_lod], level 1 first. *)
Definition lod_plan (base_keep_percent : Q) (lod_count : nat) : list Q :=
  map (remove_percent base_keep_percent) (seq 1 lod_count).

(** The formula as the specification writes it. *)
Definition clamp (x lo hi : Q) : Q := Qmax lo (Qmin hi x).

Definition spec_remove_percent (base_percent : Q) (i : nat) : Q :=
  clamp (100 * (1 - (base_percent / 100) ^ (Z.of_nat i))) 0 99.

End LODPlanner.

(** ** TextureLODProcessor: [_convert_single_file] *)

Module TextureLOD.

(** A node of the file system: a directory (with the size [os.path.getsize]
    reports for it) or a regular file with its bytes. *)
Inductive fnode :=
| FDir (st_size : N)
| FFile (data : string).

Definition getsize (n : fnode) : N :=
  match n with
  | FDir sz => sz
  | FFile data => N.of_nat (String.length data)
  end.

Inductive error := ZeroDivisionError.

(** [os.path.dirname] on a forward-slash path: everything before the last
    slash, without the trailing slashes unless it consists of slashes only. *)
Fixpoint has_slash (s : string) : bool :=
  match s with
  | EmptyString => false
  | String c r => Ascii.eqb c Str.slash || has_slash r
  end.

Fixpoint head_upto_last_slash (s : string) : string :=
  match s with
  | EmptyString => EmptyString
  | String c r =>
      if has_slash s then String c (head_upto_last_slash r) else EmptyString
  end.

Fixpoint all_slashes (s : string) : bool :=
  match s with
  | EmptyString => true
  | String c r => Ascii.eqb c Str.slash && all_slashes r
  end.

Fixpoint rstrip_slashes (s : string) : string :=
  match s with
  | EmptyString => EmptyString
  | String c r => if all_slashes s then EmptyString else String c (rstrip_slashes r)
  end.

Definition dirname (p : string) : string :=
  let head := head_upto_last_slash p in
  if all_slashes head then head else rstrip_slashes head.

Section Converter.

(** The converter process: [subprocess.run(cmd, check=True, ...)] on a
    file system either raises (with the text of the exception) or leaves
    a new file system behind. *)
Variable OIIO_TOOL : string.
Variable run_tool : list string -> gmap string fnode -> string + gmap string fnode.

(** [os.makedirs(d, exist_ok=True)] inside [try ... except OSError: pass]. *)
Definition makedirs_exist_ok (fs : gmap string fnode) (d : string)
  : gmap string fnode :=
  if String.eqb d "" then fs
  else match fs !! d with
       | Some _ => fs
       | None => <[d := FDir 0]> fs
       end.

(** The outcome of one call: the file system afterwards, the returned pair
    [(ok, msg)] and the converter command lines that were run. *)
Record outcome := {
  out_fs : gmap string fnode;
  out_ok : bool;
  out_msg : string;
  out_runs : list (list string)
}.

(** The outcome of a call that finds its output in place. *)
Definition skipped (fs : gmap string fnode) : error + outcome :=
  inr {| out_fs := fs; out_ok := true; out_msg := "Skipped"; out_runs := [] |}.

Definition nonempty_exists (fs : gmap string fnode) (dst : string) : bool :=
  match fs !! dst with
  | Some n => (0 <? getsize n)%N
  | None => false
  end.

(** [_convert_single_file(self, src, dst, scale)], source lines 452-468. *)
Definition _convert_single_file (fs : gmap string fnode) (src dst : string)
  (scale : N) : error + outcome :=
  if nonempty_exists fs dst then skipped fs
  else
    let fs1 := makedirs_exist_ok fs (dirname dst) in
    if (scale =? 0)%N then inl ZeroDivisionError
    else
      let pct := (100 / scale)%N in
      let cmd := [OIIO_TOOL; src; "--resize"; Str.str_of_N pct +:+ "%"; "-o"; dst] in
      match run_tool cmd fs1 with
      | inr fs2 =>
          inr {| out_fs := fs2; out_ok := true; out_msg := "Processed";
                 out_runs := [cmd] |}
      | inl e =>
          inr {| out_fs := fs1; out_ok := false; out_msg := e; out_runs := [cmd] |}
      end.

End Converter.

End TextureLOD.

(** ** Distributed mode: the submission chain of [run_deadline_publish] *)

Module Deadline.

(** The fields of the job-info and plugin-info dictionaries that differ
    between the jobs of one chain. *)
Record JobInfo := {
  Name : string;
  Plugin : string;
  Frames : string;
  ChunkSize : option string;
  JobDependencies : option string
}.

Record PluginInfo := {
  script_path : string;
  data_file : string;
  task_type : string;
  extra_arg : string
}.

(** One call of [DeadlineSubmitter.submit_job] with the job id it parsed
    from the output of the submission command, if any. *)
Record submission := {
  sub_job : JobInfo;
  sub_plugin : PluginInfo;
  sub_id : option string
}.

Inductive error := TypeError.

Record config := {
  do_tex : bool;
  has_proxy : bool;
  has_lods : bool;
  lod_count : Z
}.

(** [",".join(items)] *)
Fixpoint join_comma (items : list string) : string :=
  match items with
  | [] => EmptyString
  | [x] => x
  | x :: rest => x +:+ "," +:+ join_comma rest
  end.

(** The same on a Python list that may hold [None]: a [None] item makes
    [join] raise [TypeError]. *)
Fixpoint all_ids (items : list (option string)) : option (list string) :=
  match items with
  | [] => Some []
  | Some x :: rest =>
      match all_ids rest with
      | Some xs => Some (x :: xs)
      | None => None
      end
  | None :: _ => None
  end.

Definition join_ids (items : list (option string)) : error + string :=
  match all_ids items with
  | Some xs => inr (join_comma xs)
  | None => inl TypeError
  end.

Section Chain.

(** The farm: given the submissions so far and a new job, the id printed
    by the submission command ([None] when no [JobID=] line comes back). *)
Variable deadlinecommand : list submission -> JobInfo -> PluginInfo -> option string.

Variable current_scene_name : string.
Variable safe_worker_path safe_json_path safe_oiio_path safe_manifest : string.

(** The tile manifest [submit_oiio_job] computes from the scene. *)
Variable sorted_files : list string.

Definition submit_job (farm : list submission) (j : JobInfo) (p : PluginInfo)
  : list submission * option string :=
  let id := deadlinecommand farm j p in
  (farm ++ [{| sub_job := j; sub_plugin := p; sub_id := id |}], id).

(** [_get_Job_Info_Dict]; [dependencies] is [None] or a list of ids. *)
Definition _get_Job_Info_Dict (suffix plugin frames : string)
  (dependencies : option (list (option string))) : error + JobInfo :=
  let base deps :=
    {| Name := current_scene_name +:+ "-" +:+ suffix;
       Plugin := plugin; Frames := frames; ChunkSize := None;
       JobDependencies := deps |} in
  match dependencies with
  | None => inr (base None)
  | Some [] => inr (base None)
  | Some ids =>
      match join_ids ids with
      | inr s => inr (base (Some s))
      | inl e => inl e
      end
  end.

Definition _get_Plugin_Info_Dict (script data_file task extra : string)
  : PluginInfo :=
  {| script_path := script; data_file := data_file; task_type := task;
     extra_arg := extra |}.

Definition submit_export_job (farm : list submission)
  : error + (list submission * option string) :=
  match _get_Job_Info_Dict "Maya_Export_Base" "CommandLine" "1" None with
  | inl e => inl e
  | inr job_info =>
      inr (submit_job farm job_info
             (_get_Plugin_Info_Dict safe_worker_path safe_json_path "export_base" ""))
  end.

Definition submit_oiio_job (farm : list submission)
  (dependency_id : option (list (option string)))
  : error + (list submission * option string) :=
  match sorted_files with
  | [] => inr (farm, None)
  | _ =>
      let n := length sorted_files in
      let chunk := if Nat.ltb 50 n then "50" else Str.str_of_nat n in
      match _get_Job_Info_Dict "OIIO_Convert" "CommandLine"
              ("0-" +:+ Str.str_of_nat (n - 1)) dependency_id with
      | inl e => inl e
      | inr job_info =>
          let job_info := {| Name := Name job_info; Plugin := Plugin job_info;
                             Frames := Frames job_info; ChunkSize := Some chunk;
                             JobDependencies := JobDependencies job_info |} in
          inr (submit_job farm job_info
                 (_get_Plugin_Info_Dict safe_oiio_path safe_manifest
                    "<STARTFRAME> <ENDFRAME>" ""))
      end
  end.

Definition submit_geo_job (farm : list submission)
  (task_identifier specific_name extra : string)
  : error + (list submission * option string) :=
  match _get_Job_Info_Dict ("Geo_" +:+ specific_name) "CommandLine" "1" None with
  | inl e => inl e
  | inr job_info =>
      inr (submit_job farm job_info
             (_get_Plugin_Info_Dict safe_worker_path safe_json_path
                task_identifier extra))
  end.

Definition submit_assemble_job (farm : list submission)
  (dependency_ids : list (option string))
  : error + (list submission * option string) :=
  match _get_Job_Info_Dict "Assemble_Shotgun_Submission" "CommandLine" "1"
          (Some dependency_ids) with
  | inl e => inl e
  | inr job_info =>
      inr (submit_job farm job_info
             (_get_Plugin_Info_Dict safe_worker_path safe_json_path "assemble" ""))
  end.

(** The state the chain threads: the farm and [assembly_dependencies]. *)
Definition chain_state : Type := list submission * list (option string).

Definition bind {A B : Type} (x : error + A) (f : A -> error + B) : error + B :=
  match x with
  | inl e => inl e
  | inr a => f a
  end.

(** [if job_id: assembly_dependencies.append(job_id)]: an id that is
    [None] or the empty string is not appended. *)
Definition append_if_id (deps : list (option string)) (id : option string)
  : list (option string) :=
  match id with
  | Some s => if String.eqb s "" then deps else deps ++ [Some s]
  | None => deps
  end.

Definition then_append (deps : list (option string))
  (r : error + (list submission * option string)) : error + chain_state :=
  bind r (fun '(farm, id) => inr (farm, append_if_id deps id)).

(** Step 1 (source lines 1441-1443): the id of the export job is appended
    whatever it is. *)
Definition export_stage (farm : list submission) : error + chain_state :=
  bind (submit_export_job farm)
       (fun '(farm, mayaExportJobId) => inr (farm, [mayaExportJobId])).

(** Step 2 (source lines 1446-1450). *)
Definition tex_stage (cfg : config) (st : chain_state) : error + chain_state :=
  if do_tex cfg then then_append (snd st) (submit_oiio_job (fst st) None)
  else inr st.

(** Step 3 (source lines 1453-1457). *)
Definition proxy_stage (cfg : config) (st : chain_state) : error + chain_state :=
  if has_proxy cfg
  then then_append (snd st) (submit_geo_job (fst st) "proxy" "Proxy" "")
  else inr st.

(** One iteration of the LOD fan-out loop (source lines 1462-1466). *)
Definition lod_step (st : chain_state) (i : nat) : error + chain_state :=
  then_append (snd st)
    (submit_geo_job (fst st) "lod" ("LOD" +:+ Str.str_of_nat i) (Str.str_of_nat i)).

(** Step 4 (source lines 1460-1466). *)
Definition lod_stage (cfg : config) (st : chain_state) : error + chain_state :=
  if has_lods cfg
  then fold_left (fun acc i => bind acc (fun st => lod_step st i))
                 (seq 1 (Z.to_nat (lod_count cfg))) (inr st)
  else inr st.

(** Steps 1-4 of the execution chain (source lines 1438-1466): the farm
    and the dependency list right before the assemble job is built. *)
Definition producers (cfg : config) (farm : list submission)
  : error + chain_state :=
  bind (bind (bind (export_stage farm) (tex_stage cfg)) (proxy_stage cfg))
       (lod_stage cfg).

(** [run_deadline_publish], section 5 (source lines 1437-1470): the farm
    afterwards and [AssembleUsdJobId]. *)
Definition run_deadline_publish (cfg : config) (farm : list submission)
  : error + (list submission * option string) :=
  bind (producers cfg farm)
       (fun '(farm, assembly_dependencies) =>
          submit_assemble_job farm assembly_dependencies).

End Chain.

(** The ids [if job_id: assembly_dependencies.append(job_id)] keeps from a
    run of submissions. *)
Definition collected_ids (log : list submission) : list (option string) :=
  fold_left append_if_id (map sub_id log) [].

Definition is_producer (s : submission) : Prop :=
  task_type (sub_plugin s) <> "assemble".

(** What a stage of the chain does to the farm and to the dependency
    list: it appends a log of producer submissions and the ids kept from
    that log. *)
Definition extends (st : chain_state) (r : error + chain_state) : Prop :=
  exists log, r = inr (fst st ++ log, snd st ++ collected_ids log)
              /\ Forall is_producer log.

End Deadline.

(** ** The scene-description data model (Sdf / Usd) *)

Module Usd.

(** An absolute prim path: the names from the root down. *)
Abbreviation Path := (list string).

Definition AppendChild (p : Path) (name : string) : Path := p ++ [name].
Definition GetName (p : Path) : string := List.last p EmptyString.
Definition GetParentPath (p : Path) : Path := removelast p.

(** [p.HasPrefix(prefix)]: [prefix] is [p] or one of its ancestors. *)
Fixpoint HasPrefix (p prefix : Path) : bool :=
  match prefix, p with
  | [], _ => true
  | a :: prefix', b :: p' => String.eqb a b && HasPrefix p' prefix'
  | _ :: _, [] => false
  end.

Inductive Specifier := SpecifierDef | SpecifierOver | SpecifierClass.

Record PrimSpec := {
  specifier : Specifier;
  typeName : string
}.

Record Reference := {
  assetPath : string;
  primPath : option Path
}.

(** A variant: the prims it defines and the references authored inside it,
    each with the prim that owns it. *)
Record Variant := {
  vname : string;
  vprims : list (Path * string);
  vrefs : list (Path * Reference)
}.

Record VariantSet := {
  variants : list Variant;
  selection : option string
}.

(** A layer: the fields the composition functions author.  Variant sets
    are keyed by owning prim and set name. *)
Record Layer := {
  defaultPrim : string;
  subLayerPaths : list string;
  primSpecs : gmap Path PrimSpec;
  references : list (Path * Reference);
  variantSets : gmap (Path * string) VariantSet
}.

Definition empty_layer : Layer :=
  {| defaultPrim := EmptyString; subLayerPaths := []; primSpecs := ∅;
     references := []; variantSets := ∅ |}.

Definition set_defaultPrim (l : Layer) (name : string) : Layer :=
  {| defaultPrim := name; subLayerPaths := subLayerPaths l;
     primSpecs := primSpecs l; references := references l;
     variantSets := variantSets l |}.

Definition set_subLayerPaths (l : Layer) (subs : list string) : Layer :=
  {| defaultPrim := defaultPrim l; subLayerPaths := subs;
     primSpecs := primSpecs l; references := references l;
     variantSets := variantSets l |}.

Definition set_primSpecs (l : Layer) (specs : gmap Path PrimSpec) : Layer :=
  {| defaultPrim := defaultPrim l; subLayerPaths := subLayerPaths l;
     primSpecs := specs; references := references l;
     variantSets := variantSets l |}.

Definition set_references (l : Layer) (refs : list (Path * Reference)) : Layer :=
  {| defaultPrim := defaultPrim l; subLayerPaths := subLayerPaths l;
     primSpecs := primSpecs l; references := refs;
     variantSets := variantSets l |}.

Definition set_variantSets (l : Layer) (vs : gmap (Path * string) VariantSet)
  : Layer :=
  {| defaultPrim := defaultPrim l; subLayerPaths := subLayerPaths l;
     primSpecs := primSpecs l; references := references l;
     variantSets := vs |}.

(** [stage.DefinePrim(path, type)] on the root layer of a stage. *)
Definition DefinePrim (l : Layer) (path : Path) (type : string) : Layer :=
  set_primSpecs l
    (<[path := {| specifier := SpecifierDef; typeName := type |}]> (primSpecs l)).

(** *** Variant sets *)

Definition empty_variant_set : VariantSet :=
  {| variants := []; selection := None |}.

Definition has_variant (vs : VariantSet) (name : string) : bool :=
  existsb (fun v => String.eqb (vname v) name) (variants vs).

(** [vset.AddVariant(name)]: a name already present is not added again. *)
Definition AddVariant (vs : VariantSet) (name : string) : VariantSet :=
  if has_variant vs name then vs
  else {| variants := variants vs ++ [{| vname := name; vprims := []; vrefs := [] |}];
          selection := selection vs |}.

(** [vset.SetVariantSelection(name)] *)
Definition SetVariantSelection (vs : VariantSet) (name : string) : VariantSet :=
  {| variants := variants vs; selection := Some name |}.

(** [with vset.GetVariantEditContext(): ...]: the edit [f] lands in the
    variant that is selected. *)
Definition in_edit_context (vs : VariantSet) (f : Variant -> Variant) : VariantSet :=
  {| variants :=
       map (fun v => match selection vs with
                     | Some s => if String.eqb (vname v) s then f v else v
                     | None => v
                     end) (variants vs);
     selection := selection vs |}.

Definition path_eqb (p q : Path) : bool := bool_decide (p = q).

(** [prim.GetReferences().ClearReferences()] *)
Definition ClearReferences (owner : Path) (v : Variant) : Variant :=
  {| vname := vname v; vprims := vprims v;
     vrefs := List.filter (fun r => negb (path_eqb (fst r) owner)) (vrefs v) |}.

(** [prim.GetReferences().AddReference(asset, prim_path)] *)
Definition AddReference (owner : Path) (asset : string) (target : option Path)
  (v : Variant) : Variant :=
  {| vname := vname v; vprims := vprims v;
     vrefs := vrefs v ++ [(owner, {| assetPath := asset; primPath := target |})] |}.

Definition DefineVariantPrim (path : Path) (type : string) (v : Variant) : Variant :=
  {| vname := vname v; vprims := vprims v ++ [(path, type)]; vrefs := vrefs v |}.

Definition variant_names (vs : VariantSet) : list string :=
  map vname (variants vs).

(** [f"LOD{k}"] *)
Definition lod_name (k : nat) : string := "LOD" +:+ Str.str_of_nat k.

Inductive error :=
| RuntimeError (msg : string)
| AttributeError.

End Usd.

(** ** MaterialRebinder: [_author_meta_and_fix_materials], release 25.12.7 *)

Module MaterialRebinder.

Import Usd.

Inductive prim_type := TMaterial | TMesh | TGeomSubset | TScope | TOther.

(** A prim of the composed stage.  [can_apply] is the answer of
    [UsdShade.MaterialBindingAPI.CanApply]; [has_spec] tells whether
    [_get_defining_layer_for_prim] finds a layer; [rels] maps the name of
    each relationship to its composed targets; [network] is the shading
    network (or any other content) the prim carries. *)
Record Prim := {
  ptype : prim_type;
  can_apply : bool;
  has_spec : bool;
  rels : gmap string (list Path);
  network : string
}.

Definition is_material (q : Prim) : bool :=
  match ptype q with TMaterial => true | _ => false end.
Definition is_mesh (q : Prim) : bool :=
  match ptype q with TMesh => true | _ => false end.
Definition is_subset (q : Prim) : bool :=
  match ptype q with TGeomSubset => true | _ => false end.

Definition set_rels (q : Prim) (r : gmap string (list Path)) : Prim :=
  {| ptype := ptype q; can_apply := can_apply q; has_spec := has_spec q;
     rels := r; network := network q |}.

Definition set_ptype (q : Prim) (t : prim_type) : Prim :=
  {| ptype := t; can_apply := can_apply q; has_spec := has_spec q;
     rels := rels q; network := network q |}.

(** The state of one pass: the override layer, the composed stage, and the
    counters and remap table the function keeps. *)
Record pass := {
  meta : gmap Path PrimSpec;
  stage : gmap Path Prim;
  mat_remap : gmap Path Path;
  copied_mats : nat;
  rebind_count : nat;
  subset_rebind_count : nat;
  coll_rebind_count : nat
}.

Definition binding_rel : string := "material:binding".
Definition collection_prefix : string := "material:binding:collection".

Definition over_spec : PrimSpec :=
  {| specifier := SpecifierOver; typeName := EmptyString |}.

(** The non-empty prefixes of a path, shortest first. *)
Fixpoint ancestors_and_self (p : Path) : list Path :=
  match p with
  | [] => []
  | a :: r => [a] :: map (cons a) (ancestors_and_self r)
  end.

(** [Sdf.CreatePrimInLayer(layer, path)]: the prim and its missing
    ancestors appear as [over]s. *)
Definition CreatePrimInLayer (layer : gmap Path PrimSpec) (p : Path)
  : gmap Path PrimSpec :=
  fold_left (fun l a => match l !! a with
                        | Some _ => l
                        | None => <[a := over_spec]> l
                        end)
            (ancestors_and_self p) layer.

(** [_ensure_over_prim(layer, path)], source lines 339-344. *)
Definition _ensure_over_prim (layer : gmap Path PrimSpec) (path : Path)
  : gmap Path PrimSpec :=
  match layer !! path with
  | Some _ => layer
  | None => <[path := over_spec]> (CreatePrimInLayer layer path)
  end.

(** [_ensure_def_scope(layer, path)], source lines 346-352. *)
Definition _ensure_def_scope (layer : gmap Path PrimSpec) (path : Path)
  : gmap Path PrimSpec :=
  match layer !! path with
  | Some _ => layer
  | None => <[path := {| specifier := SpecifierDef; typeName := "Scope" |}]>
              (CreatePrimInLayer layer path)
  end.

Definition blank_prim (t : prim_type) : Prim :=
  {| ptype := t; can_apply := true; has_spec := true; rels := ∅;
     network := EmptyString |}.

(** The composed prim at [path] once the override layer, the strongest
    sublayer, defines a Scope there. *)
Definition compose_def_scope (st : gmap Path Prim) (path : Path)
  : gmap Path Prim :=
  match st !! path with
  | Some q => <[path := set_ptype q TScope]> st
  | None => <[path := blank_prim TScope]> st
  end.

(** The composed prim at [dst] once a copy of [src] sits there in the
    override layer: the opinions of the copy win, relationships only the
    weaker prim has stay. *)
Definition compose_copy (st : gmap Path Prim) (dst : Path) (src : Prim)
  : gmap Path Prim :=
  match st !! dst with
  | Some q => <[dst := set_rels src (rels src ∪ rels q)]> st
  | None => <[dst := src]> st
  end.

(** The destination of a copy (source lines 370-375): [<mtl>/<base>] when
    the override layer has no prim there, else the first of [<base>_r1],
    [<base>_r2], ... that is free.  The override layer is finite, so the
    search stops within [size layer] steps. *)
Definition candidate (mtl_parent : Path) (base : string) (i : nat) : Path :=
  AppendChild mtl_parent (base +:+ "_r" +:+ Str.str_of_nat i).

Fixpoint first_free (fuel : nat) (layer : gmap Path PrimSpec)
  (mtl_parent : Path) (base : string) (i : nat) : Path :=
  let dst := candidate mtl_parent base i in
  match fuel with
  | O => dst
  | S fuel' =>
      match layer !! dst with
      | Some _ => first_free fuel' layer mtl_parent base (S i)
      | None => dst
      end
  end.

Definition copy_destination (layer : gmap Path PrimSpec) (mtl_parent : Path)
  (base : string) : Path :=
  let dst := AppendChild mtl_parent base in
  match layer !! dst with
  | Some _ => first_free (size layer) layer mtl_parent base 1
  | None => dst
  end.

Definition material_spec : PrimSpec :=
  {| specifier := SpecifierDef; typeName := "Material" |}.

(** One iteration of the copy loop (source lines 366-379) at the prim the
    traversal is visiting. *)
Definition copy_step (top_path mtl_parent : Path) (st : pass) (p : Path) : pass :=
  match stage st !! p with
  | None => st
  | Some prim =>
      if is_material prim && negb (HasPrefix p top_path) then
        if has_spec prim then
          let base := GetName p in
          let dst := copy_destination (meta st) mtl_parent base in
          {| meta := <[dst := material_spec]> (meta st);
             stage := compose_copy (stage st) dst prim;
             mat_remap := <[p := dst]> (mat_remap st);
             copied_mats := S (copied_mats st);
             rebind_count := rebind_count st;
             subset_rebind_count := subset_rebind_count st;
             coll_rebind_count := coll_rebind_count st |}
        else st
      else st
  end.

(** [mat_remap.get(old, old)] *)
Definition remap_get (remap : gmap Path Path) (old : Path) : Path :=
  default old (remap !! old).

(** The rewrite of a direct binding relationship (source lines 391-405):
    nothing without a relationship or without targets, else the single
    target the first one maps to. *)
Definition rebind_direct (remap : gmap Path Path) (q : Prim) : option Prim :=
  match rels q !! binding_rel with
  | Some (old :: _) =>
      Some (set_rels q (<[binding_rel := [remap_get remap old]]> (rels q)))
  | _ => None
  end.

(** [mb_mesh.GetMaterialBindSubsets()]: the subset children of the mesh. *)
Definition GetMaterialBindSubsets (st : gmap Path Prim) (mesh : Path)
  : list Path :=
  map fst (List.filter (fun e => is_subset (snd e)
                            && bool_decide (GetParentPath (fst e) = mesh)
                            && negb (bool_decide (fst e = [])))
                  (map_to_list st)).

(** One iteration of the loop over the subsets of a mesh (source lines
    419-441). *)
Definition subset_step (st : pass) (subset : Path) : pass :=
  let layer := _ensure_over_prim (meta st) subset in
  match stage st !! subset with
  | None => st
  | Some s =>
      match rebind_direct (mat_remap st) s with
      | None =>
          {| meta := layer; stage := stage st; mat_remap := mat_remap st;
             copied_mats := copied_mats st; rebind_count := rebind_count st;
             subset_rebind_count := subset_rebind_count st;
             coll_rebind_count := coll_rebind_count st |}
      | Some s' =>
          {| meta := layer; stage := <[subset := s']> (stage st);
             mat_remap := mat_remap st;
             copied_mats := copied_mats st; rebind_count := rebind_count st;
             subset_rebind_count := S (subset_rebind_count st);
             coll_rebind_count := coll_rebind_count st |}
      end
  end.

(** The direct-binding part of one iteration of the second traversal
    (source lines 387-409). *)
Definition direct_step (st : pass) (p : Path) (prim : Prim) : pass :=
  if can_apply prim then
    let layer := _ensure_over_prim (meta st) p in
    match rebind_direct (mat_remap st) prim with
    | None =>
        {| meta := layer; stage := stage st; mat_remap := mat_remap st;
           copied_mats := copied_mats st; rebind_count := rebind_count st;
           subset_rebind_count := subset_rebind_count st;
           coll_rebind_count := coll_rebind_count st |}
    | Some prim' =>
        {| meta := layer; stage := <[p := prim']> (stage st);
           mat_remap := mat_remap st;
           copied_mats := copied_mats st; rebind_count := S (rebind_count st);
           subset_rebind_count := subset_rebind_count st;
           coll_rebind_count := coll_rebind_count st |}
    end
  else st.

(** One iteration of the second traversal (source lines 386-441). *)
Definition bind_step (st : pass) (p : Path) : pass :=
  match stage st !! p with
  | None => st
  | Some prim =>
      let st1 := direct_step st p prim in
      if is_mesh prim
      then fold_left subset_step (GetMaterialBindSubsets (stage st1) p) st1
      else st1
  end.

Definition is_material_at (st : gmap Path Prim) (t : Path) : bool :=
  match st !! t with
  | Some q => is_material q
  | None => false
  end.

(** The loop over the targets of a collection binding (source lines
    453-459): the last material target and the last other target. *)
Definition classify (st : gmap Path Prim) (targets : list Path)
  : option Path * option Path :=
  fold_left (fun acc tgt =>
               if is_material_at st tgt then (Some tgt, snd acc)
               else (fst acc, Some tgt))
            targets (None, None).

(** The new targets of a collection binding, when it is rewritten (source
    lines 450-471). *)
Definition rebind_collection (remap : gmap Path Path) (st : gmap Path Prim)
  (targets : list Path) : option (list Path) :=
  if Nat.ltb (length targets) 2 then None
  else match classify st targets with
       | (Some material_path, Some collection_path) =>
           Some [collection_path; remap_get remap material_path]
       | _ => None
       end.

(** One iteration of the loop over the relationships of a prim (source
    lines 444-472). *)
Definition coll_rel_step (p : Path) (st : pass) (rel : string * list Path) : pass :=
  if Str.startswith collection_prefix (fst rel) then
    let layer := _ensure_over_prim (meta st) p in
    match stage st !! p, rebind_collection (mat_remap st) (stage st) (snd rel) with
    | Some prim, Some targets' =>
        {| meta := layer;
           stage := <[p := set_rels prim (<[fst rel := targets']> (rels prim))]> (stage st);
           mat_remap := mat_remap st;
           copied_mats := copied_mats st; rebind_count := rebind_count st;
           subset_rebind_count := subset_rebind_count st;
           coll_rebind_count := S (coll_rebind_count st) |}
    | _, _ =>
        {| meta := layer; stage := stage st; mat_remap := mat_remap st;
           copied_mats := copied_mats st; rebind_count := rebind_count st;
           subset_rebind_count := subset_rebind_count st;
           coll_rebind_count := coll_rebind_count st |}
    end
  else st.

(** One iteration of the third traversal (source lines 443-472). *)
Definition coll_step (st : pass) (p : Path) : pass :=
  match stage st !! p with
  | None => st
  | Some prim => fold_left (coll_rel_step p) (map_to_list (rels prim)) st
  end.

(** [stg.TraverseAll()]: the paths of the prims of the stage when the
    traversal starts. *)
Definition TraverseAll (st : gmap Path Prim) : list Path :=
  map fst (map_to_list st).

(** [_author_meta_and_fix_materials] from the point where the stage is
    open (source lines 334-472), on the override layer [layer] and the
    composed stage [stg].  The stamps of lines 407-416 and 487-500 (custom
    data, purpose) author no relationship and are left out. *)
Definition fix_materials (top_name : string) (layer : gmap Path PrimSpec)
  (stg : gmap Path Prim) : pass :=
  let top_path := [top_name] in
  let mtl_parent := AppendChild top_path "mtl" in
  let layer1 := _ensure_over_prim layer top_path in
  let stg1 := match layer1 !! mtl_parent with
              | Some _ => stg
              | None => compose_def_scope stg mtl_parent
              end in
  let layer2 := _ensure_def_scope layer1 mtl_parent in
  let st0 := {| meta := layer2; stage := stg1; mat_remap := ∅;
                copied_mats := 0; rebind_count := 0;
                subset_rebind_count := 0; coll_rebind_count := 0 |} in
  let st1 := fold_left (copy_step top_path mtl_parent) (TraverseAll stg1) st0 in
  let st2 := fold_left bind_step (TraverseAll (stage st1)) st1 in
  fold_left coll_step (TraverseAll (stage st2)) st2.

(** A second pass runs on what the first one left: its override layer and
    the stage composed with it. *)
Definition second_pass (top_name : string) (first : pass) : pass :=
  fix_materials top_name (meta first) (stage first).

(** *** Notions the properties of the pass are stated with *)

(** The prims the copy loop copies: materials outside the top prim for
    which a defining layer is found. *)
Definition copyable (top_name : string) (stg : gmap Path Prim) (p : Path) : bool :=
  match stg !! p with
  | Some q => is_material q && negb (HasPrefix p [top_name]) && has_spec q
  | None => false
  end.

Definition copyable_paths (top_name : string) (stg : gmap Path Prim) : list Path :=
  List.filter (copyable top_name stg) (TraverseAll stg).

(** The direct binding of a prim once line 405 has run on it. *)
Definition rebound (remap : gmap Path Path) (q : Prim) : Prim :=
  default q (rebind_direct remap q).

(** The prims whose direct binding the second traversal rewrites: those
    the binding API applies to and the subsets of meshes. *)
Definition bind_target (stg : gmap Path Prim) (x : Path) : bool :=
  match stg !! x with
  | Some q =>
      can_apply q
      || (is_subset q && negb (bool_decide (x = []))
          && match stg !! GetParentPath x with
             | Some m => is_mesh m
             | None => false
             end)
  | None => false
  end.

(** The relationships of a prim once the third traversal has visited it. *)
Definition rebound_collections (remap : gmap Path Path) (stg : gmap Path Prim)
  (q : Prim) : Prim :=
  set_rels q
    (map_imap (fun name targets =>
                 Some (if Str.startswith collection_prefix name
                       then default targets (rebind_collection remap stg targets)
                       else targets))
              (rels q)).

(** A path directly under the material scope of the top prim. *)
Definition mtl_child (top_name : string) (x : Path) : Prop :=
  exists name, x = [top_name; "mtl"; name].

(** The override layer knows every path directly under [<top>/mtl] that
    the document mentions, as a prim or as a target of a collection
    binding.  For the empty layer a first pass starts from, this says
    that the document mentions none. *)
Definition scope_tracked (top_name : string) (layer : gmap Path PrimSpec)
  (stg : gmap Path Prim) : Prop :=
  (forall x, mtl_child top_name x -> is_Some (stg !! x) -> is_Some (layer !! x))
  /\ (forall p q name targets t,
        stg !! p = Some q -> rels q !! name = Some targets ->
        Str.startswith collection_prefix name = true ->
        In t targets -> mtl_child top_name t -> is_Some (layer !! t)).

(** *** Notions the proofs about the pass are stated with *)

(** The direct binding of the prim names at most one target, and the
    table leaves that target alone. *)
Definition direct_settled (remap : gmap Path Path) (q : Prim) : Prop :=
  match rels q !! binding_rel with
  | Some (old :: rest) => rest = [] /\ remap !! old = None
  | _ => True
  end.

(** No destination of the table is one of its keys. *)
Definition remap_closed (remap : gmap Path Path) : Prop :=
  forall k d, remap !! k = Some d -> remap !! d = None.

(** The map with [f] applied at every path of [xs]. *)
Definition alter_all {A : Type} (f : A -> A) (xs : list Path) (m : gmap Path A)
  : gmap Path A :=
  fold_left (fun m x => alter f x m) xs m.

(** The prims the iteration at [p] rewrites. *)
Definition visits (stg : gmap Path Prim) (p x : Path) : bool :=
  match stg !! p with
  | None => false
  | Some prim =>
      (bool_decide (x = p) && can_apply prim)
      || (is_mesh prim
          && match stg !! x with
             | Some s => is_subset s && bool_decide (GetParentPath x = p)
                         && negb (bool_decide (x = []))
             | None => false
             end)
  end.

(** The prims the iterations at the paths of [l] rewrite. *)
Definition visited (stg : gmap Path Prim) (l : list Path) (x : Path) : bool :=
  existsb (fun p => visits stg p x) l.

(** Two stages whose prims differ in their relationships at most. *)
Definition same_shape (s1 s2 : gmap Path Prim) : Prop :=
  forall x,
    match s1 !! x, s2 !! x with
    | Some q1, Some q2 =>
        ptype q1 = ptype q2 /\ can_apply q1 = can_apply q2
        /\ has_spec q1 = has_spec q2 /\ network q1 = network q2
    | None, None => True
    | _, _ => False
    end.

(** The targets of the relationship [name] once line 471 has run on it. *)
Definition new_targets (remap : gmap Path Path) (stg : gmap Path Prim)
  (name : string) (targets : list Path) : list Path :=
  if Str.startswith collection_prefix name
  then default targets (rebind_collection remap stg targets)
  else targets.

(** The two halves of [scope_tracked]. *)
Definition prims_tracked (top : string) (layer : gmap Path PrimSpec)
  (stg : gmap Path Prim) : Prop :=
  forall x, mtl_child top x -> is_Some (stg !! x) -> is_Some (layer !! x).

Definition targets_tracked (top : string) (layer : gmap Path PrimSpec)
  (stg : gmap Path Prim) : Prop :=
  forall p q name targets t,
    stg !! p = Some q -> rels q !! name = Some targets ->
    Str.startswith collection_prefix name = true ->
    In t targets -> mtl_child top t -> is_Some (layer !! t).

(** The state of the pass when the first traversal starts (source lines
    354-365). *)
Definition pass_start (top : string) (layer : gmap Path PrimSpec)
  (stg : gmap Path Prim) : pass :=
  let layer1 := _ensure_over_prim layer [top] in
  {| meta := _ensure_def_scope layer1 [top; "mtl"];
     stage := match layer1 !! [top; "mtl"] with
              | Some _ => stg
              | None => compose_def_scope stg [top; "mtl"]
              end;
     mat_remap := ∅; copied_mats := 0; rebind_count := 0;
     subset_rebind_count := 0; coll_rebind_count := 0 |}.

(** The state after the first traversal, the copy loop. *)
Definition after_copies (top : string) (layer : gmap Path PrimSpec)
  (stg : gmap Path Prim) : pass :=
  fold_left (copy_step [top] [top; "mtl"])
            (TraverseAll (stage (pass_start top layer stg)))
            (pass_start top layer stg).

(** The state after the second traversal. *)
Definition after_bindings (top : string) (layer : gmap Path PrimSpec)
  (stg : gmap Path Prim) : pass :=
  fold_left bind_step (TraverseAll (stage (after_copies top layer stg)))
            (after_copies top layer stg).

(** The copy count stays and the override layer only grows. *)
Definition carries (st r : pass) : Prop :=
  copied_mats r = copied_mats st
  /\ forall x, is_Some (meta st !! x) -> is_Some (meta r !! x).

(** [scope_tracked] as a check that can be run. *)
Definition is_mtl_child (top : string) (x : Path) : bool :=
  match x with
  | [a; b; _] => String.eqb a top && String.eqb b "mtl"
  | _ => false
  end.

Definition tracked_path (top : string) (layer : gmap Path PrimSpec) (x : Path)
  : bool :=
  negb (is_mtl_child top x)
  || match layer !! x with Some _ => true | None => false end.

Definition tracked_rel (top : string) (layer : gmap Path PrimSpec)
  (rel : string * list Path) : bool :=
  negb (Str.startswith collection_prefix (fst rel))
  || forallb (tracked_path top layer) (snd rel).

Definition scope_tracked_b (top : string) (layer : gmap Path PrimSpec)
  (stg : gmap Path Prim) : bool :=
  forallb (fun e => tracked_path top layer (fst e)
                    && forallb (tracked_rel top layer) (map_to_list (rels (snd e))))
          (map_to_list stg).

(** *** A published asset *)

Definition example_material : Prim :=
  {| ptype := TMaterial; can_apply := true; has_spec := true; rels := ∅;
     network := "aiStandardSurface" |}.

Definition example_mesh : Prim :=
  {| ptype := TMesh; can_apply := true; has_spec := true;
     rels := <["material:binding" := [["mtl"; "M"]]]>
               (<["material:binding:collection:c"
                  := [["Top"; "geo.collection:c"]; ["mtl"; "M"]]]> ∅);
     network := EmptyString |}.

Definition example_subset : Prim :=
  {| ptype := TGeomSubset; can_apply := false; has_spec := true;
     rels := <["material:binding" := [["mtl"; "M"]]]> ∅;
     network := EmptyString |}.

Definition example_stage : gmap Path Prim :=
  <[["mtl"; "M"] := example_material]>
    (<[["Top"; "geo"] := example_mesh]>
       (<[["Top"] := blank_prim TOther]>
          (<[["Top"; "geo"; "s"] := example_subset]> ∅))).

End MaterialRebinder.

(** ** LayerComposer, release 25.12.7 *)

Module LayerComposer.

Import Usd.

Section Disk.

(** Layers on disk, keyed by identifier.  [creatable] tells for which
    identifiers [Sdf.Layer.CreateNew] returns a layer. *)
Variable creatable : string -> bool.

(** [Ar.GetResolver().Resolve]; the empty string when nothing resolves. *)
Variable Resolve : string -> string.

Definition CreateNew (identifier : string) : option Layer :=
  if creatable identifier then Some empty_layer else None.

(** [resolver.Resolve(p) or p] *)
Definition resolve_or (p : string) : string :=
  if String.eqb (Resolve p) "" then p else Resolve p.

(** [_write_payload_contents_layer(top_name, proxy_path, shd_path, out_path)],
    source lines 267-277. *)
Definition _write_payload_contents_layer (disk : gmap string Layer)
  (top_name proxy_path shd_path out_path : string)
  : error + (string * gmap string Layer) :=
  let out_path := Str.replace_backslash out_path in
  match CreateNew out_path with
  | None => inl (RuntimeError "Cannot create payload layer")
  | Some lyr =>
      let lyr := set_defaultPrim lyr top_name in
      let lyr := set_subLayerPaths lyr
                   [Str.replace_backslash proxy_path; Str.replace_backslash shd_path] in
      inr (out_path, <[out_path := lyr]> disk)
  end.

(** [x in xs] on strings. *)
Definition str_in (x : string) (xs : list string) : bool :=
  existsb (String.eqb x) xs.

(** [_author_meta_and_fix_materials], source lines 320-332: open the
    payload, create the meta layer and prepend it to the payload's
    sublayers unless it is already among them.  Returns the identifier of
    the meta layer and the disk. *)
Definition prepend_meta (disk : gmap string Layer)
  (payload_usdc meta_out_path : string)
  : error + (string * gmap string Layer) :=
  let payload_id := Str.replace_backslash payload_usdc in
  match disk !! payload_id with
  | None => inl (RuntimeError "Cannot open payload layer")
  | Some payload_layer =>
      let meta_id := Str.replace_backslash meta_out_path in
      match CreateNew meta_id with
      | None => inl AttributeError
      | Some meta_layer =>
          let disk := <[meta_id := meta_layer]> disk in
          let meta_id_norm := resolve_or meta_id in
          let subs := subLayerPaths payload_layer in
          let subs_norm := map resolve_or subs in
          if str_in meta_id_norm subs_norm then inr (meta_id, disk)
          else
            let subs := meta_id_norm :: subs in
            inr (meta_id,
                 <[payload_id := set_subLayerPaths payload_layer subs]> disk)
      end
  end.

(** [Usd.Stage.Open(payload_layer)]: the prims the sublayer stack of the
    payload composes to. *)
Variable Stage_Open :
  gmap string Layer -> string -> gmap Path MaterialRebinder.Prim.

(** [_author_meta_and_fix_materials(top_name, payload_usdc, meta_out_path)],
    source lines 318-506: prepend the meta layer, run the pass on the
    composed stage with the new, empty meta layer as edit target, save. *)
Definition _author_meta_and_fix_materials (disk : gmap string Layer)
  (top_name payload_usdc meta_out_path : string)
  : error + (MaterialRebinder.pass * gmap string Layer) :=
  match prepend_meta disk payload_usdc meta_out_path with
  | inl e => inl e
  | inr (meta_id, disk) =>
      let stg := Stage_Open disk (Str.replace_backslash payload_usdc) in
      let result := MaterialRebinder.fix_materials top_name ∅ stg in
      let meta_layer := set_primSpecs empty_layer (MaterialRebinder.meta result) in
      inr (result, <[meta_id := meta_layer]> disk)
  end.

(** What [export_lookdev_with_payload_and_interface] returns about the
    payload. *)
Record publish_out := {
  out_version : string;
  out_versionDir : string;
  out_shd : string;
  out_proxy : option string;
  out_payload : string;
  out_meta : string;
  out_disk : gmap string Layer
}.

Inductive publish_error :=
| AllocatorError (e : VersionAllocator.error)
| ComposeError (e : error).

(** [export_lookdev_with_payload_and_interface], steps 1) to 4) (source
    lines 626-676): allocate the version, export [shd.usdc] and, when
    asked, [proxy.usdc], write [payload.usdc] and author [meta.usdc].
    [exported_shd] and [exported_proxy] are what the Arnold exporter
    leaves on disk.  Steps 5) to 7) write the LOD fragments, their wraps,
    [variant.usdc] and the interface layer. *)
Definition export_lookdev_with_payload_and_interface
  (add_proxy : bool) (hal_root top_name : string)
  (pub_root : VersionAllocator.dir_state)
  (exported_shd exported_proxy : Layer) (disk : gmap string Layer)
  : publish_error + publish_out :=
  let maya_pub_root :=
    VersionAllocator.path_join (VersionAllocator.path_join hal_root "_publish") "maya" in
  match VersionAllocator._next_version_folder maya_pub_root pub_root with
  | inl e => inl (AllocatorError e)
  | inr (version, version_dir, _) =>
      let version_dir := Str.replace_backslash version_dir in
      let shd_path := version_dir +:+ "/shd.usdc" in
      let proxy_path := version_dir +:+ "/proxy.usdc" in
      let payload_usdc := version_dir +:+ "/payload.usdc" in
      let meta_usdc := version_dir +:+ "/meta.usdc" in
      let disk := <[shd_path := exported_shd]> disk in
      let '(proxy_path, disk) :=
        if add_proxy then (proxy_path, <[proxy_path := exported_proxy]> disk)
        else (shd_path, disk) in
      match _write_payload_contents_layer disk top_name proxy_path shd_path payload_usdc with
      | inl e => inl (ComposeError e)
      | inr (_, disk) =>
          match _author_meta_and_fix_materials disk top_name payload_usdc meta_usdc with
          | inl e => inl (ComposeError e)
          | inr (_, disk) =>
              inr {| out_version := version; out_versionDir := version_dir;
                     out_shd := shd_path;
                     out_proxy := if add_proxy then Some proxy_path else None;
                     out_payload := payload_usdc; out_meta := meta_usdc;
                     out_disk := disk |}
          end
      end
  end.

(** One iteration of the loop over [lod_wrap_paths] (source lines 584-590):
    [i] is the index [enumerate] yields. *)
Definition add_lod_variant (top : Path) (vs : VariantSet) (i : nat)
  (wrap_path : string) : VariantSet :=
  let lod_name := "LOD" +:+ Str.str_of_nat (i + 1) in
  let vs := AddVariant vs lod_name in
  let vs := SetVariantSelection vs lod_name in
  in_edit_context vs
    (fun v => AddReference top wrap_path (Some top) (ClearReferences top v)).

Fixpoint add_lod_variants (top : Path) (vs : VariantSet) (i : nat)
  (wraps : list string) : VariantSet :=
  match wraps with
  | [] => vs
  | w :: rest => add_lod_variants top (add_lod_variant top vs i w) (S i) rest
  end.

(** The ["levels"] variant set [_create_variant_layer] authors (source
    lines 574-592). *)
Definition levels_variant_set (top : Path) (payload_path : string)
  (lod_wrap_paths : list string) : VariantSet :=
  let vset := empty_variant_set in
  let vset := AddVariant vset "LOD0" in
  let vset := SetVariantSelection vset "LOD0" in
  let vset := in_edit_context vset
    (fun v => AddReference top payload_path (Some top) (ClearReferences top v)) in
  let vset := add_lod_variants top vset 0 lod_wrap_paths in
  SetVariantSelection vset "LOD0".

(** [_create_variant_layer(top_name, payload_path, lod_wrap_paths,
    variant_path)], source lines 566-597. *)
Definition _create_variant_layer (disk : gmap string Layer)
  (top_name payload_path : string) (lod_wrap_paths : list string)
  (variant_path : string) : error + (string * gmap string Layer) :=
  let variant_path := Str.replace_backslash variant_path in
  match CreateNew variant_path with
  | None => inl (RuntimeError "Cannot create variant layer")
  | Some lyr =>
      let top := [top_name] in
      let lyr := DefinePrim lyr top "Xform" in
      let vset := levels_variant_set top payload_path lod_wrap_paths in
      let lyr := set_variantSets lyr (<[(top, "levels") := vset]> (variantSets lyr)) in
      let lyr := set_defaultPrim lyr top_name in
      inr (variant_path, <[variant_path := lyr]> disk)
  end.

End Disk.

End LayerComposer.

(** ** LOD export: [_create_lod_usd] (25.12.7) and
       [_create_single_lod_usd] (26.02.03)

    The Maya scene maps a node to the meshes below it; an export writes
    the meshes of the selected node to a file.  The polygon commands are
    parameters: [None] stands for the [RuntimeError] a Maya command raises
    when it fails.  [reductions] logs, for every call of
    [_reduce_with_cleanup], the mesh it was handed and the percentage. *)

Module LODExport.

Section Maya.

Variable Mesh : Type.

Record maya := {
  scene : gmap string (list Mesh);
  files : gmap string (list Mesh);
  reductions : list (Mesh * Q)
}.

(** [cmds.duplicate(src, rr=True)[0]] followed by [_safe_rename(dup, name)]:
    a new node [name] with a copy of the meshes of [src]. *)
Definition duplicate_as (st : maya) (src name : string) : option maya :=
  match scene st !! src with
  | None => None
  | Some geo =>
      Some {| scene := <[name := geo]> (scene st); files := files st;
              reductions := reductions st |}
  end.

Definition delete_node (st : maya) (name : string) : maya :=
  {| scene := delete name (scene st); files := files st;
     reductions := reductions st |}.

(** [cmds.select(node); cmds.arnoldExportAss(f=path, selected=True, ...)] *)
Definition arnoldExportAss (st : maya) (node path : string) : maya :=
  match scene st !! node with
  | None => st
  | Some geo =>
      {| scene := scene st; files := <[path := geo]> (files st);
         reductions := reductions st |}
  end.

(** The loop [for p in parents: _reduce_with_cleanup(p, percent)] over the
    meshes of [node], for a given [_reduce_with_cleanup]. *)
Definition reduce_node (reduce : Mesh -> Q -> Mesh * bool) (st : maya)
  (node : string) (percent : Q) : maya :=
  match scene st !! node with
  | None => st
  | Some geo =>
      {| scene := <[node := map (fun m => fst (reduce m percent)) geo]> (scene st);
         files := files st;
         reductions := reductions st ++ map (fun m => (m, percent)) geo |}
  end.

(** The log entries of one pass of [_reduce_with_cleanup] over [geo]. *)
Definition logged (geo : list Mesh) (percent : Q) : list (Mesh * Q) :=
  map (fun m => (m, percent)) geo.

(** *** Release 25.12.7 *)

Section R25_12_7.

Variable polyReduce_like_mel : Mesh -> Q -> option Mesh.
Variable polyReduce_short : Mesh -> Q -> option Mesh.
(** [_cleanup_light]: failures are swallowed. *)
Variable cleanup_light : Mesh -> Mesh.

(** [_reduce_with_cleanup(xform, percent)], source lines 143-167. *)
Definition _reduce_with_cleanup_25 (m : Mesh) (percent : Q) : Mesh * bool :=
  match polyReduce_like_mel m percent with
  | Some m' => (m', true)
  | None =>
      let mc := cleanup_light m in
      match polyReduce_like_mel mc percent with
      | Some m' => (m', true)
      | None =>
          match polyReduce_short mc percent with
          | Some m' => (m', true)
          | None => (mc, false)
          end
      end
  end.

(** One iteration of the loop of [_create_lod_usd] (source lines 518-537):
    reduce the one duplicate in place, then export it. *)
Definition lod_iteration (variant_dir lod_dup : string) (percent : Q)
  (acc : maya * list string) (i : nat) : maya * list string :=
  let st := reduce_node _reduce_with_cleanup_25 (fst acc) lod_dup percent in
  let lod_path :=
    Str.replace_backslash
      (VersionAllocator.path_join variant_dir
         ("lod" +:+ Str.str_of_nat (i + 1) +:+ ".usdc")) in
  (arnoldExportAss st lod_dup lod_path, snd acc ++ [lod_path]).

(** [_create_lod_usd(top_name, src, variant_dir, mask, lod_count,
    per_step_percent)], source lines 509-544. *)
Definition _create_lod_usd (st : maya) (top_name src variant_dir : string)
  (lod_count : nat) (per_step_percent : Q) : option (maya * list string) :=
  let lod_dup := top_name +:+ "_LOD" in
  match duplicate_as st src lod_dup with
  | None => None
  | Some st =>
      let '(st, lod_paths) :=
        fold_left (lod_iteration variant_dir lod_dup per_step_percent)
                  (seq 0 lod_count) (st, []) in
      Some (delete_node st lod_dup, lod_paths)
  end.

(** The meshes of the duplicate after [k] iterations of the loop. *)
Definition chained (geo0 : list Mesh) (percent : Q) (k : nat) : list Mesh :=
  Nat.iter k (map (fun m => fst (_reduce_with_cleanup_25 m percent))) geo0.

End R25_12_7.

(** *** Release 26.02.03 *)

Section R26_02_03.

Variable polyReduce : Mesh -> Q -> option Mesh.
Variable polySoftEdge : Mesh -> option Mesh.
Variable polyCleanup : Mesh -> option Mesh.

Definition reduce_then_soften (m : Mesh) (percent : Q) : Mesh + Mesh :=
  match polyReduce m percent with
  | None => inl m
  | Some m1 =>
      match polySoftEdge m1 with
      | None => inl m1
      | Some m2 => inr m2
      end
  end.

(** [_reduce_with_cleanup(xform, percent)], source lines 84-96. *)
Definition _reduce_with_cleanup (m : Mesh) (percent : Q) : Mesh * bool :=
  match reduce_then_soften m percent with
  | inr m' => (m', true)
  | inl m1 =>
      match polyCleanup m1 with
      | None => (m1, false)
      | Some mc =>
          match reduce_then_soften mc percent with
          | inr m' => (m', true)
          | inl m2 => (m2, false)
          end
      end
  end.

Definition variant_suffix (variant_type : string) : string :=
  if String.eqb variant_type "geoVariant" then "geoLOD"
  else if String.eqb variant_type "shdVariant" then "shdLOD"
  else "LOD".

(** [_create_single_lod_usd(top_name, src, output_dir, variant_type, mask,
    lod_index, percent)], source lines 613-675: duplicate the source,
    reduce the duplicate (geometry variants only), export it, delete it. *)
Definition _create_single_lod_usd (st : maya)
  (top_name src output_dir variant_type : string) (lod_index : nat)
  (percent : Q) : option (maya * string) :=
  let suffix := variant_suffix variant_type in
  let temp_node_name := top_name +:+ "_" +:+ suffix in
  let filename :=
    variant_type +:+ "_" +:+ suffix +:+ Str.str_of_nat lod_index +:+ ".usdc" in
  let lod_path :=
    Str.replace_backslash (VersionAllocator.path_join output_dir filename) in
  match duplicate_as st src temp_node_name with
  | None => None
  | Some st =>
      let st :=
        if String.eqb variant_type "geoVariant"
        then reduce_node _reduce_with_cleanup st temp_node_name percent
        else st in
      let st := arnoldExportAss st temp_node_name lod_path in
      Some (delete_node st temp_node_name, lod_path)
  end.

(** One iteration of the loop of step 3 of [run_local_publish] (source
    lines 1200-1214), through [task_export_single_lod]. *)
Definition export_geo_lod (top_name top_node geoVariant_dir : string)
  (base_keep_percent : Q) (st : option maya) (i : nat) : option maya :=
  match st with
  | None => None
  | Some st =>
      match _create_single_lod_usd st top_name top_node geoVariant_dir
              "geoVariant" i (LODPlanner.remove_percent base_keep_percent i) with
      | None => None
      | Some (st', _) => Some st'
      end
  end.

(** Step 3 of [run_local_publish]: the geometry LODs 1 to [lod_count]. *)
Definition export_geo_lods (st : maya) (top_name top_node geoVariant_dir : string)
  (base_keep_percent : Q) (lod_count : nat) : option maya :=
  fold_left (export_geo_lod top_name top_node geoVariant_dir base_keep_percent)
            (seq 1 lod_count) (Some st).

End R26_02_03.

End Maya.

(** *** An example scene *)

(** A mesh as its face count; a reduction that halves it. *)
Definition halve (m : N) (percent : Q) : option N := Some (m / 2)%N.

Definition example_scene : maya N :=
  {| scene := <["Top" := [1000%N]]> ∅; files := ∅; reductions := [] |}.

End LODExport.

(** ** Assembly, release 26.02.03

    Layer creation and opening succeed here, as the source takes them to. *)

Module Assembly.

Import Usd.

(** The entries of the [paths] dictionary the assembly reads. *)
Record publish_paths := {
  top_name : string;
  version_dir : string;
  geoVariant_dir : string;
  shdVariant_dir : string;
  top_path : string
}.

Section Disk.

(** [os.path.relpath(path, start)] *)
Variable relpath : string -> string -> string.

Definition exists_on (disk : gmap string Layer) (path : string) : bool :=
  match disk !! path with
  | Some _ => true
  | None => false
  end.

Definition get_variant_set (l : Layer) (owner : Path) (name : string)
  : VariantSet :=
  default empty_variant_set (variantSets l !! (owner, name)).

(** [referenceToVariantEditContext(variantSet, renderFile, geoFile,
    top_name, isLOD0, isShd)], source lines 693-710. *)
Definition referenceToVariantEditContext (root : Path) (vs : VariantSet)
  (renderFile geoFile top_name : string) (isLOD0 isShd : bool) : VariantSet :=
  let rel_render :=
    Str.replace_backslash (relpath renderFile (TextureLOD.dirname geoFile)) in
  in_edit_context vs
    (fun v =>
       if isShd then
         let mtl_scope_path := AppendChild root "mtl" in
         AddReference mtl_scope_path rel_render (Some ["mtl"])
           (DefineVariantPrim mtl_scope_path "Scope" v)
       else if isLOD0 then AddReference root rel_render (Some [top_name]) v
       else AddReference root rel_render None v).

Definition material_specs (src : gmap Path PrimSpec) : list (Path * PrimSpec) :=
  List.filter (fun e => String.eqb (typeName (snd e)) "Material") (map_to_list src).

(** [clean_shader_file(dirty_path, clean_path)], source lines 712-734: the
    clean layer holds a Scope [/mtl] and, below it, every material of the
    dirty layer. *)
Definition clean_shader_file (disk : gmap string Layer)
  (dirty_path clean_path : string) : bool * gmap string Layer :=
  match disk !! dirty_path with
  | None => (false, disk)
  | Some src_layer =>
      let mtl_path := ["mtl"] in
      let specs :=
        fold_left (fun acc e => <[AppendChild mtl_path (GetName (fst e)) := snd e]> acc)
                  (material_specs (primSpecs src_layer))
                  (<[mtl_path := {| specifier := SpecifierDef; typeName := "Scope" |}]> ∅) in
      (true, <[clean_path := set_primSpecs empty_layer specs]> disk)
  end.

(** [geoUsdExport(rootPrimPath, folderPath)], source lines 736-765.  The
    purpose attributes of lines 756-762 are not modelled. *)
Definition geoUsdExport (disk : gmap string Layer) (rootPrimPath : Path)
  (folderPath : string) : gmap string Layer :=
  let pathFolder := Str.replace_backslash folderPath in
  let geoFile := pathFolder +:+ "/geo.usdc" in
  let proxyFile := pathFolder +:+ "/proxy.usdc" in
  let geoLayer := empty_layer in
  let geoLayer :=
    if exists_on disk proxyFile then
      let rel_proxy :=
        Str.replace_backslash (relpath proxyFile (TextureLOD.dirname geoFile)) in
      set_subLayerPaths geoLayer (subLayerPaths geoLayer ++ [rel_proxy])
    else geoLayer in
  let in_proxy :=
    match disk !! proxyFile with
    | Some proxy => match primSpecs proxy !! rootPrimPath with
                    | Some _ => true
                    | None => false
                    end
    | None => false
    end in
  let geoLayer :=
    if in_proxy
    then set_primSpecs geoLayer
           (<[rootPrimPath := {| specifier := SpecifierOver; typeName := EmptyString |}]>
              (primSpecs geoLayer))
    else DefinePrim geoLayer rootPrimPath "Xform" in
  let geoLayer := set_defaultPrim geoLayer (GetName rootPrimPath) in
  <[geoFile := geoLayer]> disk.

(** One iteration of the loop of [addGeoVariantsIntoGeoUsd] (source lines
    785-793). *)
Definition add_geo_variant (disk : gmap string Layer) (root : Path)
  (paths : publish_paths) (geoFile : string) (vs : VariantSet) (i : nat)
  : VariantSet :=
  let lod_name := "LOD" +:+ Str.str_of_nat i in
  let filename := "geoVariant_geoLOD" +:+ Str.str_of_nat i +:+ ".usdc" in
  let lod_file_path := geoVariant_dir paths +:+ "/" +:+ filename in
  if exists_on disk lod_file_path then
    let vs := AddVariant vs lod_name in
    let vs := SetVariantSelection vs lod_name in
    referenceToVariantEditContext root vs lod_file_path geoFile (top_name paths)
      false false
  else vs.

(** The ["levels"] variant set after [addGeoVariantsIntoGeoUsd] (source
    lines 778-795), starting from the set [vset] the root prim has. *)
Definition geo_variant_set (disk : gmap string Layer) (root : Path)
  (paths : publish_paths) (geoFile renderFile : string) (lod_count : nat)
  (vset : VariantSet) : VariantSet :=
  let vset := AddVariant vset "LOD0" in
  let vset := SetVariantSelection vset "LOD0" in
  let vset := referenceToVariantEditContext root vset renderFile geoFile
                (top_name paths) true false in
  let vset := fold_left (add_geo_variant disk root paths geoFile)
                        (seq 1 lod_count) vset in
  SetVariantSelection vset "LOD0".

(** [addGeoVariantsIntoGeoUsd(rootPrimPath, folderPath, paths, lod_count)],
    source lines 767-797. *)
Definition addGeoVariantsIntoGeoUsd (disk : gmap string Layer)
  (rootPrimPath : Path) (folderPath : string) (paths : publish_paths)
  (lod_count : nat) : gmap string Layer :=
  let pathFolder := Str.replace_backslash folderPath in
  let geoFile := pathFolder +:+ "/geo.usdc" in
  let renderFile := pathFolder +:+ "/render.usdc" in
  match disk !! geoFile with
  | None => disk
  | Some lyr =>
      let lyr := set_defaultPrim lyr (GetName rootPrimPath) in
      let vset := geo_variant_set disk rootPrimPath paths geoFile renderFile
                    lod_count (get_variant_set lyr rootPrimPath "levels") in
      let lyr := set_variantSets lyr
                   (<[(rootPrimPath, "levels") := vset]> (variantSets lyr)) in
      <[geoFile := lyr]> disk
  end.

(** [process_shd_lod(lod_name, dirty_file_path)], source lines 810-817. *)
Definition process_shd_lod (root : Path) (paths : publish_paths)
  (shdFile : string) (acc : gmap string Layer * VariantSet)
  (lod_name dirty_file_path : string) : gmap string Layer * VariantSet :=
  let '(disk, vset) := acc in
  let clean_filename := "shdVariant_" +:+ lod_name +:+ "_CLEAN.usdc" in
  let clean_file_path := shdVariant_dir paths +:+ "/" +:+ clean_filename in
  if exists_on disk dirty_file_path then
    match clean_shader_file disk dirty_file_path clean_file_path with
    | (true, disk') =>
        let vset := AddVariant vset lod_name in
        let vset := SetVariantSelection vset lod_name in
        (disk', referenceToVariantEditContext root vset clean_file_path shdFile
                  (top_name paths) false true)
    | (false, disk') => (disk', vset)
    end
  else (disk, vset).

Definition tex_lods : list nat := [2; 4; 10].

(** The path [addGeoVariantsIntoGeoUsd] looks for the fragment of geometry
    level [i] at. *)
Definition lod_file_path (paths : publish_paths) (i : nat) : string :=
  geoVariant_dir paths +:+ "/" +:+ "geoVariant_geoLOD" +:+ Str.str_of_nat i +:+ ".usdc".

(** The levels of [levels] whose fragment [file i] is on disk. *)
Definition present (disk : gmap string Layer) (file : nat -> string)
  (levels : list nat) : list nat :=
  List.filter (fun i => exists_on disk (file i)) levels.

Definition dirty_path (paths : publish_paths) (i : nat) : string :=
  shdVariant_dir paths +:+ "/shdVariant_shdLOD" +:+ Str.str_of_nat i +:+ ".usdc".

(** The disk and the ["mtl"] variant set after the calls of
    [process_shd_lod] and the final selection (source lines 819-826). *)
Definition shd_variant_set (disk : gmap string Layer) (root : Path)
  (paths : publish_paths) (shdFile : string) (vset : VariantSet)
  : gmap string Layer * VariantSet :=
  let acc := process_shd_lod root paths shdFile (disk, vset) "LOD0"
               (shdVariant_dir paths +:+ "/shdVariant_shdLOD0.usdc") in
  let acc := fold_left (fun acc i =>
                          process_shd_lod root paths shdFile acc
                            ("LOD" +:+ Str.str_of_nat i) (dirty_path paths i))
                       tex_lods acc in
  (fst acc, SetVariantSelection (snd acc) "LOD0").

(** [addShdVariantsIntoShdUsd(rootPrimPath, folderPath, paths)], source
    lines 799-828. *)
Definition addShdVariantsIntoShdUsd (disk : gmap string Layer)
  (rootPrimPath : Path) (folderPath : string) (paths : publish_paths)
  : gmap string Layer :=
  let pathFolder := Str.replace_backslash folderPath in
  let shdFile := pathFolder +:+ "/shd.usdc" in
  let lyr := default empty_layer (disk !! shdFile) in
  let lyr := DefinePrim lyr rootPrimPath "Xform" in
  let lyr := set_defaultPrim lyr (GetName rootPrimPath) in
  let '(disk, vset) :=
    shd_variant_set disk rootPrimPath paths shdFile
      (get_variant_set lyr rootPrimPath "mtl") in
  let lyr := set_variantSets lyr
               (<[(rootPrimPath, "mtl") := vset]> (variantSets lyr)) in
  <[shdFile := lyr]> disk.

(** [create_payload_file(top_name, version_dir)], source lines 830-840. *)
Definition create_payload_file (disk : gmap string Layer)
  (top_name version_dir : string) : string * gmap string Layer :=
  let payload_path := version_dir +:+ "/payload.usdc" in
  let root := [top_name] in
  let lyr := DefinePrim empty_layer root "Xform" in
  let lyr := set_defaultPrim lyr top_name in
  let lyr := set_references lyr
               [(root, {| assetPath := "./shd.usdc"; primPath := None |});
                (root, {| assetPath := "./geo.usdc"; primPath := None |})] in
  (payload_path, <[payload_path := lyr]> disk).

(** The ['assemble'] task of the farm worker, without
    [bind_materials_in_payload] and the interface layer, which read no
    optional artifact. *)
Definition assemble (disk : gmap string Layer) (paths : publish_paths)
  (lod_count : nat) : gmap string Layer :=
  let root := [top_name paths] in
  let disk := geoUsdExport disk root (version_dir paths) in
  let disk := addGeoVariantsIntoGeoUsd disk root (version_dir paths) paths lod_count in
  let disk := addShdVariantsIntoShdUsd disk root (version_dir paths) paths in
  snd (create_payload_file disk (top_name paths) (version_dir paths)).

End Disk.

End Assembly.

(** ** Python string operations the remaining functions use *)

Module PyStr.

(** [s.split(sep)] for a separator of one character: the pieces between
    the occurrences of [sep], empty pieces included; never the empty
    list. *)
Fixpoint split_on (sep : ascii) (s : string) : list string :=
  match s with
  | EmptyString => [EmptyString]
  | String c r =>
      if Ascii.eqb c sep then EmptyString :: split_on sep r
      else match split_on sep r with
           | h :: t => String c h :: t
           | [] => [String c EmptyString]
           end
  end.

(** [sep.join(parts)] *)
Fixpoint join (sep : string) (parts : list string) : string :=
  match parts with
  | [] => EmptyString
  | [x] => x
  | x :: rest => x +:+ sep +:+ join sep rest
  end.

(** [s.endswith(suffix)] *)
Fixpoint endswith (suffix s : string) : bool :=
  String.eqb suffix s
  || match s with
     | EmptyString => false
     | String _ r => endswith suffix r
     end.

(** [c in s] for a character. *)
Fixpoint contains_char (c : ascii) (s : string) : bool :=
  match s with
  | EmptyString => false
  | String a r => Ascii.eqb a c || contains_char c r
  end.

(** [p in s] *)
Fixpoint has_sub (p s : string) : bool :=
  Str.startswith p s
  || match s with
     | EmptyString => false
     | String _ r => has_sub p r
     end.

(** [s.split(sep)[-1]] *)
Definition last_piece (sep : ascii) (s : string) : string :=
  List.last (split_on sep s) EmptyString.

End PyStr.

(** ** [get_publish_paths], release 26.02.03 (source lines 1011-1039) *)

Module PublishPaths.

Import VersionAllocator.

Inductive error := TypeError | OSError.

(** The environment variables the function reads. *)
Record environ := {
  HAL_TASK_ROOT : option string;
  USERPROFILE : option string;
  HOME : option string
}.

(** [a or b] on values that are [None] or a string. *)
Definition py_or (a b : option string) : option string :=
  match a with
  | Some s => if String.eqb s "" then b else a
  | None => b
  end.

(** Source lines 1012-1014: [os.path.join] raises [TypeError] on [None]. *)
Definition publish_root (env : environ) : error + string :=
  let hal_root := default EmptyString (HAL_TASK_ROOT env) in
  if String.eqb hal_root "" then
    match py_or (USERPROFILE env) (HOME env) with
    | None => inl TypeError
    | Some home => inr (path_join (path_join home "Desktop") "MayaDebug_Publish")
    end
  else inr hal_root.

(** The dictionary the function returns. *)
Record paths := {
  top_name : string;
  version : string;
  version_dir : string;
  render_path : string;
  proxy_path : string;
  payload_path : string;
  geoVariant_dir : string;
  shdVariant_dir : string;
  top_path : string
}.

(** One iteration of the scan (source lines 1020-1023). *)
Definition scan_step (max_n : N) (e : string * node_kind) : N :=
  match snd e with
  | NDir =>
      match pat_match (fst e) with
      | Some g => N.max max_n (int_of_digits g)
      | None => max_n
      end
  | NFile => max_n
  end.

Definition get_publish_paths (env : environ) (top_node : string) (st : dir_state)
  : error + (paths * dir_state) :=
  match publish_root env with
  | inl e => inl e
  | inr hal_root =>
      let maya_pub_root := path_join (path_join hal_root "_publish") "maya" in
      let after_makedirs :=
        match st with
        | Directory entries => inr entries
        | Missing true => inr []
        | Missing false => inl OSError
        | NotADirectory => inl OSError
        end in
      match after_makedirs with
      | inl e => inl e
      | inr entries =>
          let max_n := fold_left scan_step entries 0%N in
          let version := "v" +:+ Str.format_03d (max_n + 1) in
          let version_dir :=
            Str.replace_backslash (path_join maya_pub_root version) in
          let top_name := PyStr.last_piece "|" top_node in
          let result :=
            {| top_name := top_name;
               version := version;
               version_dir := version_dir;
               render_path := version_dir +:+ "/render.usdc";
               proxy_path := version_dir +:+ "/proxy.usdc";
               payload_path := version_dir +:+ "/payload.usdc";
               geoVariant_dir :=
                 Str.replace_backslash (path_join version_dir "geoVariants");
               shdVariant_dir :=
                 Str.replace_backslash (path_join version_dir "shdVariants");
               top_path := version_dir +:+ "/" +:+ top_name +:+ ".usdc" |} in
          match entry_kind entries version with
          | Some NDir => inr (result, Directory entries)
          | Some NFile => inl OSError
          | None => inr (result, Directory (entries ++ [(version, NDir)]))
          end
      end
  end.

(** The part of the dictionary the assembly functions read. *)
Definition assembly_paths (p : paths) : Assembly.publish_paths :=
  {| Assembly.top_name := top_name p;
     Assembly.version_dir := version_dir p;
     Assembly.geoVariant_dir := geoVariant_dir p;
     Assembly.shdVariant_dir := shdVariant_dir p;
     Assembly.top_path := top_path p |}.

End PublishPaths.

(** ** The jobs of a submission chain *)

Module ChainShape.

Import Deadline.

(** The task and the extra argument of a submission, as the worker
    script receives them. *)
Definition task_of (s : submission) : string * string :=
  (task_type (sub_plugin s), extra_arg (sub_plugin s)).

(** The producer jobs a configuration asks for, in the order of
    section 5 of [run_deadline_publish]; [n_files] is the length of the
    tile manifest. *)
Definition producer_tasks (cfg : config) (n_files : nat)
  : list (string * string) :=
  [("export_base", EmptyString)]
  ++ (if do_tex cfg && negb (Nat.eqb n_files 0)
      then [("<STARTFRAME> <ENDFRAME>", EmptyString)] else [])
  ++ (if has_proxy cfg then [("proxy", EmptyString)] else [])
  ++ (if has_lods cfg
      then map (fun i => ("lod", Str.str_of_nat i))
               (seq 1 (Z.to_nat (lod_count cfg)))
      else []).

(** What a stage of the chain appends: a log of submissions with the
    given tasks, none of whose jobs has a dependency, and the ids kept
    from that log. *)
Definition appends (tasks : list (string * string)) (st : chain_state)
  (r : error + chain_state) : Prop :=
  exists log,
    r = inr (fst st ++ log, snd st ++ collected_ids log)
    /\ map task_of log = tasks
    /\ Forall (fun s => JobDependencies (sub_job s) = None) log.

End ChainShape.

(** ** Texture LOD names

    Where the converters write the scaled copies of a texture
    ([get_dst_path], in the publish tool and in the farm script
    [OIIO_process_LOD_Tasks.py]) and where [TextureLODManager] points a
    shader at them ([_to_lod_path], [_to_original_path]).  [os.path] is
    taken as [posixpath] defines it; the paths these functions hand to it
    have their backslashes replaced first. *)

Module TextureNames.

Import PyStr.

(** [c.lower()] on the 8-bit alphabet: the ASCII capitals and the
    accented capitals of Latin-1. *)
Definition lower_char (c : ascii) : ascii :=
  let n := nat_of_ascii c in
  if (Nat.leb 65 n && Nat.leb n 90)
     || (Nat.leb 192 n && Nat.leb n 222 && negb (Nat.eqb n 215))
  then ascii_of_nat (n + 32) else c.

Fixpoint lower (s : string) : string :=
  match s with
  | EmptyString => EmptyString
  | String c r => String (lower_char c) (lower r)
  end.

(** [l.insert(i, x)] for [0 <= i]; [l.insert(-1, x)] is
    [insert_at (length l - 1) x l]. *)
Definition insert_at {A : Type} (i : nat) (x : A) (l : list A) : list A :=
  firstn i l ++ x :: skipn i l.

(** [l[-1] = x] on a list that is not empty. *)
Definition set_last {A : Type} (l : list A) (x : A) : list A :=
  removelast l ++ [x].

(** [len(parts) - 1 - parts[::-1].index(x)]: the index of the last [x]. *)
Fixpoint last_index_of (x : string) (l : list string) : option nat :=
  match l with
  | [] => None
  | y :: r =>
      match last_index_of x r with
      | Some k => Some (S k)
      | None => if String.eqb y x then Some 0%nat else None
      end
  end.

(** The first index whose segment satisfies [f]. *)
Fixpoint first_index (f : string -> bool) (l : list string) : option nat :=
  match l with
  | [] => None
  | y :: r => if f y then Some 0%nat
              else option_map S (first_index f r)
  end.

Fixpoint all_dots (s : string) : bool :=
  match s with
  | EmptyString => true
  | String c r => Ascii.eqb c "." && all_dots r
  end.

(** The split at the last dot, when there is one. *)
Fixpoint split_last_dot (s : string) : option (string * string) :=
  match s with
  | EmptyString => None
  | String c r =>
      match split_last_dot r with
      | Some (stem, ext) => Some (String c stem, ext)
      | None => if Ascii.eqb c "." then Some (EmptyString, s) else None
      end
  end.

(** [os.path.splitext(n)] on a name without separator: the extension
    starts at the last dot, unless only dots come before it. *)
Definition splitext (n : string) : string * string :=
  match split_last_dot n with
  | Some (stem, ext) => if all_dots stem then (n, EmptyString) else (stem, ext)
  | None => (n, EmptyString)
  end.

(** [os.path.basename(p)]: what follows the last slash. *)
Fixpoint basename (p : string) : string :=
  match p with
  | EmptyString => EmptyString
  | String c r => if TextureLOD.has_slash p then basename r else p
  end.

(** [os.path.split(p)] *)
Definition path_split (p : string) : string * string :=
  (TextureLOD.dirname p, basename p).

(** [os.path.join(a, b)] *)
Definition os_path_join (a b : string) : string :=
  if Str.startswith "/" b then b
  else if String.eqb a "" || VersionAllocator.ends_with_slash a then a +:+ b
  else a +:+ "/" +:+ b.

(** [s[:-1]] *)
Fixpoint drop_last (s : string) : string :=
  match s with
  | EmptyString => EmptyString
  | String c r =>
      match r with
      | EmptyString => EmptyString
      | String _ _ => String c (drop_last r)
      end
  end.

(** [s.startswith(p)] up to the case of letters. *)
Fixpoint istartswith (p s : string) : bool :=
  match p, s with
  | EmptyString, _ => true
  | String a p', String b s' =>
      Ascii.eqb (lower_char a) (lower_char b) && istartswith p' s'
  | String _ _, EmptyString => false
  end.

(** [re.compile(r"(<UDIM>|<udim>)", re.IGNORECASE).search(n)]: the text
    before the first token and the text from the token on. *)
Fixpoint find_udim (n : string) : option (string * string) :=
  if istartswith "<udim>" n then Some (EmptyString, n)
  else match n with
       | EmptyString => None
       | String c r =>
           match find_udim r with
           | Some (prefix, rest) => Some (String c prefix, rest)
           | None => None
           end
       end.

(** *** The farm script: [get_dst_path] of [OIIO_process_LOD_Tasks.py]
    (source lines 30-41) *)

Definition farm_get_dst_path (src lod : string) : string :=
  let src := Str.replace_backslash src in
  let parts := split_on "/" src in
  let parts :=
    match last_index_of "export" parts with
    | Some k => insert_at (k + 1) lod parts
    | None => insert_at (length parts - 1) lod parts
    end in
  let '(stem, ext) := splitext (List.last parts EmptyString) in
  let parts :=
    if endswith ("_" +:+ lod) stem then parts
    else set_last parts (stem +:+ "_" +:+ lod +:+ ext) in
  join "/" parts.

(** *** [TextureLODProcessor.get_dst_path] (release 26.02.03, source lines
    418-450) *)

Definition get_dst_path (src lod : string) : string :=
  let src := Str.replace_backslash src in
  let parts := split_on "/" src in
  let parts :=
    match first_index (fun seg => String.eqb (lower seg) "export") parts with
    | Some idx =>
        if Nat.ltb (idx + 1) (length parts - 1)
        then insert_at (idx + 2) lod parts
        else insert_at (idx + 1) lod parts
    | None => insert_at (length parts - 1) lod parts
    end in
  let new_path := join "/" parts in
  let '(d, n) := path_split new_path in
  let suffix := "_" +:+ lod in
  let n :=
    match find_udim n with
    | Some (prefix, rest) =>
        if endswith "." prefix then
          drop_last prefix +:+ suffix +:+ "." +:+ rest
        else if endswith "_" prefix then
          drop_last prefix +:+ suffix +:+ "_" +:+ rest
        else prefix +:+ suffix +:+ rest
    | None =>
        let '(stem, ext) := splitext n in
        if endswith suffix stem then n else stem +:+ suffix +:+ ext
    end in
  Str.replace_backslash (os_path_join d n).

(** *** [TextureLODManager._to_lod_path] and [_to_original_path] (source
    lines 584-610) *)

Definition _to_lod_path (path : string) (level : nat) : string :=
  let directory := TextureLOD.dirname path in
  let filename := basename path in
  let lod_dir_name := "LOD" +:+ Str.str_of_nat level in
  let new_directory := directory +:+ "/" +:+ lod_dir_name in
  let suffix := "_" +:+ lod_dir_name in
  let new_filename :=
    match find_udim filename with
    | Some (prefix, rest) =>
        if negb (endswith suffix prefix) && negb (endswith (suffix +:+ ".") prefix)
        then
          (if endswith "." prefix then drop_last prefix +:+ suffix +:+ "."
           else prefix +:+ suffix) +:+ rest
        else filename
    | None =>
        let '(name, ext) := splitext filename in
        if endswith suffix name then filename else name +:+ suffix +:+ ext
    end in
  new_directory +:+ "/" +:+ new_filename.

(** The length of the run of decimal digits [s] starts with. *)
Fixpoint digit_run (s : string) : nat :=
  match s with
  | EmptyString => 0
  | String c r => if VersionAllocator.is_digit c then S (digit_run r) else 0
  end.

Fixpoint drop (k : nat) (s : string) : string :=
  match k, s with
  | O, _ => s
  | S k', String _ r => drop k' r
  | S _, EmptyString => EmptyString
  end.

(** The length of the match of [/LOD\d+/] at the start of [s], if any:
    the digits are taken greedily and a slash has to follow them. *)
Definition match_lod_dir (s : string) : option nat :=
  if Str.startswith "/LOD" s then
    let k := digit_run (drop 4 s) in
    if Nat.ltb 0 k && Str.startswith "/" (drop (4 + k) s) then Some (5 + k)%nat
    else None
  else None.

(** The length of the match of [_LOD\d+(?=\.|<)] at the start of [s]: the
    character after the digits is looked at, not taken. *)
Definition match_lod_suffix (s : string) : option nat :=
  if Str.startswith "_LOD" s then
    let k := digit_run (drop 4 s) in
    if Nat.ltb 0 k
       && (Str.startswith "." (drop (4 + k) s) || Str.startswith "<" (drop (4 + k) s))
    then Some (4 + k)%nat
    else None
  else None.

(** [re.sub(pattern, repl, s)] for a pattern that matches no empty text:
    the leftmost match is replaced and the scan goes on after it.
    [skip] counts the characters of the current match still to pass. *)
Fixpoint re_sub (matcher : string -> option nat) (repl : string)
  (skip : nat) (s : string) : string :=
  match s with
  | EmptyString => EmptyString
  | String c r =>
      match skip with
      | S k => re_sub matcher repl k r
      | O =>
          match matcher s with
          | Some len => repl +:+ re_sub matcher repl (len - 1) r
          | None => String c (re_sub matcher repl 0 r)
          end
      end
  end.

Definition _to_original_path (path : string) : string :=
  let new_path := re_sub match_lod_dir "/" 0 path in
  re_sub match_lod_suffix EmptyString 0 new_path.

(** The number of characters of a list of segments. *)
Fixpoint total_length (l : list string) : nat :=
  match l with
  | [] => 0
  | x :: r => String.length x + total_length r
  end.

End TextureNames.

(** ** The job id [deadlinecommand] prints

    [DeadlineSubmitter.submit_job] (release 26.02.03, source lines
    946-954) reads the id of the new job off the text the command has
    printed.  Strings are over the 8-bit alphabet. *)

Module JobId.

Import PyStr.

(** The characters [str.splitlines] ends a line at. *)
Definition is_linebreak (c : ascii) : bool :=
  let n := nat_of_ascii c in
  (Nat.leb 10 n && Nat.leb n 13) || (Nat.leb 28 n && Nat.leb n 30)
  || Nat.eqb n 133.

(** The characters [str.strip] removes. *)
Definition is_space (c : ascii) : bool :=
  let n := nat_of_ascii c in
  (Nat.leb 9 n && Nat.leb n 13) || (Nat.leb 28 n && Nat.leb n 32)
  || Nat.eqb n 133 || Nat.eqb n 160.

Definition CR : ascii := ascii_of_nat 13.
Definition LF : ascii := ascii_of_nat 10.

(** [s.splitlines()]: a carriage return followed by a line feed ends one
    line, and the end of the text opens no line. *)
Fixpoint splitlines (s : string) : list string :=
  match s with
  | EmptyString => []
  | String c r =>
      if is_linebreak c then
        match r with
        | String c' r' =>
            if Ascii.eqb c CR && Ascii.eqb c' LF
            then EmptyString :: splitlines r'
            else EmptyString :: splitlines r
        | EmptyString => [EmptyString]
        end
      else match splitlines r with
           | h :: t => String c h :: t
           | [] => [String c EmptyString]
           end
  end.

Fixpoint lstrip (s : string) : string :=
  match s with
  | EmptyString => EmptyString
  | String c r => if is_space c then lstrip r else s
  end.

Fixpoint rstrip (s : string) : string :=
  match s with
  | EmptyString => EmptyString
  | String c r =>
      let r' := rstrip r in
      if is_space c && String.eqb r' EmptyString then EmptyString
      else String c r'
  end.

(** [s.strip()] *)
Definition strip (s : string) : string := rstrip (lstrip s).

(** The loop over the lines (source lines 949-953): the first line that
    starts with [JobID=] gives the id, the text between its first and
    its second equals sign, stripped.  Such a line has an equals sign,
    so [split("=")[1]] exists. *)
Fixpoint first_job_line (lines : list string) : option string :=
  match lines with
  | [] => None
  | line :: rest =>
      if Str.startswith "JobID=" line
      then Some (strip (nth 1 (split_on "=" line) EmptyString))
      else first_job_line rest
  end.

(** The id read off [result.stdout]; [None] when the text is empty or
    has no such line. *)
Definition parse_job_id (stdout : string) : option string :=
  if String.eqb stdout EmptyString then None
  else first_job_line (splitlines stdout).

Fixpoint no_linebreak (s : string) : bool :=
  match s with
  | EmptyString => true
  | String c r => negb (is_linebreak c) && no_linebreak r
  end.

(** The text with [lines], each ended by a line feed, before [rest]. *)
Definition lines_then (lines : list string) (rest : string) : string :=
  fold_right (fun l acc => l +:+ String LF acc) rest lines.

End JobId.

(** ** The batch of one texture task on the farm

    [OIIO_process_LOD_Tasks.py] (release 26.02.03, source lines 71-79)
    is run with the first and the last frame of its task and converts
    the files of the manifest between them. *)

Module FarmBatches.

(** The position an index of a slice stands for in a list of [len]
    items: a negative index counts from the end, and the result stays
    within the list. *)
Definition slice_index (len i : Z) : Z :=
  if (i <? 0)%Z then Z.max (i + len) 0 else Z.min i len.

(** [l[a:b]] *)
Definition slice {A : Type} (l : list A) (a b : Z) : list A :=
  let len := Z.of_nat (length l) in
  let lo := slice_index len a in
  let hi := slice_index len b in
  firstn (Z.to_nat (hi - lo)) (skipn (Z.to_nat lo) l).

(** [all_files[start_idx : end_idx + 1]] *)
Definition batch (all_files : list string) (start_idx end_idx : Z)
  : list string :=
  slice all_files start_idx (end_idx + 1).

(** Frame ranges that follow one another from [from] to [stop], each
    with its two ends included. *)
Fixpoint consecutive (from : Z) (ranges : list (Z * Z)) (stop : Z) : Prop :=
  match ranges with
  | [] => from = (stop + 1)%Z
  | (s, e) :: rest => s = from /\ (s <= e)%Z /\ consecutive (e + 1) rest stop
  end.

End FarmBatches.

(** ** The conversion of one texture

    [TextureLODProcessor.convert_texture_task] (release 26.02.03, source
    lines 470-490). *)

Module TextureTask.

Import PyStr TextureNames TextureLOD.

Definition LOD_SPECS : list (string * N) :=
  [("LOD2", 2%N); ("LOD4", 4%N); ("LOD10", 10%N)].

(** The match of the UDIM token at the start of [s]. *)
Definition match_udim (s : string) : option nat :=
  if istartswith "<udim>" s then Some 6%nat else None.

Section Task.

(** [self.OIIO_TOOL]: the path of the converter, [None] when none was
    found. *)
Variable OIIO_TOOL : option string.
Variable run_tool : list string -> gmap string fnode -> string + gmap string fnode.
(** [self._expand_udim_tiles(pattern)]: the tiles a pattern stands for on
    the file system, with their numbers, in the order of the
    dictionary. *)
Variable _expand_udim_tiles : gmap string fnode -> string -> list (nat * string).

(** What a task has done: the file system, the results in the order
    they were appended, and the converter command lines that were run. *)
Record progress := {
  task_fs : gmap string fnode;
  results : list (bool * string);
  runs : list (list string)
}.

(** One call of [_convert_single_file] and the [results.append]. *)
Definition convert_one (tool : string) (scale : N) (st : error + progress)
  (src_dst : string * string) : error + progress :=
  match st with
  | inl e => inl e
  | inr p =>
      match _convert_single_file tool run_tool (task_fs p)
              (fst src_dst) (snd src_dst) scale with
      | inl e => inl e
      | inr out =>
          inr {| task_fs := out_fs out;
                 results := results p ++ [(out_ok out, out_msg out)];
                 runs := runs p ++ out_runs out |}
      end
  end.

Definition failed (fs : gmap string fnode) (msg : string) : error + progress :=
  inr {| task_fs := fs; results := [(false, msg)]; runs := [] |}.

Definition convert_texture_task (fs : gmap string fnode) (src_path : string)
  : error + progress :=
  match OIIO_TOOL with
  | None => failed fs "No OIIO Tool"
  | Some tool =>
      if String.eqb tool EmptyString then failed fs "No OIIO Tool"
      else
        let start := inr {| task_fs := fs; results := []; runs := [] |} in
        match find_udim src_path with
        | Some _ =>
            let tiles := _expand_udim_tiles fs src_path in
            match tiles with
            | [] => failed fs "No tiles found"
            | _ =>
                fold_left
                  (fun st spec =>
                     let dst_pattern := get_dst_path src_path (fst spec) in
                     fold_left
                       (fun st tile =>
                          let tile_dst :=
                            re_sub match_udim (Str.str_of_nat (fst tile)) 0
                                   dst_pattern in
                          convert_one tool (snd spec) st (snd tile, tile_dst))
                       tiles st)
                  LOD_SPECS start
            end
        | None =>
            match fs !! src_path with
            | None => failed fs "Missing Source"
            | Some _ =>
                fold_left
                  (fun st spec =>
                     convert_one tool (snd spec) st
                       (src_path, get_dst_path src_path (fst spec)))
                  LOD_SPECS start
            end
        end
  end.

End Task.

End TextureTask.

(** ** The conversion of one texture on the farm

    [convert_texture] of [OIIO_process_LOD_Tasks.py] (release 26.02.03,
    source lines 43-64). *)

Module FarmConvert.

Import PyStr TextureNames TextureLOD.

Definition LOD_SPECS : list (string * N) :=
  [("LOD2", 2%N); ("LOD4", 4%N); ("LOD10", 10%N)].

Section Farm.

(** [OIIO_TOOL], the path [find_oiio_tool] has returned. *)
Variable OIIO_TOOL : string.
Variable run_tool : list string -> gmap string fnode -> string + gmap string fnode.

(** What a conversion has done: the file system, the converter command
    lines that were run, and the pair the function returns. *)
Record done := {
  farm_fs : gmap string fnode;
  farm_runs : list (list string);
  farm_ok : bool;
  farm_msg : string
}.

(** The loop over the specifications (source lines 46-61): every level
    is converted, whether its output exists or not, and the first run
    that fails ends the loop through the handler of line 63.  The scales
    of [LOD_SPECS] are not zero, so the division of line 48 is
    defined. *)
Fixpoint convert_loop (src : string) (specs : list (string * N))
  (fs : gmap string fnode) (runs : list (list string)) : done :=
  match specs with
  | [] => {| farm_fs := fs; farm_runs := runs; farm_ok := true; farm_msg := src |}
  | (suffix, scale) :: rest =>
      let dst := farm_get_dst_path src suffix in
      let pct := (100 / scale)%N in
      let fs1 := makedirs_exist_ok fs (dirname dst) in
      let cmd := [OIIO_TOOL; src; "--resize"; Str.str_of_N pct +:+ "%"; "-o"; dst] in
      match run_tool cmd fs1 with
      | inr fs2 => convert_loop src rest fs2 (runs ++ [cmd])
      | inl e =>
          {| farm_fs := fs1; farm_runs := runs ++ [cmd]; farm_ok := false;
             farm_msg := src +:+ ": " +:+ e |}
      end
  end.

Definition convert_texture (fs : gmap string fnode) (src : string) : done :=
  convert_loop src LOD_SPECS fs [].

End Farm.

End FarmConvert.

(** * Properties of the embedding *)

#[local] Arguments String.append !_ _ / : simpl nomatch.

(** ** Strings *)

Module StrFacts.
Import Str.

Lemma replace_backslash_no_backslash s :
  no_backslash (replace_backslash s) = true.
Proof.
  induction s as [|c r IH]; simpl; [reflexivity|].
  rewrite IH, andb_true_r.
  destruct (Ascii.eqb c backslash) eqn:E; [reflexivity|].
  now rewrite E.
Qed.

Lemma replace_backslash_id s :
  no_backslash s = true -> replace_backslash s = s.
Proof.
  induction s as [|c r IH]; simpl; [reflexivity|].
  intros [Hc Hr]%andb_true_iff.
  rewrite (IH Hr).
  destruct (Ascii.eqb c backslash); [discriminate|reflexivity].
Qed.

Lemma no_backslash_app s t :
  no_backslash (s +:+ t) = no_backslash s && no_backslash t.
Proof.
  induction s as [|c r IH]; simpl; [reflexivity|].
  now rewrite IH, andb_assoc.
Qed.

Lemma append_inj_l p s t : p +:+ s = p +:+ t -> s = t.
Proof.
  induction p as [|c p IH]; simpl; [tauto|].
  intros H. injection H as H. now apply IH.
Qed.

Lemma str_of_nat_inj n m : str_of_nat n = str_of_nat m -> n = m.
Proof.
  unfold str_of_nat. intros H.
  apply DecimalNat.Unsigned.to_uint_inj.
  assert (Some (Nat.to_uint n) = Some (Nat.to_uint m)) as E.
  { rewrite <- !NilEmpty.usu. now rewrite H. }
  now injection E.
Qed.

Lemma length_app s t : String.length (s +:+ t) = String.length s + String.length t.
Proof. induction s as [|c s IH]; simpl; [reflexivity|]. now rewrite IH. Qed.

Lemma length_zeros k : String.length (zeros k) = k.
Proof. induction k as [|k IH]; simpl; [reflexivity|]. now rewrite IH. Qed.

End StrFacts.

(** ** The version allocator *)

Module VersionAllocatorFacts.
Import Str StrFacts VersionAllocator.

Lemma is_digit_char_of_uint d :
  all_digits (NilEmpty.string_of_uint d) = true.
Proof. induction d; simpl; auto. Qed.

Lemma all_digits_app s t :
  all_digits (s +:+ t) = all_digits s && all_digits t.
Proof. induction s; simpl; [reflexivity|]. now rewrite IHs, andb_assoc. Qed.

Lemma all_digits_zeros k : all_digits (zeros k) = true.
Proof. induction k; simpl; auto. Qed.

Lemma all_digits_chomp s : all_digits s = true -> chomp s = s.
Proof.
  induction s as [|c r IH]; [reflexivity|].
  simpl. intros [Hc Hr]%andb_true_iff.
  destruct r as [|c' r'].
  - destruct (Ascii.eqb c newline) eqn:E; [|reflexivity].
    apply Ascii.eqb_eq in E. subst c. discriminate.
  - f_equal. now apply IH.
Qed.

Lemma all_digits_format n : all_digits (format_03d n) = true.
Proof.
  unfold format_03d, str_of_N.
  now rewrite all_digits_app, all_digits_zeros, is_digit_char_of_uint.
Qed.

Lemma length_format n : 3 <= String.length (format_03d n).
Proof.
  unfold format_03d. rewrite length_app, length_zeros. lia.
Qed.

Lemma uint_of_zeros k s :
  NilEmpty.uint_of_string (zeros k +:+ s) =
  Nat.iter k (fun d => Decimal.D0 d) <$> NilEmpty.uint_of_string s.
Proof.
  induction k as [|k IH]; simpl.
  - destruct (NilEmpty.uint_of_string s); reflexivity.
  - rewrite IH. destruct (NilEmpty.uint_of_string s); reflexivity.
Qed.

Lemma of_uint_zeros k d :
  N.of_uint (Nat.iter k (fun d => Decimal.D0 d) d) = N.of_uint d.
Proof. induction k; simpl; auto. Qed.

Lemma int_of_format n : int_of_digits (format_03d n) = n.
Proof.
  unfold int_of_digits, format_03d, str_of_N.
  rewrite uint_of_zeros, NilEmpty.usu. simpl.
  rewrite of_uint_zeros. apply DecimalN.Unsigned.of_to.
Qed.

Lemma pat_match_label n :
  pat_match (version_label n) = Some (format_03d (n + 1)).
Proof.
  unfold version_label, pat_match. simpl.
  rewrite (all_digits_chomp _ (all_digits_format _)), all_digits_format.
  pose proof (length_format (n + 1)) as H.
  destruct (String.length (format_03d (n + 1))) as [|[|[|k]]]; try lia.
  reflexivity.
Qed.

Lemma scan_step_ge m e : (m <= scan_step m e)%N.
Proof.
  unfold scan_step. destruct (snd e); [|lia].
  destruct (pat_match (fst e)); [|lia].
  simpl. destruct (N.ltb_spec m (int_of_digits s)); lia.
Qed.

Lemma fold_scan_ge es : forall m, (m <= fold_left scan_step es m)%N.
Proof.
  induction es as [|e es IH]; intros m; simpl; [lia|].
  pose proof (scan_step_ge m e). pose proof (IH (scan_step m e)). lia.
Qed.

Lemma fold_scan_upper es : forall m name g,
  In (name, NDir) es -> pat_match name = Some g ->
  (int_of_digits g <= fold_left scan_step es m)%N.
Proof.
  induction es as [|e es IH]; intros m name g Hin Hm; [destruct Hin|].
  simpl. destruct Hin as [->|Hin].
  - pose proof (fold_scan_ge es (scan_step m (name, NDir))) as H.
    assert (int_of_digits g <= scan_step m (name, NDir))%N as Hs.
    { unfold scan_step. simpl. rewrite Hm. simpl.
      destruct (N.ltb_spec m (int_of_digits g)); lia. }
    lia.
  - now apply IH with name.
Qed.

Lemma fold_scan_attained es : forall m,
  fold_left scan_step es m = m \/
  exists name g, In (name, NDir) es /\ pat_match name = Some g /\
                 int_of_digits g = fold_left scan_step es m.
Proof.
  induction es as [|[name k] es IH]; intros m; simpl; [now left|].
  destruct (IH (scan_step m (name, k))) as [E|(n' & g & Hin & Hm & E)].
  - rewrite E. unfold scan_step. simpl.
    destruct k; [|now left].
    destruct (pat_match name) as [g|] eqn:Hm; [|now left].
    simpl. destruct (N.ltb_spec m (int_of_digits g)); [|now left].
    right. exists name, g. auto.
  - right. exists n', g. auto.
Qed.

Lemma entry_kind_In es name k :
  entry_kind es name = Some k -> In (name, k) es.
Proof.
  induction es as [|[n k'] es IH]; simpl; [discriminate|].
  destruct (String.eqb_spec n name) as [->|Hne].
  - intros [= ->]. now left.
  - intros H. right. auto.
Qed.

Lemma entry_kind_None es name k :
  entry_kind es name = None -> ~ In (name, k) es.
Proof.
  induction es as [|[n k'] es IH]; simpl; [tauto|].
  destruct (String.eqb_spec n name) as [->|Hne]; [discriminate|].
  intros H [[= -> ->]|Hin]; [congruence|]. now apply IH.
Qed.

Lemma label_not_a_directory es :
  ~ In (version_label (scan es), NDir) es.
Proof.
  intros Hin.
  pose proof (fold_scan_upper es 0%N _ _ Hin (pat_match_label (scan es))) as H.
  rewrite int_of_format in H. unfold scan in H. lia.
Qed.

Lemma next_version_folder_spec parent_dir st ver ver_path st' :
  _next_version_folder parent_dir st = inr (ver, ver_path, st') ->
  let max_n := scan (listing st) in
  ver = "v" +:+ format_03d (max_n + 1)
  /\ (3 <= String.length (format_03d (max_n + 1)))%nat
  /\ all_digits (format_03d (max_n + 1)) = true
  /\ int_of_digits (format_03d (max_n + 1)) = (max_n + 1)%N
  /\ (forall name g, In (name, NDir) (listing st) -> pat_match name = Some g ->
        (int_of_digits g <= max_n)%N)
  /\ (max_n = 0%N \/
      exists name g, In (name, NDir) (listing st) /\ pat_match name = Some g /\
                     int_of_digits g = max_n)
  /\ (forall k, ~ In (ver, k) (listing st))
  /\ (listing st = [] -> ver = "v001")
  /\ (forall p, In p [Directory [("v001", NDir); ("v002", NDir); ("v004", NDir)];
                      Directory [("v004", NDir); ("v001", NDir); ("v002", NDir)]] ->
        exists path st2, _next_version_folder parent_dir p = inr ("v005", path, st2)).
Proof.
  intros Hrun max_n.
  assert (Hver : ver = version_label max_n /\
                 entry_kind (listing st) ver <> Some NFile).
  { unfold _next_version_folder in Hrun.
    destruct st as [[|]| |es]; simpl in *; try discriminate.
    - injection Hrun as <- _ _. split; [reflexivity|discriminate].
    - fold (version_label (scan es)) in Hrun.
      destruct (entry_kind es (version_label (scan es))) as [[|]|] eqn:E;
        try discriminate; injection Hrun as <- _ _; rewrite E;
        split; try reflexivity; discriminate. }
  destruct Hver as [-> Hfile].
  split; [reflexivity|].
  split; [apply length_format|].
  split; [apply all_digits_format|].
  split; [apply int_of_format|].
  split; [intros name g; apply fold_scan_upper|].
  split.
  { destruct (fold_scan_attained (listing st) 0%N) as [E|H]; [now left|now right]. }
  split.
  { intros [|] Hin.
    - now apply (label_not_a_directory (listing st)).
    - destruct (entry_kind (listing st) (version_label max_n)) as [[|]|] eqn:E.
      + apply entry_kind_In in E. now apply (label_not_a_directory (listing st)).
      + now apply Hfile.
      + now apply (entry_kind_None _ _ NFile E). }
  split.
  { subst max_n. intros ->. reflexivity. }
  intros p [<-|[<-|[]]]; eexists _, _; vm_compute; reflexivity.
Qed.

Lemma next_version_folder_returns parent_dir st :
  (st = Missing true \/ exists es, st = Directory es
     /\ ~ In (version_label (scan es), NFile) es) ->
  exists ver ver_path st', _next_version_folder parent_dir st = inr (ver, ver_path, st').
Proof.
  intros [->|(es & -> & Hfile)]; [vm_compute; eauto|].
  unfold _next_version_folder. simpl.
  fold (version_label (scan es)).
  destruct (entry_kind es (version_label (scan es))) as [[|]|] eqn:E; eauto.
  apply entry_kind_In in E. contradiction.
Qed.

(** C8: the allocator returns whenever the parent is missing and can be
    created, or is a directory in which the next label is not the name of
    a file.  What it returns is the label ["v"] followed by [max + 1]
    written with at least three digits, where [max] is the largest number
    among the sub-directories of the parent named [v] and three or more
    digits, in either case, with at most one trailing newline ([0] when
    there is none); entries that are not directories do not count.  The
    label is the name of no entry of the parent, it is ["v001"] when the
    parent is empty or missing, and ["v005"] for a parent that holds the
    directories [v001], [v002] and [v004]. *)
Theorem next_version_folder_label parent_dir st :
  ((st = Missing true \/ exists es, st = Directory es
      /\ ~ In (version_label (scan es), NFile) es) ->
   exists ver ver_path st',
     _next_version_folder parent_dir st = inr (ver, ver_path, st'))
  /\ (forall ver ver_path st',
        _next_version_folder parent_dir st = inr (ver, ver_path, st') ->
        let max_n := scan (listing st) in
        ver = "v" +:+ format_03d (max_n + 1)
        /\ (3 <= String.length (format_03d (max_n + 1)))%nat
        /\ all_digits (format_03d (max_n + 1)) = true
        /\ int_of_digits (format_03d (max_n + 1)) = (max_n + 1)%N
        /\ (forall name g, In (name, NDir) (listing st) -> pat_match name = Some g ->
              (int_of_digits g <= max_n)%N)
        /\ (max_n = 0%N \/
            exists name g, In (name, NDir) (listing st) /\ pat_match name = Some g /\
                           int_of_digits g = max_n)
        /\ (forall k, ~ In (ver, k) (listing st))
        /\ (listing st = [] -> ver = "v001")
        /\ (forall p, In p [Directory [("v001", NDir); ("v002", NDir); ("v004", NDir)];
                            Directory [("v004", NDir); ("v001", NDir); ("v002", NDir)]] ->
              exists path st2,
                _next_version_folder parent_dir p = inr ("v005", path, st2))).
Proof.
  split.
  - apply next_version_folder_returns.
  - intros ver ver_path st'. apply next_version_folder_spec.
Qed.

Lemma next_version_folder_label_witness :
  exists st', _next_version_folder "C:/pub" (Directory [("v001", NDir); ("V010", NDir); ("v3", NDir); ("v020", NFile)])
              = inr ("v011", "C:/pub/v011", st')
  /\ (forall k, ~ In ("v011", k) [("v001", NDir); ("V010", NDir); ("v3", NDir); ("v020", NFile)]).
Proof.
  eexists. split; [vm_compute; reflexivity|].
  pose proof (proj2 (next_version_folder_label "C:/pub"
    (Directory [("v001", NDir); ("V010", NDir); ("v3", NDir); ("v020", NFile)]))
    "v011" "C:/pub/v011" _ eq_refl) as H.
  simpl in H. apply H.
Defined.

(** A file named like a version does not count: the allocator returns
    ["v001"] where the largest matching entry is [v007]. *)
Lemma next_version_folder_ignores_files :
  exists ver ver_path st',
    _next_version_folder "C:/pub" (Directory [("v007", NFile)]) = inr (ver, ver_path, st')
    /\ ver = "v001"
    /\ spec_next_label [("v007", NFile)] = "v008"
    /\ ver <> spec_next_label [("v007", NFile)].
Proof.
  eexists _, _, _. split; [vm_compute; reflexivity|].
  split; [reflexivity|]. split; [vm_compute; reflexivity|].
  vm_compute. discriminate.
Qed.

End VersionAllocatorFacts.

(** ** The LOD plan *)

Module LODPlannerFacts.
Import LODPlanner.
Local Open Scope Q_scope.

Lemma clamp_bounds x : 0 <= Qmax 0 (Qmin 99 x) <= 99.
Proof.
  split.
  - apply Q.le_max_l.
  - apply Q.max_lub; [lra|apply Q.le_min_l].
Qed.

Lemma clamp_mono x y : x <= y -> Qmax 0 (Qmin 99 x) <= Qmax 0 (Qmin 99 y).
Proof.
  intros H. apply Q.max_le_compat_l, Q.min_le_compat_l, H.
Qed.

Lemma keep_ratio_succ x (i : nat) :
  x ^ Z.of_nat (S i) == x ^ Z.of_nat i * x.
Proof.
  rewrite Nat2Z.inj_succ. unfold Z.succ.
  rewrite Qpower_plus' by lia. now rewrite Qpower_1_r.
Qed.

Lemma keep_ratio_decreasing x (i : nat) :
  0 <= x -> x <= 1 -> x ^ Z.of_nat (S i) <= x ^ Z.of_nat i.
Proof.
  intros H0 H1. rewrite keep_ratio_succ.
  pose proof (Qpower_0_le x (Z.of_nat i) H0) as Hp.
  nra.
Qed.



Lemma lod_plan_length b n : length (lod_plan b n) = n.
Proof. unfold lod_plan. now rewrite length_map, length_seq. Qed.

End LODPlannerFacts.

(** ** Texture conversion *)

Module TextureLODFacts.
Import TextureLOD.

Section Converter.

Variable OIIO_TOOL : string.
Variable run_tool : list string -> gmap string fnode -> string + gmap string fnode.

Lemma nonempty_exists_true (fs : gmap string fnode) dst n :
  fs !! dst = Some n -> (0 < getsize n)%N -> nonempty_exists fs dst = true.
Proof.
  intros H Hsz. unfold nonempty_exists. rewrite H. now apply N.ltb_lt.
Qed.

(** C10: when the destination exists with a size above zero, the
    conversion returns success without running the converter and leaves
    the file system as it is, the destination included; running it again
    gives the same, and so does running it after the source tile has been
    rewritten. *)
Theorem convert_skips_existing_output
  (fs : gmap string fnode) (src dst : string) (scale : N) (n : fnode) :
  fs !! dst = Some n -> (0 < getsize n)%N ->
  _convert_single_file OIIO_TOOL run_tool fs src dst scale = skipped fs
  /\ (forall res, _convert_single_file OIIO_TOOL run_tool fs src dst scale = inr res ->
        out_ok res = true /\ out_runs res = [] /\ out_fs res !! dst = Some n
        /\ _convert_single_file OIIO_TOOL run_tool (out_fs res) src dst scale = inr res)
  /\ (forall src' data', src' <> dst ->
        let fs' := <[src' := FFile data']> fs in
        _convert_single_file OIIO_TOOL run_tool fs' src' dst scale = skipped fs'
        /\ fs' !! dst = Some n).
Proof.
  intros Hdst Hsz.
  assert (Hskip : forall fs0 s, fs0 !! dst = Some n ->
            _convert_single_file OIIO_TOOL run_tool fs0 s dst scale = skipped fs0).
  { intros fs0 s H0. unfold _convert_single_file.
    now rewrite (nonempty_exists_true fs0 dst n H0 Hsz). }
  split; [now apply Hskip|].
  split.
  - intros res Hres. rewrite (Hskip fs src Hdst) in Hres.
    injection Hres as <-. simpl. repeat split; try assumption.
    now apply Hskip.
  - intros src' data' Hne fs'.
    assert (fs' !! dst = Some n) as H'.
    { subst fs'. now rewrite lookup_insert_ne. }
    split; [now apply Hskip|assumption].
Qed.

End Converter.

Lemma convert_skips_existing_output_witness :
  let fs : gmap string fnode :=
    <["tex/LOD2/wood_LOD2.exr" := FFile "pixels"]> (<["tex/wood.exr" := FFile "new pixels"]> ∅) in
  _convert_single_file "oiiotool" (fun _ _ => inl "not run") fs
     "tex/wood.exr" "tex/LOD2/wood_LOD2.exr" 2
  = inr {| out_fs := fs; out_ok := true; out_msg := "Skipped"; out_runs := [] |}.
Proof.
  intros fs.
  apply (convert_skips_existing_output "oiiotool" (fun _ _ => inl "not run") fs
           "tex/wood.exr" "tex/LOD2/wood_LOD2.exr" 2 (FFile "pixels")).
  - reflexivity.
  - reflexivity.
Defined.

End TextureLODFacts.

(** ** The submission chain *)

Module DeadlineFacts.
Import Deadline.

Lemma fold_append_if_id ids : forall acc,
  fold_left append_if_id ids acc = acc ++ fold_left append_if_id ids [].
Proof.
  induction ids as [|i ids IH]; intros acc; simpl.
  - now rewrite app_nil_r.
  - rewrite IH, (IH (append_if_id [] i)).
    unfold append_if_id. destruct i as [s|]; [|reflexivity].
    destruct (String.eqb s ""); [reflexivity|]. now rewrite <- app_assoc.
Qed.

Lemma collected_ids_app l1 l2 :
  collected_ids (l1 ++ l2) = collected_ids l1 ++ collected_ids l2.
Proof.
  unfold collected_ids. rewrite map_app, fold_left_app.
  apply fold_append_if_id.
Qed.

Lemma collected_ids_one s :
  collected_ids [s] = append_if_id [] (sub_id s).
Proof. reflexivity. Qed.

Lemma append_if_id_collected deps s :
  append_if_id deps (sub_id s) = deps ++ collected_ids [s].
Proof.
  rewrite collected_ids_one. unfold append_if_id.
  destruct (sub_id s) as [x|]; [|now rewrite app_nil_r].
  destruct (String.eqb x ""); [now rewrite app_nil_r|reflexivity].
Qed.

Lemma collected_ids_In log s id :
  In s log -> sub_id s = Some id -> id <> "" -> In (Some id) (collected_ids log).
Proof.
  induction log as [|x log IH]; [intros []|].
  change (x :: log) with ([x] ++ log). rewrite collected_ids_app.
  intros [<-|Hin] Hid Hne; apply in_or_app.
  - left. rewrite collected_ids_one, Hid. simpl.
    destruct (String.eqb_spec id ""); [contradiction|now left].
  - right. now apply IH.
Qed.

Lemma collected_ids_from log o :
  In o (collected_ids log) ->
  exists s id, In s log /\ sub_id s = Some id /\ o = Some id /\ id <> "".
Proof.
  induction log as [|x log IH]; [intros []|].
  change (x :: log) with ([x] ++ log). rewrite collected_ids_app.
  intros [H|H]%in_app_or.
  - rewrite collected_ids_one in H. unfold append_if_id in H.
    destruct (sub_id x) as [id|] eqn:E; [|destruct H].
    destruct (String.eqb_spec id ""); [destruct H|].
    destruct H as [<-|[]]. exists x, id. repeat split; auto. now left.
  - destruct (IH H) as (s & id & Hin & Hs & Ho & Hne).
    exists s, id. repeat split; auto. now right.
Qed.

Lemma all_ids_collected log :
  exists ids, all_ids (collected_ids log) = Some ids
              /\ map Some ids = collected_ids log.
Proof.
  induction log as [|x log IH] using rev_ind.
  - exists []. split; reflexivity.
  - destruct IH as (ids & E & Em).
    rewrite collected_ids_app, collected_ids_one.
    assert (forall l1 l2 i1 i2,
              all_ids l1 = Some i1 -> all_ids l2 = Some i2 ->
              all_ids (l1 ++ l2) = Some (i1 ++ i2)) as Happ.
    { induction l1 as [|[a|] l1 IHl]; intros l2 i1 i2 H1 H2; simpl in *.
      - now injection H1 as <-.
      - destruct (all_ids l1) as [r|] eqn:Er; [|discriminate].
        injection H1 as <-. now rewrite (IHl l2 r i2 eq_refl H2).
      - discriminate. }
    unfold append_if_id. destruct (sub_id x) as [id|].
    + destruct (String.eqb id "").
      * exists ids. now rewrite !app_nil_r.
      * exists (ids ++ [id]). split.
        -- now apply Happ.
        -- now rewrite map_app, Em.
    + exists ids. now rewrite !app_nil_r.
Qed.

Section Chain.

Variable deadlinecommand : list submission -> JobInfo -> PluginInfo -> option string.
Variable current_scene_name : string.
Variable safe_worker_path safe_json_path safe_oiio_path safe_manifest : string.
Variable sorted_files : list string.

Let producers := producers deadlinecommand current_scene_name
  safe_worker_path safe_json_path safe_oiio_path safe_manifest sorted_files.
Let run_deadline_publish := run_deadline_publish deadlinecommand
  current_scene_name safe_worker_path safe_json_path safe_oiio_path
  safe_manifest sorted_files.
Let lod_step := lod_step deadlinecommand current_scene_name
  safe_worker_path safe_json_path.
Let lod_stage := lod_stage deadlinecommand current_scene_name
  safe_worker_path safe_json_path.
Let proxy_stage := proxy_stage deadlinecommand current_scene_name
  safe_worker_path safe_json_path.
Let tex_stage := tex_stage deadlinecommand current_scene_name
  safe_oiio_path safe_manifest sorted_files.
Let export_stage := export_stage deadlinecommand current_scene_name
  safe_worker_path safe_json_path.

Lemma extends_refl st : extends st (inr st).
Proof.
  exists []. destruct st. simpl. rewrite !app_nil_r. split; [reflexivity|constructor].
Qed.

Lemma extends_bind st r f :
  extends st r -> (forall st', extends st' (f st')) -> extends st (bind r f).
Proof.
  intros (l1 & -> & H1) Hf. simpl.
  destruct (Hf (fst st ++ l1, snd st ++ collected_ids l1)) as (l2 & -> & H2).
  exists (l1 ++ l2). simpl.
  rewrite collected_ids_app, <- !app_assoc. split; [reflexivity|].
  now apply Forall_app.
Qed.

Lemma extends_submit st j p :
  task_type p <> "assemble" ->
  extends st (then_append (snd st) (inr (submit_job deadlinecommand (fst st) j p))).
Proof.
  intros Hp. eexists [_]. unfold submit_job. simpl. split.
  - f_equal. f_equal. apply (append_if_id_collected _ {| sub_id := _ |}).
  - repeat constructor. exact Hp.
Qed.

Lemma tex_stage_extends cfg st : extends st (tex_stage cfg st).
Proof.
  unfold tex_stage, Deadline.tex_stage. destruct (do_tex cfg); [|apply extends_refl].
  unfold submit_oiio_job. destruct sorted_files as [|f fs].
  - destruct st as [farm deps]. apply (extends_refl (farm, deps)).
  - apply extends_submit. discriminate.
Qed.

Lemma proxy_stage_extends cfg st : extends st (proxy_stage cfg st).
Proof.
  unfold proxy_stage, Deadline.proxy_stage.
  destruct (has_proxy cfg); [|apply extends_refl].
  apply extends_submit. discriminate.
Qed.

Lemma lod_step_extends st i : extends st (lod_step st i).
Proof. apply extends_submit. discriminate. Qed.

Lemma lod_stage_extends cfg st : extends st (lod_stage cfg st).
Proof.
  unfold lod_stage, Deadline.lod_stage.
  destruct (has_lods cfg); [|apply extends_refl].
  generalize (seq 1 (Z.to_nat (lod_count cfg))). intros levels.
  assert (forall r, extends st r ->
            extends st (fold_left (fun acc i => bind acc (fun st => lod_step st i))
                                  levels r)) as H.
  { induction levels as [|i levels IH]; intros r Hr; simpl; [assumption|].
    apply IH. apply extends_bind; [assumption|].
    intros st'. apply lod_step_extends. }
  apply H, extends_refl.
Qed.

(** Steps 1-4 submit the export job, then producers only, and hand the
    assemble step the export id followed by every id that came back. *)
Lemma producers_log cfg farm :
  exists export rest,
    producers cfg farm
    = inr (farm ++ export :: rest, sub_id export :: collected_ids rest)
    /\ task_type (sub_plugin export) = "export_base"
    /\ (forall job,
          _get_Job_Info_Dict current_scene_name "Maya_Export_Base" "CommandLine" "1" None
          = inr job ->
          sub_id export
          = deadlinecommand farm job
              (_get_Plugin_Info_Dict safe_worker_path safe_json_path "export_base" ""))
    /\ Forall is_producer rest.
Proof.
  unfold producers, Deadline.producers.
  set (export := {| sub_job := {| Name := current_scene_name +:+ "-" +:+ "Maya_Export_Base";
                                   Plugin := "CommandLine"; Frames := "1";
                                   ChunkSize := None; JobDependencies := None |};
                    sub_plugin := _get_Plugin_Info_Dict safe_worker_path safe_json_path
                                    "export_base" "";
                    sub_id := deadlinecommand farm
                      {| Name := current_scene_name +:+ "-" +:+ "Maya_Export_Base";
                         Plugin := "CommandLine"; Frames := "1";
                         ChunkSize := None; JobDependencies := None |}
                      (_get_Plugin_Info_Dict safe_worker_path safe_json_path
                         "export_base" "") |}).
  assert (extends (farm ++ [export], [sub_id export])
            (bind (bind (bind (export_stage farm) (tex_stage cfg)) (proxy_stage cfg))
                  (lod_stage cfg))) as (rest & E & Hrest).
  { apply extends_bind; [|apply lod_stage_extends].
    apply extends_bind; [|apply proxy_stage_extends].
    change (export_stage farm) with
      (inr (farm ++ [export], [sub_id export]) : error + chain_state).
    apply tex_stage_extends. }
  exists export, rest.
  split; [|split; [reflexivity|split; [now intros job [= <-]|assumption]]].
  unfold export_stage, tex_stage, proxy_stage, lod_stage in E.
  rewrite E. simpl. now rewrite <- app_assoc.
Qed.


End Chain.


End DeadlineFacts.

(** ** The payload layer and the publish, release 25.12.7 *)

Module LayerComposerFacts.
Import Str StrFacts Usd LayerComposer.

Section Disk.

Variable creatable : string -> bool.
Variable Resolve : string -> string.
Variable Stage_Open :
  gmap string Layer -> string -> gmap Path MaterialRebinder.Prim.


Lemma replace_backslash_normal vd suffix :
  no_backslash suffix = true ->
  replace_backslash (replace_backslash vd +:+ suffix)
  = replace_backslash vd +:+ suffix.
Proof.
  intros H. apply replace_backslash_id.
  now rewrite no_backslash_app, replace_backslash_no_backslash, H.
Qed.

Lemma str_in_two x a :
  str_in x [a; a] = false <-> x <> a.
Proof.
  unfold str_in. simpl. destruct (String.eqb_spec x a); simpl; split;
    congruence.
Qed.

(** The sublayer stack of the payload after steps 3) and 4), with the
    proxy option off. *)
Lemma payload_stack_without_proxy_spec
  (hal_root top_name : string) (pub_root : VersionAllocator.dir_state)
  (exported_shd exported_proxy : Layer) (disk : gmap string Layer)
  (out : publish_out) :
  export_lookdev_with_payload_and_interface creatable Resolve Stage_Open
    false hal_root top_name pub_root exported_shd exported_proxy disk = inr out ->
  out_proxy out = None
  /\ exists lyr,
       out_disk out !! out_payload out = Some lyr
       /\ defaultPrim lyr = top_name
       /\ (resolve_or Resolve (out_meta out) <> resolve_or Resolve (out_shd out) ->
           subLayerPaths lyr
           = [resolve_or Resolve (out_meta out); out_shd out; out_shd out])
       /\ (resolve_or Resolve (out_meta out) = resolve_or Resolve (out_shd out) ->
           subLayerPaths lyr = [out_shd out; out_shd out]).
Proof.
  unfold export_lookdev_with_payload_and_interface.
  destruct (VersionAllocator._next_version_folder _ pub_root)
    as [e|[[version version_dir] st']]; [discriminate|].
  set (vd := replace_backslash version_dir).
  unfold _write_payload_contents_layer, _author_meta_and_fix_materials,
    prepend_meta, CreateNew.
  unfold vd. rewrite !replace_backslash_normal by reflexivity. fold vd.
  destruct (creatable (vd +:+ "/payload.usdc")); [|discriminate].
  rewrite lookup_insert_eq.
  destruct (creatable (vd +:+ "/meta.usdc")); [|discriminate].
  assert (vd +:+ "/meta.usdc" <> vd +:+ "/payload.usdc") as Hne.
  { intros H%append_inj_l. discriminate. }
  simpl subLayerPaths. simpl map.
  destruct (str_in _ _) eqn:Hin; intros [= <-]; simpl;
    (split; [reflexivity|]);
    rewrite lookup_insert_ne by exact Hne.
  - rewrite lookup_insert_ne by exact Hne. rewrite lookup_insert_eq.
    eexists. split; [reflexivity|]. split; [reflexivity|].
    split; [|reflexivity].
    intros Hres. apply str_in_two in Hres. congruence.
  - rewrite lookup_insert_eq.
    eexists. split; [reflexivity|]. split; [reflexivity|].
    split; [reflexivity|].
    intros Hres. apply not_true_iff_false in Hin.
    exfalso. apply Hin. unfold str_in. simpl. rewrite Hres.
    now rewrite String.eqb_refl.
Qed.

Lemma publish_without_proxy_returns
  (hal_root top_name : string) (pub_root : VersionAllocator.dir_state)
  (exported_shd exported_proxy : Layer) (disk : gmap string Layer) :
  (forall p, creatable p = true) ->
  (pub_root = VersionAllocator.Missing true
   \/ exists es, pub_root = VersionAllocator.Directory es
        /\ ~ In (VersionAllocator.version_label (VersionAllocator.scan es),
                 VersionAllocator.NFile) es) ->
  exists out,
    export_lookdev_with_payload_and_interface creatable Resolve Stage_Open
      false hal_root top_name pub_root exported_shd exported_proxy disk = inr out.
Proof.
  intros Hc Hroot. unfold export_lookdev_with_payload_and_interface.
  destruct (VersionAllocatorFacts.next_version_folder_returns
              (VersionAllocator.path_join
                 (VersionAllocator.path_join hal_root "_publish") "maya")
              pub_root Hroot) as (ver & ver_path & st' & ->).
  unfold _write_payload_contents_layer, _author_meta_and_fix_materials,
    prepend_meta, CreateNew.
  rewrite !replace_backslash_normal by reflexivity.
  rewrite !Hc. rewrite lookup_insert_eq.
  cbn [subLayerPaths set_subLayerPaths set_defaultPrim].
  destruct (str_in _ _); eexists; reflexivity.
Qed.


End Disk.





End LayerComposerFacts.

(** ** Variant sets *)

Module VariantFacts.
Import Str StrFacts Usd.

Lemma lod_name_inj a b : lod_name a = lod_name b -> a = b.
Proof. intros H%append_inj_l. now apply str_of_nat_inj. Qed.

Lemma selection_set vs name :
  selection (SetVariantSelection vs name) = Some name.
Proof. reflexivity. Qed.

Lemma names_set vs name :
  variant_names (SetVariantSelection vs name) = variant_names vs.
Proof. reflexivity. Qed.

Lemma names_edit vs f :
  (forall v, vname (f v) = vname v) ->
  variant_names (in_edit_context vs f) = variant_names vs.
Proof.
  intros Hf. unfold variant_names, in_edit_context. simpl.
  rewrite map_map. apply map_ext. intros v.
  destruct (selection vs) as [s|]; [|reflexivity].
  destruct (String.eqb (vname v) s); [apply Hf|reflexivity].
Qed.

Lemma selection_edit vs f :
  selection (in_edit_context vs f) = selection vs.
Proof. reflexivity. Qed.

Lemma has_variant_In vs name :
  has_variant vs name = true <-> In name (variant_names vs).
Proof.
  unfold has_variant, variant_names. rewrite existsb_exists. split.
  - intros (v & Hin & E%String.eqb_eq). subst name. now apply in_map.
  - intros (v & <- & Hin)%in_map_iff. exists v. split; [assumption|].
    apply String.eqb_refl.
Qed.

Lemma names_add vs name :
  variant_names (AddVariant vs name)
  = if has_variant vs name then variant_names vs else variant_names vs ++ [name].
Proof.
  unfold AddVariant. destruct (has_variant vs name); [reflexivity|].
  unfold variant_names. simpl. now rewrite map_app.
Qed.

Lemma names_add_new vs name :
  ~ In name (variant_names vs) ->
  variant_names (AddVariant vs name) = variant_names vs ++ [name].
Proof.
  intros H. rewrite names_add.
  destruct (has_variant vs name) eqn:E; [|reflexivity].
  apply has_variant_In in E. contradiction.
Qed.

Lemma names_add_In vs name : In name (variant_names (AddVariant vs name)).
Proof.
  rewrite names_add. destruct (has_variant vs name) eqn:E.
  - now apply has_variant_In.
  - apply in_or_app. right. now left.
Qed.

Lemma names_add_keeps vs name x :
  In x (variant_names vs) -> In x (variant_names (AddVariant vs name)).
Proof.
  intros H. rewrite names_add. destruct (has_variant vs name); [assumption|].
  apply in_or_app. now left.
Qed.

Lemma selection_add vs name : selection (AddVariant vs name) = selection vs.
Proof. unfold AddVariant. now destruct (has_variant vs name). Qed.

End VariantFacts.

(** ** The variant layer, release 25.12.7 *)

Module LayerComposerVariantFacts.
Import Str StrFacts Usd LayerComposer VariantFacts.

Lemma add_lod_variant_names top vs i w :
  variant_names (add_lod_variant top vs i w)
  = variant_names (AddVariant vs (lod_name (i + 1))).
Proof.
  unfold add_lod_variant. rewrite names_edit by reflexivity. reflexivity.
Qed.

Lemma add_lod_variants_names top wraps : forall vs i,
  variant_names vs = map lod_name (seq 0 (S i)) ->
  variant_names (add_lod_variants top vs i wraps)
  = map lod_name (seq 0 (S i + length wraps)).
Proof.
  induction wraps as [|w wraps IH]; intros vs i Hvs; cbn [add_lod_variants length].
  - now rewrite Nat.add_0_r.
  - rewrite (IH _ (S i)).
    + now replace (S (S i) + length wraps)%nat with (S i + S (length wraps))%nat by lia.
    + rewrite add_lod_variant_names, names_add_new.
      * rewrite Hvs. replace (i + 1)%nat with (S i) by lia.
        rewrite (seq_S (S i)), map_app. reflexivity.
      * rewrite Hvs. intros (k & E%lod_name_inj & Hk%in_seq)%in_map_iff. lia.
Qed.

Lemma levels_variant_set_names top payload wraps :
  variant_names (levels_variant_set top payload wraps)
  = map lod_name (seq 0 (S (length wraps))).
Proof.
  unfold levels_variant_set. rewrite names_set.
  now rewrite (add_lod_variants_names top wraps _ 0).
Qed.

End LayerComposerVariantFacts.

(** ** Assembly, release 26.02.03 *)

Module AssemblyVariantFacts.
Import Str StrFacts Usd Assembly VariantFacts.

Section Disk.

Variable relpath : string -> string -> string.

Lemma reference_names root vs renderFile geoFile top isLOD0 isShd :
  variant_names (referenceToVariantEditContext relpath root vs renderFile geoFile
                   top isLOD0 isShd)
  = variant_names vs.
Proof.
  unfold referenceToVariantEditContext. apply names_edit.
  intros v. destruct isShd, isLOD0; reflexivity.
Qed.

Lemma add_geo_variant_keeps disk root paths geoFile vs i x :
  In x (variant_names vs) ->
  In x (variant_names (add_geo_variant relpath disk root paths geoFile vs i)).
Proof.
  intros H. unfold add_geo_variant.
  destruct (exists_on disk _); [|assumption].
  rewrite reference_names, names_set. now apply names_add_keeps.
Qed.

Lemma geo_loop_keeps disk root paths geoFile levels : forall vs x,
  In x (variant_names vs) ->
  In x (variant_names
          (fold_left (add_geo_variant relpath disk root paths geoFile) levels vs)).
Proof.
  induction levels as [|i levels IH]; intros vs x H; simpl; [assumption|].
  apply IH. now apply add_geo_variant_keeps.
Qed.

Lemma add_geo_variant_selection_names disk root paths geoFile vs i :
  variant_names (add_geo_variant relpath disk root paths geoFile vs i)
  = if exists_on disk (lod_file_path paths i)
    then variant_names (AddVariant vs (lod_name i))
    else variant_names vs.
Proof.
  unfold add_geo_variant. fold (lod_file_path paths i).
  destruct (exists_on disk (lod_file_path paths i)); [|reflexivity].
  now rewrite reference_names, names_set.
Qed.

Lemma geo_loop_names disk root paths geoFile levels : forall vs,
  List.NoDup levels ->
  (forall i, In i levels -> ~ In (lod_name i) (variant_names vs)) ->
  variant_names
    (fold_left (add_geo_variant relpath disk root paths geoFile) levels vs)
  = variant_names vs ++ map lod_name (present disk (lod_file_path paths) levels).
Proof.
  induction levels as [|i levels IH]; intros vs Hnd Hfresh; simpl.
  - now rewrite app_nil_r.
  - inversion Hnd as [|? ? Hi Hnd']; subst.
    assert (~ In (lod_name i) (variant_names vs)) as Hni
      by (apply Hfresh; now left).
    rewrite IH; [|assumption|].
    + rewrite add_geo_variant_selection_names.
      unfold present. simpl.
      destruct (exists_on disk (lod_file_path paths i)); [|reflexivity].
      rewrite names_add_new by assumption. now rewrite <- app_assoc.
    + intros j Hj. rewrite add_geo_variant_selection_names.
      destruct (exists_on disk (lod_file_path paths i)).
      * rewrite names_add_new by assumption.
        intros [H|[H%lod_name_inj|[]]]%in_app_or.
        -- apply (Hfresh j); [now right|assumption].
        -- subst. contradiction.
      * apply Hfresh. now right.
Qed.

Lemma geo_variant_set_selection disk root paths geoFile renderFile n vset :
  selection (geo_variant_set relpath disk root paths geoFile renderFile n vset)
  = Some "LOD0"
  /\ In "LOD0" (variant_names
                  (geo_variant_set relpath disk root paths geoFile renderFile n vset)).
Proof.
  split; [reflexivity|].
  unfold geo_variant_set. rewrite names_set.
  apply geo_loop_keeps. rewrite reference_names, names_set.
  apply names_add_In.
Qed.

Lemma geo_variant_set_names disk root paths geoFile renderFile n :
  variant_names (geo_variant_set relpath disk root paths geoFile renderFile n
                   empty_variant_set)
  = "LOD0" :: map lod_name (present disk (lod_file_path paths) (seq 1 n)).
Proof.
  unfold geo_variant_set. rewrite names_set, geo_loop_names.
  - reflexivity.
  - apply List.seq_NoDup.
  - intros i Hi%in_seq. rewrite reference_names, names_set. simpl.
    intros [H|[]]. change "LOD0" with (lod_name 0) in H.
    apply lod_name_inj in H. lia.
Qed.

(** The clean copies land on paths no dirty fragment has. *)
Lemma clean_path_not_dirty paths name i :
  shdVariant_dir paths +:+ "/" +:+ ("shdVariant_" +:+ lod_name name +:+ "_CLEAN.usdc")
  <> dirty_path paths i.
Proof.
  unfold dirty_path, lod_name. intros H%append_inj_l. simpl in H. discriminate.
Qed.

Lemma process_shd_lod_disk root paths shdFile disk vset k :
  let r := process_shd_lod relpath root paths shdFile (disk, vset) (lod_name k)
             (dirty_path paths k) in
  (forall p, exists_on disk p = true -> exists_on (fst r) p = true)
  /\ (forall i, exists_on (fst r) (dirty_path paths i)
                = exists_on disk (dirty_path paths i)).
Proof.
  unfold process_shd_lod, clean_shader_file, exists_on.
  destruct (disk !! dirty_path paths k) as [src|] eqn:E; simpl; [|auto].
  split.
  - intros p Hp. destruct (decide
      (shdVariant_dir paths +:+ "/" +:+
         ("shdVariant_" +:+ lod_name k +:+ "_CLEAN.usdc") = p)) as [<-|Hne].
    + now rewrite lookup_insert_eq.
    + now rewrite lookup_insert_ne.
  - intros i. rewrite lookup_insert_ne; [reflexivity|].
    apply clean_path_not_dirty.
Qed.

Lemma process_shd_lod_names root paths shdFile disk vset k :
  ~ In (lod_name k) (variant_names vset) ->
  variant_names (snd (process_shd_lod relpath root paths shdFile (disk, vset)
                        (lod_name k) (dirty_path paths k)))
  = variant_names vset ++ map lod_name (present disk (dirty_path paths) [k]).
Proof.
  intros Hk. unfold process_shd_lod, clean_shader_file, present, exists_on.
  cbn [List.filter].
  destruct (disk !! dirty_path paths k) as [src|] eqn:E; cbn [snd map].
  - rewrite reference_names, names_set. now apply names_add_new.
  - now rewrite app_nil_r.
Qed.

Lemma shd_loop root paths shdFile levels : forall disk vset,
  List.NoDup levels ->
  (forall i, In i levels -> ~ In (lod_name i) (variant_names vset)) ->
  let acc := fold_left (fun acc i =>
                          process_shd_lod relpath root paths shdFile acc
                            ("LOD" +:+ str_of_nat i) (dirty_path paths i))
                       levels (disk, vset) in
  variant_names (snd acc)
  = variant_names vset ++ map lod_name (present disk (dirty_path paths) levels)
  /\ (forall p, exists_on disk p = true -> exists_on (fst acc) p = true).
Proof.
  induction levels as [|k levels IH]; intros disk vset Hnd Hfresh;
    cbn [fold_left].
  - simpl. split; [now rewrite app_nil_r|auto].
  - inversion Hnd as [|? ? Hk Hnd']; subst.
    assert (~ In (lod_name k) (variant_names vset)) as Hnk
      by (apply Hfresh; now left).
    pose proof (process_shd_lod_names root paths shdFile disk vset k Hnk) as Hstep.
    pose proof (process_shd_lod_disk root paths shdFile disk vset k) as [Hmono Hdirty].
    fold (lod_name k).
    destruct (process_shd_lod relpath root paths shdFile (disk, vset) (lod_name k)
                (dirty_path paths k)) as [disk' vset'].
    cbn [fst snd] in *.
    destruct (IH disk' vset' Hnd') as [Hn Hm].
    { intros j Hj. rewrite Hstep. unfold present. cbn [List.filter].
      destruct (exists_on disk (dirty_path paths k)); cbn [map].
      - intros [H|[H%lod_name_inj|[]]]%in_app_or.
        + apply (Hfresh j); [now right|assumption].
        + subst. contradiction.
      - rewrite app_nil_r. apply Hfresh. now right. }
    split.
    + rewrite Hn, Hstep. unfold present. cbn [List.filter].
      assert (List.filter (fun i => exists_on disk' (dirty_path paths i)) levels
              = List.filter (fun i => exists_on disk (dirty_path paths i)) levels) as ->.
      { apply List.filter_ext. intros i. apply Hdirty. }
      destruct (exists_on disk (dirty_path paths k)); cbn [map];
        now rewrite <- app_assoc.
    + intros p Hp. apply Hm, Hmono, Hp.
Qed.

Lemma shd_loop_grows root paths shdFile levels : forall disk vset p,
  exists_on disk p = true ->
  exists_on (fst (fold_left (fun acc i =>
                               process_shd_lod relpath root paths shdFile acc
                                 ("LOD" +:+ str_of_nat i) (dirty_path paths i))
                            levels (disk, vset))) p = true.
Proof.
  induction levels as [|k levels IH]; intros disk vset p Hp; cbn [fold_left];
    [exact Hp|].
  pose proof (process_shd_lod_disk root paths shdFile disk vset k) as [Hmono _].
  fold (lod_name k).
  destruct (process_shd_lod relpath root paths shdFile (disk, vset) (lod_name k)
              (dirty_path paths k)) as [disk' vset'].
  apply IH, Hmono, Hp.
Qed.

Lemma tex_lods_fresh : List.NoDup (0 :: tex_lods).
Proof. unfold tex_lods. repeat constructor; simpl; intuition lia. Qed.

Lemma shd_variant_set_spec disk root paths shdFile vset :
  let r := shd_variant_set relpath disk root paths shdFile vset in
  selection (snd r) = Some "LOD0"
  /\ (variant_names vset = [] ->
      variant_names (snd r)
      = map lod_name (present disk (dirty_path paths) (0 :: tex_lods)))
  /\ (forall p, exists_on disk p = true -> exists_on (fst r) p = true).
Proof.
  unfold shd_variant_set. split; [reflexivity|].
  cbn [fst snd]. rewrite names_set.
  pose proof (shd_loop root paths shdFile (0 :: tex_lods) disk vset tex_lods_fresh)
    as Hloop.
  cbn [fold_left] in Hloop.
  split.
  - intros Hempty. destruct Hloop as [Hn _].
    + rewrite Hempty. tauto.
    + rewrite Hempty in Hn. exact Hn.
  - intros p Hp.
    apply (shd_loop_grows root paths shdFile (0 :: tex_lods) disk vset p Hp).
Qed.

Lemma exists_on_insert (disk : gmap string Layer) path lyr p :
  exists_on disk p = true -> exists_on (<[path := lyr]> disk) p = true.
Proof.
  unfold exists_on. destruct (decide (path = p)) as [<-|Hne].
  - now rewrite lookup_insert_eq.
  - now rewrite lookup_insert_ne.
Qed.

Lemma exists_on_insert_eq (disk : gmap string Layer) path lyr :
  exists_on (<[path := lyr]> disk) path = true.
Proof. unfold exists_on. now rewrite lookup_insert_eq. Qed.

Lemma geoUsdExport_layer disk root folder :
  let geoFile := replace_backslash folder +:+ "/geo.usdc" in
  let proxyFile := replace_backslash folder +:+ "/proxy.usdc" in
  exists lyr,
    geoUsdExport relpath disk root folder = <[geoFile := lyr]> disk
    /\ subLayerPaths lyr
       = (if exists_on disk proxyFile
          then [replace_backslash (relpath proxyFile (TextureLOD.dirname geoFile))]
          else [])
    /\ variantSets lyr = ∅.
Proof.
  intros geoFile proxyFile. unfold geoUsdExport.
  fold geoFile. fold proxyFile.
  eexists. split; [reflexivity|].
  destruct (exists_on disk proxyFile);
    destruct (match disk !! proxyFile with Some _ => _ | None => _ end);
    split; reflexivity.
Qed.

Lemma addGeo_layer disk root folder paths n lyr :
  let geoFile := replace_backslash folder +:+ "/geo.usdc" in
  let renderFile := replace_backslash folder +:+ "/render.usdc" in
  disk !! geoFile = Some lyr ->
  exists lyr',
    addGeoVariantsIntoGeoUsd relpath disk root folder paths n
    = <[geoFile := lyr']> disk
    /\ subLayerPaths lyr' = subLayerPaths lyr
    /\ variantSets lyr' !! (root, "levels")
       = Some (geo_variant_set relpath disk root paths geoFile renderFile n
                 (get_variant_set lyr root "levels")).
Proof.
  intros geoFile renderFile H. unfold addGeoVariantsIntoGeoUsd.
  fold geoFile. fold renderFile. rewrite H.
  eexists. split; [reflexivity|]. split; [reflexivity|].
  simpl. now rewrite lookup_insert_eq.
Qed.

Lemma addShd_layer disk root folder paths :
  let shdFile := replace_backslash folder +:+ "/shd.usdc" in
  exists lyr vset0,
    addShdVariantsIntoShdUsd relpath disk root folder paths
    = <[shdFile := lyr]> (fst (shd_variant_set relpath disk root paths shdFile vset0))
    /\ variantSets lyr !! (root, "mtl")
       = Some (snd (shd_variant_set relpath disk root paths shdFile vset0))
    /\ vset0 = default empty_variant_set
                 (disk !! shdFile ≫= fun l => variantSets l !! (root, "mtl")).
Proof.
  intros shdFile. unfold addShdVariantsIntoShdUsd. fold shdFile.
  match goal with |- context [shd_variant_set relpath disk root paths shdFile ?v] =>
    exists
      (set_variantSets
         (set_defaultPrim (DefinePrim (default empty_layer (disk !! shdFile)) root "Xform")
            (GetName root))
         (<[(root, "mtl") := snd (shd_variant_set relpath disk root paths shdFile v)]>
            (variantSets (default empty_layer (disk !! shdFile))))), v;
    destruct (shd_variant_set relpath disk root paths shdFile v) as [d1 v1] eqn:E
  end.
  cbn [fst snd]. split; [reflexivity|]. split.
  - simpl. now rewrite lookup_insert_eq.
  - unfold get_variant_set. simpl. destruct (disk !! shdFile); reflexivity.
Qed.

(** C4: whatever the number of variants, every variant set is left with
    ["LOD0"] selected: the ["levels"] set of [_create_variant_layer] and
    of [addGeoVariantsIntoGeoUsd], which always hold the variant
    ["LOD0"], and the ["mtl"] set of [addShdVariantsIntoShdUsd]. *)
Theorem variant_selection_returns_to_default (creatable : string -> bool) :
  (forall top payload_path wraps,
     selection (LayerComposer.levels_variant_set top payload_path wraps) = Some "LOD0"
     /\ variant_names (LayerComposer.levels_variant_set top payload_path wraps)
        = map lod_name (seq 0 (S (length wraps))))
  /\ (forall disk top_name payload_path wraps variant_path,
        creatable (replace_backslash variant_path) = true ->
        exists lyr vs,
          LayerComposer._create_variant_layer creatable disk top_name payload_path
            wraps variant_path
          = inr (replace_backslash variant_path,
                 <[replace_backslash variant_path := lyr]> disk)
          /\ variantSets lyr !! ([top_name], "levels") = Some vs
          /\ selection vs = Some "LOD0"
          /\ In "LOD0" (variant_names vs)
          /\ length (variants vs) = S (length wraps))
  /\ (forall disk root folder paths n lyr,
        disk !! (replace_backslash folder +:+ "/geo.usdc") = Some lyr ->
        exists lyr' vs,
          addGeoVariantsIntoGeoUsd relpath disk root folder paths n
            !! (replace_backslash folder +:+ "/geo.usdc") = Some lyr'
          /\ variantSets lyr' !! (root, "levels") = Some vs
          /\ selection vs = Some "LOD0"
          /\ In "LOD0" (variant_names vs))
  /\ (forall disk root folder paths,
        exists lyr vs,
          addShdVariantsIntoShdUsd relpath disk root folder paths
            !! (replace_backslash folder +:+ "/shd.usdc") = Some lyr
          /\ variantSets lyr !! (root, "mtl") = Some vs
          /\ selection vs = Some "LOD0").
Proof.
  split; [|split; [|split]].
  - intros top payload wraps. split; [reflexivity|].
    apply LayerComposerVariantFacts.levels_variant_set_names.
  - intros disk top_name payload wraps variant_path Hc.
    unfold LayerComposer._create_variant_layer, LayerComposer.CreateNew.
    rewrite Hc. eexists _, _. split; [reflexivity|].
    split; [simpl; now rewrite lookup_insert_eq|].
    split; [reflexivity|].
    pose proof (LayerComposerVariantFacts.levels_variant_set_names
                  [top_name] payload wraps) as Hn.
    split.
    + rewrite Hn. simpl. now left.
    + apply (f_equal (@length _)) in Hn. unfold variant_names in Hn.
      rewrite !length_map, length_seq in Hn. exact Hn.
  - intros disk root folder paths n lyr H.
    destruct (addGeo_layer disk root folder paths n lyr H) as (lyr' & -> & _ & Hv).
    rewrite lookup_insert_eq. eexists _, _. split; [reflexivity|].
    split; [exact Hv|]. apply geo_variant_set_selection.
  - intros disk root folder paths.
    destruct (addShd_layer disk root folder paths) as (lyr & v0 & -> & Hv & _).
    rewrite lookup_insert_eq. eexists _, _. split; [reflexivity|].
    split; [exact Hv|]. apply shd_variant_set_spec.
Qed.


End Disk.

Lemma variant_selection_returns_to_default_witness :
  exists lyr vs,
    LayerComposer._create_variant_layer (fun _ => true) ∅ "Top" "payload.usdc"
      ["lod1_wrap.usdc"; "lod2_wrap.usdc"] "variant.usdc"
    = inr ("variant.usdc", <["variant.usdc" := lyr]> ∅)
    /\ variantSets lyr !! (["Top"], "levels") = Some vs
    /\ selection vs = Some "LOD0"
    /\ length (variants vs) = 3.
Proof.
  destruct (proj1 (proj2 (variant_selection_returns_to_default
                            (fun p _ => p) (fun _ => true)))
              ∅ "Top" "payload.usdc" ["lod1_wrap.usdc"; "lod2_wrap.usdc"]
              "variant.usdc" eq_refl)
    as (lyr & vs & H1 & H2 & H3 & _ & H5).
  exists lyr, vs. auto.
Defined.


End AssemblyVariantFacts.

(** ** The reductions of the geometry LODs *)

Module LODExportFacts.
Import Str StrFacts LODExport.

Section Maya.

Variable Mesh : Type.

Arguments scene {_} _.
Arguments files {_} _.
Arguments reductions {_} _.

Section R26_02_03.

Variable polyReduce : Mesh -> Q -> option Mesh.
Variable polySoftEdge : Mesh -> option Mesh.
Variable polyCleanup : Mesh -> option Mesh.

Let reduce := _reduce_with_cleanup Mesh polyReduce polySoftEdge polyCleanup.
Let reduced (geo : list Mesh) (percent : Q) : list Mesh :=
  map (fun m => fst (reduce m percent)) geo.

Lemma temp_node_differs top_name : top_name <> top_name +:+ "_geoLOD".
Proof.
  intros H. apply (f_equal String.length) in H.
  rewrite length_app in H. simpl in H. lia.
Qed.

Lemma create_single_lod (st : maya Mesh) top_name src dir i percent geo0 :
  scene st !! src = Some geo0 ->
  src <> top_name +:+ "_geoLOD" ->
  exists st' lod_path,
    _create_single_lod_usd Mesh polyReduce polySoftEdge polyCleanup
      st top_name src dir "geoVariant" i percent = Some (st', lod_path)
    /\ scene st' !! src = Some geo0
    /\ scene st' !! (top_name +:+ "_geoLOD") = None
    /\ files st' !! lod_path = Some (reduced geo0 percent)
    /\ reductions st' = reductions st ++ logged Mesh geo0 percent.
Proof.
  intros Hsrc Hne. unfold _create_single_lod_usd, duplicate_as.
  rewrite Hsrc. cbn [variant_suffix String.eqb Ascii.eqb Bool.eqb].
  change (top_name +:+ "_" +:+ "geoLOD") with (top_name +:+ "_geoLOD").
  set (tmp := top_name +:+ "_geoLOD") in *.
  unfold reduce_node, arnoldExportAss, delete_node. cbn [scene files reductions].
  rewrite lookup_insert_eq. cbn [scene files reductions].
  rewrite lookup_insert_eq. cbn [scene files reductions].
  eexists _, _. split; [reflexivity|]. cbn [scene files reductions].
  split; [|split; [|split]].
  - rewrite lookup_delete_ne by congruence.
    rewrite !lookup_insert_ne by congruence. exact Hsrc.
  - apply lookup_delete_eq.
  - apply lookup_insert_eq.
  - reflexivity.
Qed.

Lemma geo_lods_reduce_the_original (st : maya Mesh)
  top_name top_node dir (base_keep_percent : Q) (n : nat) geo0 :
  scene st !! top_node = Some geo0 ->
  top_node <> top_name +:+ "_geoLOD" ->
  exists st',
    export_geo_lods Mesh polyReduce polySoftEdge polyCleanup st top_name top_node
      dir base_keep_percent n = Some st'
    /\ scene st' !! top_node = Some geo0
    /\ reductions st'
       = reductions st
         ++ flat_map (fun i => logged Mesh geo0 (LODPlanner.remove_percent base_keep_percent i))
                     (seq 1 n)
    /\ (forall m p, In (m, p) (reductions st') ->
          In (m, p) (reductions st) \/ In m geo0)
    /\ (forall i lod_path st1 st2,
          (1 <= i <= n)%nat ->
          export_geo_lods Mesh polyReduce polySoftEdge polyCleanup st top_name
            top_node dir base_keep_percent (i - 1) = Some st1 ->
          _create_single_lod_usd Mesh polyReduce polySoftEdge polyCleanup st1
            top_name top_node dir "geoVariant" i
            (LODPlanner.remove_percent base_keep_percent i) = Some (st2, lod_path) ->
          files st2 !! lod_path
          = Some (reduced geo0 (LODPlanner.remove_percent base_keep_percent i))).
Proof.
  intros Hsrc Hne.
  assert (Hloop : forall k,
    exists st',
      export_geo_lods Mesh polyReduce polySoftEdge polyCleanup st top_name top_node
        dir base_keep_percent k = Some st'
      /\ scene st' !! top_node = Some geo0
      /\ reductions st'
         = reductions st
           ++ flat_map (fun i => logged Mesh geo0
                                   (LODPlanner.remove_percent base_keep_percent i))
                       (seq 1 k)).
  { induction k as [|k (st' & E & Hs & Hr)].
    - exists st. simpl. rewrite app_nil_r. auto.
    - destruct (create_single_lod st' top_name top_node dir (S k)
                  (LODPlanner.remove_percent base_keep_percent (S k)) geo0 Hs Hne)
        as (st'' & p & E' & Hs' & _ & _ & Hr').
      exists st''. unfold export_geo_lods in *.
      rewrite seq_S, fold_left_app, E. cbn [fold_left Nat.add].
      unfold export_geo_lod. rewrite E'.
      split; [reflexivity|]. split; [assumption|].
      rewrite Hr', Hr, flat_map_app, <- app_assoc. simpl.
      now rewrite app_nil_r. }
  destruct (Hloop n) as (st' & E & Hs & Hr).
  exists st'. split; [assumption|]. split; [assumption|]. split; [assumption|].
  split.
  - intros m p. rewrite Hr. intros [H|H]%in_app_or; [now left|right].
    apply in_flat_map in H. destruct H as (i & _ & H).
    unfold logged in H. apply in_map_iff in H.
    destruct H as (m' & [= <- _] & H). assumption.
  - intros i lod_path st1 st2 Hi E1 E2.
    destruct (Hloop (i - 1)) as (st1' & E1' & Hs1 & _).
    rewrite E1 in E1'. injection E1' as <-.
    destruct (create_single_lod st1 top_name top_node dir i
                (LODPlanner.remove_percent base_keep_percent i) geo0 Hs1 Hne)
      as (st2' & p & E2' & _ & _ & Hf & _).
    rewrite E2 in E2'. injection E2' as <- <-. exact Hf.
Qed.

End R26_02_03.

Section R25_12_7.

Variable polyReduce_like_mel : Mesh -> Q -> option Mesh.
Variable polyReduce_short : Mesh -> Q -> option Mesh.
Variable cleanup_light : Mesh -> Mesh.

Lemma create_lod_usd_chains (st : maya Mesh) top_name src dir (n : nat)
  (per_step_percent : Q) geo0 :
  scene st !! src = Some geo0 ->
  exists st' lod_paths,
    _create_lod_usd Mesh polyReduce_like_mel polyReduce_short cleanup_light
      st top_name src dir n per_step_percent = Some (st', lod_paths)
    /\ length lod_paths = n
    /\ reductions st'
       = reductions st
         ++ flat_map (fun k => logged Mesh (chained Mesh polyReduce_like_mel polyReduce_short cleanup_light geo0 per_step_percent k) per_step_percent)
                     (seq 0 n).
Proof.
  intros Hsrc. unfold _create_lod_usd, duplicate_as. rewrite Hsrc.
  set (dup := top_name +:+ "_LOD").
  set (st0 := {| scene := <[dup := geo0]> (scene st); files := files st;
                 reductions := reductions st |}).
  assert (Hloop : forall k,
    exists stk paths,
      fold_left (lod_iteration Mesh polyReduce_like_mel polyReduce_short
                   cleanup_light dir dup per_step_percent) (seq 0 k) (st0, [])
      = (stk, paths)
      /\ length paths = k
      /\ scene stk !! dup = Some (chained Mesh polyReduce_like_mel polyReduce_short cleanup_light geo0 per_step_percent k)
      /\ reductions stk
         = reductions st
           ++ flat_map (fun j => logged Mesh (chained Mesh polyReduce_like_mel polyReduce_short cleanup_light geo0 per_step_percent j)
                                   per_step_percent) (seq 0 k)).
  { induction k as [|k (stk & paths & E & Hl & Hs & Hr)].
    - exists st0, []. simpl. rewrite app_nil_r.
      repeat split. apply lookup_insert_eq.
    - rewrite seq_S, fold_left_app, E. cbn [fold_left Nat.add].
      unfold lod_iteration at 1. cbn [fst snd].
      unfold reduce_node. rewrite Hs.
      unfold arnoldExportAss. cbn [scene files reductions].
      rewrite lookup_insert_eq. cbn [scene files reductions].
      eexists _, _. split; [reflexivity|]. cbn [scene files reductions].
      split; [rewrite List.length_app; simpl; lia|].
      split; [rewrite lookup_insert_eq; reflexivity|].
      rewrite Hr, flat_map_app, <- app_assoc. simpl. now rewrite app_nil_r. }
  destruct (Hloop n) as (stn & paths & E & Hl & _ & Hr).
  rewrite E. eexists _, _. split; [reflexivity|].
  split; [assumption|]. exact Hr.
Qed.

End R25_12_7.

End Maya.

(** *** A run of each release *)

(** C7: in release 26.02.03 every level of the geometry loop reduces the
    meshes of the original node, by the percentage planned for the level;
    in release 25.12.7 [_create_lod_usd] duplicates the source once and
    every level reduces what the level before left of that duplicate, by
    the same per-step percentage. *)
Theorem lod_reduction_inputs (Mesh : Type)
  (polyReduce : Mesh -> Q -> option Mesh)
  (polySoftEdge polyCleanup : Mesh -> option Mesh)
  (polyReduce_like_mel polyReduce_short : Mesh -> Q -> option Mesh)
  (cleanup_light : Mesh -> Mesh)
  (st : maya Mesh) (top_name top_node dir : string)
  (base_keep_percent per_step_percent : Q) (n : nat) (geo0 : list Mesh) :
  scene Mesh st !! top_node = Some geo0 ->
  top_node <> top_name +:+ "_geoLOD" ->
  (exists st',
      export_geo_lods Mesh polyReduce polySoftEdge polyCleanup st top_name
        top_node dir base_keep_percent n = Some st'
      /\ reductions Mesh st'
         = reductions Mesh st
           ++ flat_map (fun i => logged Mesh geo0
                                   (LODPlanner.remove_percent base_keep_percent i))
                       (seq 1 n))
  /\ (exists st' lod_paths,
        _create_lod_usd Mesh polyReduce_like_mel polyReduce_short cleanup_light
          st top_name top_node dir n per_step_percent = Some (st', lod_paths)
        /\ length lod_paths = n
        /\ reductions Mesh st'
           = reductions Mesh st
             ++ flat_map (fun k => logged Mesh
                                     (chained Mesh polyReduce_like_mel
                                        polyReduce_short cleanup_light
                                        geo0 per_step_percent k)
                                     per_step_percent)
                         (seq 0 n)).
Proof.
  intros Hsrc Hne. split.
  - destruct (geo_lods_reduce_the_original Mesh polyReduce polySoftEdge
                polyCleanup st top_name top_node dir base_keep_percent n geo0
                Hsrc Hne) as (st' & E & _ & Hr & _).
    now exists st'.
  - now apply create_lod_usd_chains.
Qed.

Lemma lod_reduction_inputs_witness :
  (exists st',
      export_geo_lods N halve (fun m => Some m) (fun m => Some m) example_scene
        "Top" "Top" "/lod" 50 2 = Some st'
      /\ reductions N st'
         = reductions N example_scene
           ++ flat_map (fun i => logged N [1000%N] (LODPlanner.remove_percent 50 i))
                       (seq 1 2))
  /\ (exists st' lod_paths,
        _create_lod_usd N halve halve (fun m => m) example_scene
          "Top" "Top" "/lod" 2 50 = Some (st', lod_paths)
        /\ length lod_paths = 2%nat
        /\ reductions N st'
           = reductions N example_scene
             ++ flat_map (fun k => logged N
                                     (chained N halve halve (fun m => m)
                                        [1000%N] 50 k) 50)
                         (seq 0 2)).
Proof.
  apply (lod_reduction_inputs N halve (fun m => Some m) (fun m => Some m)
           halve halve (fun m => m) example_scene "Top" "Top" "/lod" 50 50 2
           [1000%N]).
  - reflexivity.
  - discriminate.
Defined.

(** In release 25.12.7 the second level reduces the 500 faces the first
    level left, not the 1000 of the source. *)
Lemma create_lod_usd_reduces_the_previous_level :
  option_map (fun r => reductions N (fst r))
    (_create_lod_usd N halve halve (fun m => m) example_scene
       "Top" "Top" "/lod" 2 50)
  = Some [(1000%N, 50%Q); (500%N, 50%Q)].
Proof. vm_compute. reflexivity. Qed.

End LODExportFacts.

(** ** The traversals of the material rebinder *)

Module MaterialRebinderFacts.
Import Str StrFacts Usd MaterialRebinder.

(** *** Prims up to their relationships *)

Lemma set_rels_id q : set_rels q (rels q) = q.
Proof. now destruct q. Qed.

Lemma prim_eq q q' :
  ptype q = ptype q' -> can_apply q = can_apply q' -> has_spec q = has_spec q' ->
  network q = network q' -> rels q = rels q' -> q = q'.
Proof. destruct q, q'; simpl; congruence. Qed.

(** *** The rewrite of a direct binding *)

Lemma rebound_ptype remap q : ptype (rebound remap q) = ptype q.
Proof.
  unfold rebound, rebind_direct.
  destruct (rels q !! binding_rel) as [[|old rest]|]; reflexivity.
Qed.

Lemma rebound_can_apply remap q : can_apply (rebound remap q) = can_apply q.
Proof.
  unfold rebound, rebind_direct.
  destruct (rels q !! binding_rel) as [[|old rest]|]; reflexivity.
Qed.

Lemma rebound_has_spec remap q : has_spec (rebound remap q) = has_spec q.
Proof.
  unfold rebound, rebind_direct.
  destruct (rels q !! binding_rel) as [[|old rest]|]; reflexivity.
Qed.

Lemma rebound_rels_other remap q name :
  name <> binding_rel -> rels (rebound remap q) !! name = rels q !! name.
Proof.
  intros Hne. unfold rebound, rebind_direct.
  destruct (rels q !! binding_rel) as [[|old rest]|]; try reflexivity.
  simpl. now rewrite lookup_insert_ne.
Qed.

Lemma rebound_rels_direct remap q :
  rels (rebound remap q) !! binding_rel
  = match rels q !! binding_rel with
    | Some (old :: _) => Some [remap_get remap old]
    | o => o
    end.
Proof.
  unfold rebound, rebind_direct.
  destruct (rels q !! binding_rel) as [[|old rest]|] eqn:E; simpl;
    rewrite ?lookup_insert_eq; auto.
Qed.

Lemma rebound_settled remap q : direct_settled remap q -> rebound remap q = q.
Proof.
  unfold direct_settled, rebound, rebind_direct.
  destruct (rels q !! binding_rel) as [[|old rest]|] eqn:E; try reflexivity.
  intros [-> Hold]. simpl. unfold remap_get. rewrite Hold. simpl.
  rewrite insert_id by assumption. apply set_rels_id.
Qed.

Lemma remap_get_settled (remap remap' : gmap Path Path) old :
  remap_closed remap ->
  (forall k, remap !! k = None -> remap' !! k = None) ->
  (forall k d, remap !! k = Some d -> remap' !! d = None) ->
  remap' !! remap_get remap old = None.
Proof.
  intros Hc Hnone Hval. unfold remap_get.
  destruct (remap !! old) as [d|] eqn:E; simpl; eauto.
Qed.

Lemma rebound_makes_settled (remap remap' : gmap Path Path) q :
  remap_closed remap ->
  (forall k, remap !! k = None -> remap' !! k = None) ->
  (forall k d, remap !! k = Some d -> remap' !! d = None) ->
  direct_settled remap' (rebound remap q).
Proof.
  intros Hc Hnone Hval. unfold direct_settled.
  rewrite rebound_rels_direct.
  destruct (rels q !! binding_rel) as [[|old rest]|]; try exact I.
  split; [reflexivity|]. now apply remap_get_settled.
Qed.

Lemma rebound_idempotent remap q :
  remap_closed remap -> rebound remap (rebound remap q) = rebound remap q.
Proof.
  intros Hc. apply rebound_settled.
  apply rebound_makes_settled; auto.
Qed.

(** *** Rewriting a set of prims *)

Section Alter.

Context {A : Type} (f : A -> A).
Hypothesis f_idempotent : forall a, f (f a) = f a.

Lemma lookup_alter_all xs : forall (m : gmap Path A) x,
  alter_all f xs m !! x
  = (if bool_decide (x ∈ xs) then f else id) <$> m !! x.
Proof.
  unfold alter_all. induction xs as [|y xs IH]; intros m x; simpl.
  - now destruct (m !! x).
  - rewrite IH, lookup_alter.
    destruct (decide (y = x)) as [->|Hne].
    + rewrite (bool_decide_eq_true_2 (x ∈ x :: xs)) by (apply elem_of_cons; now left).
      destruct (m !! x) as [a|]; simpl; [|reflexivity].
      destruct (bool_decide (x ∈ xs)); simpl; now rewrite ?f_idempotent.
    + rewrite (bool_decide_ext (x ∈ xs) (x ∈ y :: xs)).
      * now destruct (m !! x).
      * rewrite elem_of_cons. intuition congruence.
Qed.

End Alter.

Lemma alter_lookup_Some {A} (f : A -> A) (m : gmap Path A) x a :
  m !! x = Some a -> alter f x m = <[x := f a]> m.
Proof.
  intros H. apply map_eq. intros y. rewrite lookup_alter, lookup_insert.
  destruct (decide (x = y)) as [->|]; [now rewrite H|reflexivity].
Qed.

Lemma alter_lookup_None {A} (f : A -> A) (m : gmap Path A) x :
  m !! x = None -> alter f x m = m.
Proof.
  intros H. apply map_eq. intros y. rewrite lookup_alter.
  destruct (decide (x = y)) as [->|]; [now rewrite H|reflexivity].
Qed.

Lemma alter_fixed {A} (f : A -> A) (m : gmap Path A) x :
  (forall a, m !! x = Some a -> f a = a) -> alter f x m = m.
Proof.
  intros H. apply map_eq. intros y. rewrite lookup_alter.
  destruct (decide (x = y)) as [->|]; [|reflexivity].
  destruct (m !! y) as [a|] eqn:E; simpl; [|reflexivity].
  now rewrite (H a).
Qed.

(** *** The second traversal *)

Lemma subset_step_remap st x : mat_remap (subset_step st x) = mat_remap st.
Proof.
  unfold subset_step. destruct (stage st !! x) as [s|]; [|reflexivity].
  now destruct (rebind_direct (mat_remap st) s).
Qed.

Lemma subset_step_stage st x :
  stage (subset_step st x) = alter (rebound (mat_remap st)) x (stage st).
Proof.
  unfold subset_step. destruct (stage st !! x) as [s|] eqn:E.
  - rewrite (alter_lookup_Some _ _ _ _ E). unfold rebound.
    destruct (rebind_direct (mat_remap st) s); simpl; [reflexivity|].
    now rewrite insert_id.
  - now rewrite alter_lookup_None.
Qed.

Lemma subset_loop xs : forall st,
  mat_remap (fold_left subset_step xs st) = mat_remap st
  /\ stage (fold_left subset_step xs st)
     = alter_all (rebound (mat_remap st)) xs (stage st).
Proof.
  induction xs as [|x xs IH]; intros st; simpl; [auto|].
  destruct (IH (subset_step st x)) as [Hr Hs].
  rewrite Hr, Hs, subset_step_remap, subset_step_stage. auto.
Qed.

Lemma direct_step_remap st p prim :
  mat_remap (direct_step st p prim) = mat_remap st.
Proof.
  unfold direct_step. destruct (can_apply prim); [|reflexivity].
  now destruct (rebind_direct (mat_remap st) prim).
Qed.

Lemma direct_step_stage st p prim :
  stage st !! p = Some prim ->
  stage (direct_step st p prim)
  = if can_apply prim then alter (rebound (mat_remap st)) p (stage st)
    else stage st.
Proof.
  intros E. unfold direct_step. destruct (can_apply prim); [|reflexivity].
  rewrite (alter_lookup_Some _ _ _ _ E). unfold rebound.
  destruct (rebind_direct (mat_remap st) prim); simpl; [reflexivity|].
  now rewrite insert_id.
Qed.

Lemma bind_step_remap st p : mat_remap (bind_step st p) = mat_remap st.
Proof.
  unfold bind_step. destruct (stage st !! p) as [prim|]; [|reflexivity].
  destruct (is_mesh prim).
  - rewrite (proj1 (subset_loop _ _)). apply direct_step_remap.
  - apply direct_step_remap.
Qed.

Lemma bind_loop_remap l : forall st,
  mat_remap (fold_left bind_step l st) = mat_remap st.
Proof.
  induction l as [|p l IH]; intros st; simpl; [reflexivity|].
  now rewrite IH, bind_step_remap.
Qed.

Lemma elem_of_subsets (stg : gmap Path Prim) mesh x :
  x ∈ GetMaterialBindSubsets stg mesh
  <-> exists s, stg !! x = Some s /\ is_subset s = true
                /\ GetParentPath x = mesh /\ x <> [].
Proof.
  unfold GetMaterialBindSubsets. rewrite list_elem_of_In, in_map_iff. split.
  - intros ([y s] & <- & [Hin Hf]%filter_In). simpl in *.
    apply list_elem_of_In, elem_of_map_to_list in Hin.
    apply andb_true_iff in Hf as [[Hs Hp]%andb_true_iff Hn].
    apply bool_decide_eq_true in Hp. apply negb_true_iff, bool_decide_eq_false in Hn.
    exists s. auto.
  - intros (s & E & Hs & Hp & Hn). exists (x, s). split; [reflexivity|].
    apply filter_In. split.
    + now apply list_elem_of_In, elem_of_map_to_list.
    + simpl. rewrite Hs. simpl.
      rewrite (bool_decide_eq_true_2 _ Hp), (bool_decide_eq_false_2 _ Hn).
      reflexivity.
Qed.

Lemma same_shape_refl s : same_shape s s.
Proof. intros x. destruct (s !! x); auto. Qed.

Lemma same_shape_trans s1 s2 s3 :
  same_shape s1 s2 -> same_shape s2 s3 -> same_shape s1 s3.
Proof.
  intros H1 H2 x. specialize (H1 x). specialize (H2 x).
  destruct (s1 !! x), (s2 !! x), (s3 !! x); try tauto.
  destruct H1 as (?&?&?&?), H2 as (?&?&?&?). repeat split; congruence.
Qed.

Lemma same_shape_sym s1 s2 : same_shape s1 s2 -> same_shape s2 s1.
Proof.
  intros H x. specialize (H x). destruct (s1 !! x), (s2 !! x); try tauto.
  destruct H as (?&?&?&?). auto.
Qed.

Lemma same_shape_lookup (s1 s2 : gmap Path Prim) (g : Path -> Prim -> Prim) :
  (forall x q, ptype (g x q) = ptype q /\ can_apply (g x q) = can_apply q
               /\ has_spec (g x q) = has_spec q /\ network (g x q) = network q) ->
  (forall x, s2 !! x = g x <$> s1 !! x) -> same_shape s1 s2.
Proof.
  intros Hg H x. rewrite H. destruct (s1 !! x) as [q|]; simpl; [|exact I].
  destruct (Hg x q) as (?&?&?&?). auto.
Qed.

Lemma visits_same_shape s1 s2 p x :
  same_shape s1 s2 -> visits s1 p x = visits s2 p x.
Proof.
  intros H. unfold visits. pose proof (H p) as Hp. pose proof (H x) as Hx.
  destruct (s1 !! p) as [q1|], (s2 !! p) as [q2|]; try tauto.
  destruct Hp as (Ht & Hc & _). unfold is_mesh. rewrite Ht, Hc.
  destruct (s1 !! x) as [y1|], (s2 !! x) as [y2|]; try tauto.
  destruct Hx as (Ht' & _). unfold is_subset. now rewrite Ht'.
Qed.

Lemma visited_same_shape s1 s2 l x :
  same_shape s1 s2 -> visited s1 l x = visited s2 l x.
Proof.
  intros H. unfold visited. induction l as [|p l IH]; simpl; [reflexivity|].
  now rewrite IH, (visits_same_shape s1 s2).
Qed.

Lemma rebound_shape remap (x : bool) q :
  ptype ((if x then rebound remap else id) q) = ptype q
  /\ can_apply ((if x then rebound remap else id) q) = can_apply q
  /\ has_spec ((if x then rebound remap else id) q) = has_spec q
  /\ network ((if x then rebound remap else id) q) = network q.
Proof.
  destruct x; simpl; [|auto].
  unfold rebound, rebind_direct.
  destruct (rels q !! binding_rel) as [[|old rest]|]; simpl; auto.
Qed.

Lemma bind_step_lookup st p :
  remap_closed (mat_remap st) ->
  forall x,
    stage (bind_step st p) !! x
    = (if visits (stage st) p x then rebound (mat_remap st) else id)
        <$> stage st !! x.
Proof.
  intros Hc x. unfold bind_step, visits.
  destruct (stage st !! p) as [prim|] eqn:Ep;
    [|now destruct (stage st !! x)].
  pose proof (direct_step_stage st p prim Ep) as Hd.
  pose proof (direct_step_remap st p prim) as Hr.
  set (st1 := direct_step st p prim) in *.
  assert (H1 : forall y, stage st1 !! y
             = (if bool_decide (y = p) && can_apply prim
                then rebound (mat_remap st) else id) <$> stage st !! y).
  { intros y. rewrite Hd. destruct (can_apply prim).
    - rewrite lookup_alter. destruct (decide (p = y)) as [->|Hne].
      + now rewrite bool_decide_eq_true_2.
      + rewrite bool_decide_eq_false_2 by congruence.
        now destruct (stage st !! y).
    - rewrite andb_false_r. now destruct (stage st !! y). }
  destruct (is_mesh prim); simpl.
  - rewrite (proj2 (subset_loop _ _)), Hr.
    rewrite lookup_alter_all by (intros a; now apply rebound_idempotent).
    rewrite H1.
    assert (bool_decide (x ∈ GetMaterialBindSubsets (stage st1) p)
            = match stage st !! x with
              | Some s => is_subset s && bool_decide (GetParentPath x = p)
                          && negb (bool_decide (x = []))
              | None => false
              end) as ->.
    { destruct (stage st !! x) as [s|] eqn:Ex.
      - destruct (is_subset s && bool_decide (GetParentPath x = p)
                  && negb (bool_decide (x = []))) eqn:Et.
        + apply bool_decide_eq_true, elem_of_subsets.
          apply andb_true_iff in Et as [[Hs Hp]%andb_true_iff Hn].
          apply bool_decide_eq_true in Hp.
          apply negb_true_iff, bool_decide_eq_false in Hn.
          rewrite H1, Ex. simpl. eexists. split; [reflexivity|].
          split; [|auto].
          unfold is_subset.
          rewrite (proj1 (rebound_shape (mat_remap st) _ s)). exact Hs.
        + apply bool_decide_eq_false. intros (s' & E' & Hs & Hp & Hn)%elem_of_subsets.
          rewrite H1, Ex in E'. simpl in E'. injection E' as <-.
          unfold is_subset in Hs.
          rewrite (proj1 (rebound_shape (mat_remap st) _ s)) in Hs.
          fold (is_subset s) in Hs.
          rewrite Hs, (bool_decide_eq_true_2 _ Hp), (bool_decide_eq_false_2 _ Hn) in Et.
          discriminate.
      - apply bool_decide_eq_false. intros (s' & E' & _)%elem_of_subsets.
        rewrite H1, Ex in E'. discriminate. }
    destruct (stage st !! x) as [s|]; simpl; [|reflexivity].
    destruct (bool_decide (x = p) && can_apply prim),
      (is_subset s && bool_decide (GetParentPath x = p) && negb (bool_decide (x = [])));
      simpl; now rewrite ?rebound_idempotent.
  - rewrite H1, orb_false_r. reflexivity.
Qed.

Lemma bind_step_shape st p :
  remap_closed (mat_remap st) -> same_shape (stage st) (stage (bind_step st p)).
Proof.
  intros Hc.
  apply (same_shape_lookup _ _
           (fun x => if visits (stage st) p x then rebound (mat_remap st) else id)).
  - intros x q. apply rebound_shape.
  - now apply bind_step_lookup.
Qed.

Lemma bind_loop_lookup l : forall st,
  remap_closed (mat_remap st) ->
  forall x,
    stage (fold_left bind_step l st) !! x
    = (if visited (stage st) l x then rebound (mat_remap st) else id)
        <$> stage st !! x.
Proof.
  induction l as [|p l IH]; intros st Hc x; simpl.
  - now destruct (stage st !! x).
  - rewrite IH by now rewrite bind_step_remap.
    rewrite bind_step_remap, bind_step_lookup by assumption.
    rewrite <- (visited_same_shape _ _ l x (bind_step_shape st p Hc)).
    destruct (stage st !! x) as [q|]; simpl; [|reflexivity].
    destruct (visits (stage st) p x), (visited (stage st) l x); simpl;
      now rewrite ?rebound_idempotent.
Qed.

Lemma visited_all (stg : gmap Path Prim) x q :
  stg !! x = Some q -> visited stg (TraverseAll stg) x = bind_target stg x.
Proof.
  intros Ex. unfold bind_target. rewrite Ex.
  assert (Hkeys : forall p prim, stg !! p = Some prim -> In p (TraverseAll stg)).
  { intros p prim E. unfold TraverseAll. apply in_map_iff. exists (p, prim).
    split; [reflexivity|]. now apply list_elem_of_In, elem_of_map_to_list. }
  destruct (can_apply q || _) eqn:Et.
  - apply existsb_exists. apply orb_true_iff in Et as [Hc|Hs].
    + exists x. split; [eauto|]. unfold visits. rewrite Ex, Hc.
      now rewrite bool_decide_eq_true_2.
    + apply andb_true_iff in Hs as [[Hs Hn]%andb_true_iff Hm].
      destruct (stg !! GetParentPath x) as [m|] eqn:Em; [|discriminate].
      exists (GetParentPath x). split; [eauto|]. unfold visits.
      rewrite Em, Ex, Hm, Hs, Hn.
      rewrite (bool_decide_eq_true_2 (GetParentPath x = GetParentPath x))
        by reflexivity.
      simpl. apply orb_true_r.
  - apply not_true_iff_false. intros (p & _ & Hv)%existsb_exists.
    apply not_true_iff_false in Et. apply Et. unfold visits in Hv.
    destruct (stg !! p) as [prim|] eqn:Ep; [|discriminate].
    apply orb_true_iff in Hv as [[Hx Hc]%andb_true_iff|[Hm Hs]%andb_true_iff].
    + apply bool_decide_eq_true in Hx. subst p.
      rewrite Ex in Ep. injection Ep as <-. now rewrite Hc.
    + rewrite Ex in Hs.
      apply andb_true_iff in Hs as [[Hs Hp]%andb_true_iff Hn].
      apply bool_decide_eq_true in Hp. subst p. rewrite Ep, Hm, Hs, Hn.
      apply orb_true_r.
Qed.

(** The stage after the second traversal: the direct binding of every
    binding target has been rewritten, nothing else has changed. *)
Lemma bind_traversal st :
  remap_closed (mat_remap st) ->
  forall x,
    stage (fold_left bind_step (TraverseAll (stage st)) st) !! x
    = (if bind_target (stage st) x then rebound (mat_remap st) else id)
        <$> stage st !! x.
Proof.
  intros Hc x. rewrite bind_loop_lookup by assumption.
  destruct (stage st !! x) as [q|] eqn:Ex; [|reflexivity].
  now rewrite (visited_all _ _ _ Ex).
Qed.

(** *** The third traversal *)

Lemma is_material_at_same_shape s1 s2 t :
  same_shape s1 s2 -> is_material_at s1 t = is_material_at s2 t.
Proof.
  intros H. unfold is_material_at. specialize (H t).
  destruct (s1 !! t), (s2 !! t); try tauto.
  destruct H as (Ht & _). unfold is_material. now rewrite Ht.
Qed.

Lemma classify_ext s1 s2 targets :
  (forall t, In t targets -> is_material_at s1 t = is_material_at s2 t) ->
  classify s1 targets = classify s2 targets.
Proof.
  unfold classify. generalize (@None Path, @None Path).
  induction targets as [|t ts IH]; intros acc H; simpl; [reflexivity|].
  rewrite (H t) by now left. apply IH. intros t' Ht'. apply H. now right.
Qed.

Lemma rebind_collection_ext remap s1 s2 targets :
  (forall t, In t targets -> is_material_at s1 t = is_material_at s2 t) ->
  rebind_collection remap s1 targets = rebind_collection remap s2 targets.
Proof.
  intros H. unfold rebind_collection. now rewrite (classify_ext s1 s2).
Qed.

Lemma new_targets_same_shape remap s1 s2 name targets :
  same_shape s1 s2 ->
  new_targets remap s1 name targets = new_targets remap s2 name targets.
Proof.
  intros H. unfold new_targets.
  rewrite (rebind_collection_ext remap s1 s2); [reflexivity|].
  intros t _. now apply is_material_at_same_shape.
Qed.

Lemma rebound_collections_rels remap stg q name :
  rels (rebound_collections remap stg q) !! name
  = new_targets remap stg name <$> rels q !! name.
Proof.
  unfold rebound_collections. simpl. rewrite map_lookup_imap.
  destruct (rels q !! name); reflexivity.
Qed.

Lemma rebound_collections_same_shape remap s1 s2 q :
  same_shape s1 s2 ->
  rebound_collections remap s1 q = rebound_collections remap s2 q.
Proof.
  intros H. apply prim_eq; try reflexivity.
  apply map_eq. intros name. rewrite !rebound_collections_rels.
  destruct (rels q !! name); simpl; [|reflexivity].
  now rewrite (new_targets_same_shape remap s1 s2).
Qed.

Lemma coll_rel_step_remap p st rel :
  mat_remap (coll_rel_step p st rel) = mat_remap st.
Proof.
  unfold coll_rel_step. destruct (startswith collection_prefix (fst rel));
    [|reflexivity].
  destruct (stage st !! p); [|reflexivity].
  now destruct (rebind_collection _ _ _).
Qed.

Lemma coll_rel_step_stage p st name targets prim :
  stage st !! p = Some prim -> rels prim !! name = Some targets ->
  stage (coll_rel_step p st (name, targets))
  = <[p := set_rels prim
             (<[name := new_targets (mat_remap st) (stage st) name targets]>
                (rels prim))]> (stage st).
Proof.
  intros Ep En. unfold coll_rel_step, new_targets. cbn [fst snd]. rewrite Ep.
  destruct (startswith collection_prefix name).
  - destruct (rebind_collection _ _ _); cbn [default stage]; [reflexivity|].
    now rewrite (insert_id (rels prim)), set_rels_id, insert_id.
  - now rewrite (insert_id (rels prim)), set_rels_id, insert_id.
Qed.

Lemma insert_same_shape (stg : gmap Path Prim) p prim prim' :
  stg !! p = Some prim ->
  ptype prim' = ptype prim -> can_apply prim' = can_apply prim ->
  has_spec prim' = has_spec prim -> network prim' = network prim ->
  same_shape stg (<[p := prim']> stg).
Proof.
  intros E H1 H2 H3 H4 x. destruct (decide (p = x)) as [<-|Hne].
  - rewrite lookup_insert_eq, E. auto.
  - rewrite lookup_insert_ne by assumption. destruct (stg !! x); auto.
Qed.

Lemma coll_rel_loop p rels_list : forall st prim,
  stage st !! p = Some prim ->
  NoDup rels_list.*1 ->
  (forall n t, (n, t) ∈ rels_list -> rels prim !! n = Some t) ->
  mat_remap (fold_left (coll_rel_step p) rels_list st) = mat_remap st
  /\ exists prim',
       stage (fold_left (coll_rel_step p) rels_list st) = <[p := prim']> (stage st)
       /\ ptype prim' = ptype prim /\ can_apply prim' = can_apply prim
       /\ has_spec prim' = has_spec prim /\ network prim' = network prim
       /\ forall n,
            rels prim' !! n
            = if bool_decide (n ∈ rels_list.*1)
              then new_targets (mat_remap st) (stage st) n <$> rels prim !! n
              else rels prim !! n.
Proof.
  induction rels_list as [|[n0 t0] L IH]; intros st prim Ep Hnd Hin.
  - simpl. split; [reflexivity|]. exists prim.
    rewrite insert_id by assumption. repeat split; auto.
  - cbn [fold_left]. cbn [fmap list_fmap fst] in Hnd.
    apply NoDup_cons in Hnd as [Hn0 Hnd].
    assert (rels prim !! n0 = Some t0) as E0
      by (apply Hin, elem_of_cons; now left).
    pose proof (coll_rel_step_stage p st n0 t0 prim Ep E0) as Hs.
    pose proof (coll_rel_step_remap p st (n0, t0)) as Hr.
    set (st1 := coll_rel_step p st (n0, t0)) in *.
    set (prim1 := set_rels prim _) in Hs.
    assert (same_shape (stage st) (stage st1)) as Hshape.
    { rewrite Hs. now apply (insert_same_shape _ _ prim). }
    destruct (IH st1 prim1) as (Hr' & prim' & Hs' & H1 & H2 & H3 & H4 & Hrels).
    { rewrite Hs. apply lookup_insert_eq. }
    { exact Hnd. }
    { intros n t Hnt. unfold prim1. simpl.
      rewrite lookup_insert_ne.
      - apply Hin, elem_of_cons. now right.
      - intros <-. apply Hn0. apply list_elem_of_fmap. now exists (n0, t). }
    split; [now rewrite Hr', Hr|].
    exists prim'. split; [now rewrite Hs', Hs, insert_insert_eq|].
    repeat split; try assumption.
    intros n. rewrite Hrels, Hr. cbn [fmap list_fmap fst].
    destruct (decide (n = n0)) as [->|Hne].
    + rewrite (bool_decide_eq_false_2 _ Hn0).
      rewrite (bool_decide_eq_true_2 (n0 ∈ n0 :: L.*1))
        by (apply elem_of_cons; now left).
      unfold prim1. simpl. now rewrite lookup_insert_eq, E0.
    + rewrite (bool_decide_ext (n ∈ n0 :: L.*1) (n ∈ L.*1))
        by (rewrite elem_of_cons; intuition congruence).
      unfold prim1. simpl. rewrite lookup_insert_ne by congruence.
      destruct (rels prim !! n); simpl; [|now destruct (bool_decide _)].
      now rewrite (new_targets_same_shape _ _ _ _ _ Hshape).
Qed.

Lemma coll_step_remap st p : mat_remap (coll_step st p) = mat_remap st.
Proof.
  unfold coll_step. destruct (stage st !! p) as [prim|] eqn:E; [|reflexivity].
  apply (coll_rel_loop p (map_to_list (rels prim)) st prim E).
  - apply NoDup_fst_map_to_list.
  - intros n t. apply elem_of_map_to_list.
Qed.

Lemma coll_step_stage st p prim :
  stage st !! p = Some prim ->
  stage (coll_step st p)
  = <[p := rebound_collections (mat_remap st) (stage st) prim]> (stage st).
Proof.
  intros E. unfold coll_step. rewrite E.
  destruct (coll_rel_loop p (map_to_list (rels prim)) st prim E)
    as (_ & prim' & -> & H1 & H2 & H3 & H4 & Hrels).
  - apply NoDup_fst_map_to_list.
  - intros n t. apply elem_of_map_to_list.
  - f_equal. apply prim_eq; try assumption.
    apply map_eq. intros n. rewrite Hrels, rebound_collections_rels.
    destruct (rels prim !! n) as [t|] eqn:En.
    + rewrite bool_decide_eq_true_2; [reflexivity|].
      apply list_elem_of_fmap. exists (n, t). split; [reflexivity|].
      now apply elem_of_map_to_list.
    + now destruct (bool_decide _).
Qed.

Lemma coll_step_shape st p : same_shape (stage st) (stage (coll_step st p)).
Proof.
  destruct (stage st !! p) as [prim|] eqn:E.
  - rewrite (coll_step_stage st p prim E).
    now apply (insert_same_shape _ _ prim).
  - unfold coll_step. rewrite E. apply same_shape_refl.
Qed.

Lemma coll_loop_remap l : forall st,
  mat_remap (fold_left coll_step l st) = mat_remap st.
Proof.
  induction l as [|p l IH]; intros st; simpl; [reflexivity|].
  now rewrite IH, coll_step_remap.
Qed.

Lemma coll_loop_lookup l : forall st,
  NoDup l ->
  forall x,
    stage (fold_left coll_step l st) !! x
    = (if bool_decide (x ∈ l)
       then rebound_collections (mat_remap st) (stage st) else id)
        <$> stage st !! x.
Proof.
  induction l as [|p l IH]; intros st Hnd x; simpl.
  - now destruct (stage st !! x).
  - apply NoDup_cons in Hnd as [Hp Hnd].
    rewrite IH by assumption. rewrite coll_step_remap.
    pose proof (coll_step_shape st p) as Hshape.
    destruct (stage st !! p) as [prim|] eqn:Ep.
    + rewrite (coll_step_stage st p prim Ep) in *.
      destruct (decide (x = p)) as [->|Hne].
      * rewrite lookup_insert_eq, Ep, (bool_decide_eq_false_2 _ Hp).
        rewrite (bool_decide_eq_true_2 (p ∈ p :: l))
          by (apply elem_of_cons; now left).
        reflexivity.
      * rewrite lookup_insert_ne by congruence.
        rewrite (bool_decide_ext (x ∈ p :: l) (x ∈ l))
          by (rewrite elem_of_cons; intuition congruence).
        destruct (stage st !! x) as [q|]; simpl; [|reflexivity].
        destruct (bool_decide (x ∈ l)); [|reflexivity].
        simpl. f_equal. symmetry.
        now apply rebound_collections_same_shape.
    + assert (coll_step st p = st) as -> by (unfold coll_step; now rewrite Ep).
      destruct (decide (x = p)) as [->|Hne].
      * rewrite Ep. reflexivity.
      * rewrite (bool_decide_ext (x ∈ p :: l) (x ∈ l))
          by (rewrite elem_of_cons; intuition congruence).
        reflexivity.
Qed.

(** The stage after the third traversal: the collection bindings of every
    prim have been rewritten, nothing else has changed. *)
Lemma coll_traversal st x :
  stage (fold_left coll_step (TraverseAll (stage st)) st) !! x
  = rebound_collections (mat_remap st) (stage st) <$> stage st !! x.
Proof.
  rewrite coll_loop_lookup by apply NoDup_fst_map_to_list.
  destruct (stage st !! x) as [q|] eqn:E; [|reflexivity].
  rewrite bool_decide_eq_true_2; [reflexivity|].
  unfold TraverseAll. apply list_elem_of_fmap. exists (x, q).
  split; [reflexivity|]. now apply elem_of_map_to_list.
Qed.

(** *** The destination of a copy *)

Lemma candidate_inj mtl base i j :
  candidate mtl base i = candidate mtl base j -> i = j.
Proof.
  unfold candidate, AppendChild. intros H%app_inv_head. injection H as H.
  apply append_inj_l in H. injection H as H. now apply str_of_nat_inj.
Qed.

Lemma candidate_not_base mtl base i :
  candidate mtl base i <> AppendChild mtl base.
Proof.
  unfold candidate, AppendChild. intros H%app_inv_head. injection H as H.
  apply (f_equal String.length) in H. rewrite !length_app in H. simpl in H. lia.
Qed.

Lemma first_free_spec (layer : gmap Path PrimSpec) mtl base fuel : forall i,
  layer !! first_free fuel layer mtl base i = None
  \/ (forall k, (i <= k < i + fuel)%nat -> is_Some (layer !! candidate mtl base k)).
Proof.
  induction fuel as [|fuel IH]; intros i; simpl.
  - right. intros k Hk. lia.
  - destruct (layer !! candidate mtl base i) as [s|] eqn:E; [|now left].
    destruct (IH (S i)) as [H|H]; [now left|right].
    intros k Hk. destruct (decide (k = i)) as [->|Hne]; [now rewrite E|].
    apply H. lia.
Qed.

Lemma copy_destination_fresh (layer : gmap Path PrimSpec) mtl base :
  layer !! copy_destination layer mtl base = None.
Proof.
  unfold copy_destination.
  destruct (layer !! AppendChild mtl base) as [s|] eqn:E; [|assumption].
  destruct (first_free_spec layer mtl base (size layer) 1) as [H|H]; [assumption|].
  exfalso.
  set (taken := AppendChild mtl base :: (candidate mtl base <$> seq 1 (size layer))).
  assert (NoDup taken) as Hnd.
  { apply NoDup_cons. split.
    - intros (k & Hk & _)%list_elem_of_fmap. symmetry in Hk.
      now apply candidate_not_base in Hk.
    - apply NoDup_fmap_2; [|apply NoDup_seq].
      intros i j. apply candidate_inj. }
  assert (list_to_set taken ⊆ dom layer) as Hsub.
  { intros x Hx%elem_of_list_to_set. apply elem_of_dom.
    apply elem_of_cons in Hx as [->|(k & -> & Hk)%list_elem_of_fmap].
    - now rewrite E.
    - apply H. apply elem_of_seq in Hk. lia. }
  apply subseteq_size in Hsub.
  rewrite size_list_to_set, size_dom in Hsub by assumption.
  unfold taken in Hsub. simpl in Hsub.
  rewrite length_fmap, length_seq in Hsub. lia.
Qed.

Lemma first_free_child (top : string) base fuel layer i :
  mtl_child top (first_free fuel layer [top; "mtl"] base i).
Proof.
  revert i. induction fuel as [|fuel IH]; intros i; simpl.
  - eexists. reflexivity.
  - destruct (layer !! _); [apply IH|eexists; reflexivity].
Qed.

Lemma copy_destination_child (top : string) layer base :
  mtl_child top (copy_destination layer [top; "mtl"] base).
Proof.
  unfold copy_destination. destruct (layer !! _).
  - apply first_free_child.
  - eexists. reflexivity.
Qed.

Lemma mtl_child_prefix (top : string) x : mtl_child top x -> HasPrefix x [top] = true.
Proof. intros [name ->]. simpl. now rewrite String.eqb_refl. Qed.

(** *** The copy loop *)

Lemma copyable_ext (top : string) (s1 s2 : gmap Path Prim) k :
  (HasPrefix k [top] = false -> s1 !! k = s2 !! k) ->
  copyable top s1 k = copyable top s2 k.
Proof.
  intros H. unfold copyable. destruct (HasPrefix k [top]) eqn:E.
  - destruct (s1 !! k), (s2 !! k); simpl; now rewrite ?andb_false_r.
  - now rewrite H.
Qed.

Lemma copy_step_skip (top : string) st p :
  copyable top (stage st) p = false -> copy_step [top] [top; "mtl"] st p = st.
Proof.
  unfold copyable, copy_step. destruct (stage st !! p) as [prim|]; [|reflexivity].
  destruct (is_material prim && negb (HasPrefix p [top])); [|reflexivity].
  simpl. now intros ->.
Qed.

Lemma copy_step_copy (top : string) st p prim :
  stage st !! p = Some prim -> copyable top (stage st) p = true ->
  copy_step [top] [top; "mtl"] st p
  = let dst := copy_destination (meta st) [top; "mtl"] (GetName p) in
    {| meta := <[dst := material_spec]> (meta st);
       stage := compose_copy (stage st) dst prim;
       mat_remap := <[p := dst]> (mat_remap st);
       copied_mats := S (copied_mats st);
       rebind_count := rebind_count st;
       subset_rebind_count := subset_rebind_count st;
       coll_rebind_count := coll_rebind_count st |}.
Proof.
  intros E. unfold copyable, copy_step. rewrite E.
  intros [Hm Hs]%andb_true_iff. now rewrite Hm, Hs.
Qed.

Lemma compose_copy_outside (top : string) (stg : gmap Path Prim) dst prim x :
  mtl_child top dst -> HasPrefix x [top] = false ->
  compose_copy stg dst prim !! x = stg !! x.
Proof.
  intros Hd Hx. unfold compose_copy.
  assert (dst <> x) as Hne.
  { intros ->. apply mtl_child_prefix in Hd. congruence. }
  destruct (stg !! dst); now rewrite lookup_insert_ne.
Qed.

(** What the copy loop does whatever the document holds: prims outside
    the top prim stay, the override layer grows, keys of the table lie
    outside the top prim and its values directly under [<top>/mtl]. *)
Lemma copy_loop_outside (top : string) l : forall st,
  let r := fold_left (copy_step [top] [top; "mtl"]) l st in
  (forall x, HasPrefix x [top] = false -> stage r !! x = stage st !! x)
  /\ (forall x, is_Some (meta st !! x) -> is_Some (meta r !! x))
  /\ (forall k d, mat_remap r !! k = Some d ->
        mat_remap st !! k = Some d
        \/ (copyable top (stage st) k = true /\ k ∈ l /\ mtl_child top d))
  /\ (forall k, k ∈ l -> copyable top (stage st) k = true ->
        is_Some (mat_remap r !! k))
  /\ (forall k, is_Some (mat_remap st !! k) -> is_Some (mat_remap r !! k))
  /\ copied_mats r
     = (copied_mats st + length (List.filter (copyable top (stage st)) l))%nat.
Proof.
  induction l as [|p l IH]; intros st; cbn zeta.
  - simpl. repeat split; auto. intros k Hk; inversion Hk.
  - cbn [fold_left List.filter].
    destruct (copyable top (stage st) p) eqn:Ec.
    + destruct (stage st !! p) as [prim|] eqn:Ep;
        [|unfold copyable in Ec; now rewrite Ep in Ec].
      rewrite (copy_step_copy top st p prim Ep Ec). cbn zeta.
      set (dst := copy_destination (meta st) [top; "mtl"] (GetName p)).
      pose proof (copy_destination_child top (meta st) (GetName p)) as Hchild.
      fold dst in Hchild.
      set (st1 := {| meta := _; stage := _ |}).
      destruct (IH st1) as (H1 & H2 & H3 & H4 & H5 & H6).
      assert (Hout : forall x, HasPrefix x [top] = false ->
                               stage st1 !! x = stage st !! x).
      { intros x Hx. now apply (compose_copy_outside top). }
      assert (Hcopy : forall k, copyable top (stage st1) k = copyable top (stage st) k).
      { intros k. apply copyable_ext. apply Hout. }
      split; [|split; [|split; [|split; [|split]]]].
      * intros x Hx. rewrite H1 by assumption. now apply Hout.
      * intros x Hx. apply H2. simpl.
        destruct (decide (dst = x)) as [->|Hne];
          [now rewrite lookup_insert_eq|now rewrite lookup_insert_ne].
      * intros k d Hkd. destruct (H3 k d Hkd) as [Hold|(Hc & Hin & Hch)].
        -- simpl in Hold. destruct (decide (p = k)) as [->|Hne].
           ++ rewrite lookup_insert_eq in Hold. injection Hold as <-.
              right. split; [assumption|]. split; [|assumption].
              apply elem_of_cons. now left.
           ++ rewrite lookup_insert_ne in Hold by assumption. now left.
        -- right. rewrite Hcopy in Hc. split; [assumption|].
           split; [|assumption]. apply elem_of_cons. now right.
      * intros k [->|Hk]%elem_of_cons Hc.
        -- apply H5. simpl. now rewrite lookup_insert_eq.
        -- apply H4; [assumption|]. now rewrite Hcopy.
      * intros k Hk. apply H5. simpl.
        destruct (decide (p = k)) as [->|Hne];
          [now rewrite lookup_insert_eq|now rewrite lookup_insert_ne].
      * rewrite H6. simpl.
        rewrite (List.filter_ext _ _ Hcopy). lia.
    + rewrite (copy_step_skip top st p Ec).
      destruct (IH st) as (H1 & H2 & H3 & H4 & H5 & H6).
      split; [assumption|]. split; [assumption|].
      split; [|split; [|split]]; try assumption.
      * intros k d Hkd. destruct (H3 k d Hkd) as [Hold|(Hc & Hin & Hch)];
          [now left|right].
        split; [assumption|]. split; [|assumption]. apply elem_of_cons. now right.
      * intros k [->|Hk]%elem_of_cons Hc; [congruence|]. now apply H4.
Qed.

(** *** The copy loop when the override layer tracks the scope *)

Lemma copy_loop_tracked (top : string) l : forall st,
  prims_tracked top (meta st) (stage st) ->
  let r := fold_left (copy_step [top] [top; "mtl"]) l st in
  prims_tracked top (meta r) (stage r)
  /\ (forall x q, stage st !! x = Some q -> stage r !! x = Some q)
  /\ (forall x q, stage r !! x = Some q ->
        stage st !! x = Some q
        \/ (stage st !! x = None /\ meta st !! x = None /\ mtl_child top x
            /\ is_material q = true /\ exists k, stage st !! k = Some q))
  /\ (forall k d, mat_remap r !! k = Some d ->
        mat_remap st !! k = Some d
        \/ (is_material_at (stage r) d = true /\ is_Some (meta r !! d))).
Proof.
  induction l as [|p l IH]; intros st Ht; cbn zeta.
  - simpl. repeat split; auto.
  - cbn [fold_left].
    destruct (copyable top (stage st) p) eqn:Ec.
    2:{ rewrite (copy_step_skip top st p Ec). now apply IH. }
    destruct (stage st !! p) as [prim|] eqn:Ep;
      [|unfold copyable in Ec; now rewrite Ep in Ec].
    rewrite (copy_step_copy top st p prim Ep Ec). cbn zeta.
    set (dst := copy_destination (meta st) [top; "mtl"] (GetName p)).
    pose proof (copy_destination_child top (meta st) (GetName p)) as Hchild.
    pose proof (copy_destination_fresh (meta st) [top; "mtl"] (GetName p)) as Hfresh.
    fold dst in Hchild, Hfresh.
    assert (stage st !! dst = None) as Hnone.
    { destruct (stage st !! dst) as [q|] eqn:E; [|reflexivity].
      destruct (Ht dst Hchild) as [s Hs]; [now rewrite E|congruence]. }
    assert (is_material prim = true) as Hmat.
    { unfold copyable in Ec. rewrite Ep in Ec.
      now apply andb_true_iff in Ec as [[? ?]%andb_true_iff ?]. }
    unfold compose_copy. rewrite Hnone. cbv iota.
    set (st1 := {| meta := _; stage := _ |}).
    assert (prims_tracked top (meta st1) (stage st1)) as Ht1.
    { intros x Hx Hs. unfold st1 in *. cbn [meta stage] in *.
      destruct (decide (dst = x)) as [<-|Hne]; [now rewrite lookup_insert_eq|].
      rewrite lookup_insert_ne in Hs by assumption.
      rewrite lookup_insert_ne by assumption. now apply Ht. }
    destruct (IH st1 Ht1) as (H1 & H2 & H3 & H4).
    destruct (copy_loop_outside top l st1) as (_ & Hgrow & _).
    cbn zeta in Hgrow. unfold st1 in H2, H3, H4, Hgrow.
    cbn [meta stage mat_remap] in H2, H3, H4, Hgrow.
    split; [assumption|]. split; [|split].
    + intros x q Hx. apply H2.
      rewrite lookup_insert_ne; [assumption|]. intros <-. congruence.
    + intros x q Hx.
      destruct (H3 x q Hx) as [Hold|(Hn & Hm & Hc & Hq & k & Hk)].
      * destruct (decide (dst = x)) as [<-|Hne].
        -- rewrite lookup_insert_eq in Hold. injection Hold as <-.
           right. repeat split; try assumption. now exists p.
        -- rewrite lookup_insert_ne in Hold by assumption. now left.
      * assert (dst <> x) as Hne by (intros <-; now rewrite lookup_insert_eq in Hn).
        rewrite lookup_insert_ne in Hn by assumption.
        rewrite lookup_insert_ne in Hm by assumption.
        right. repeat split; try assumption.
        destruct (decide (dst = k)) as [<-|Hnk].
        -- rewrite lookup_insert_eq in Hk. injection Hk as <-. now exists p.
        -- rewrite lookup_insert_ne in Hk by assumption. now exists k.
    + intros k d Hkd. destruct (H4 k d Hkd) as [Hold|Hnew]; [|now right].
      destruct (decide (p = k)) as [<-|Hne].
      * rewrite lookup_insert_eq in Hold. injection Hold as <-. right. split.
        -- unfold is_material_at. fold st1. unfold st1 at 1.
           rewrite (H2 dst prim); [assumption|].
           now rewrite lookup_insert_eq.
        -- apply Hgrow. now rewrite lookup_insert_eq.
      * rewrite lookup_insert_ne in Hold by assumption. now left.
Qed.

End MaterialRebinderFacts.

(** ** A pass of the material rebinder and a second one *)

Module MaterialRebinderPass.
Import Str Usd MaterialRebinder StrFacts MaterialRebinderFacts.

(** *** The phases of a pass *)

Lemma fix_materials_phases (top : string) layer stg :
  fix_materials top layer stg
  = fold_left coll_step (TraverseAll (stage (after_bindings top layer stg)))
              (after_bindings top layer stg).
Proof. reflexivity. Qed.

(** *** What the second and third traversals leave alone *)

Lemma carries_refl st : carries st st.
Proof. split; auto. Qed.

Lemma carries_trans st1 st2 st3 :
  carries st1 st2 -> carries st2 st3 -> carries st1 st3.
Proof. intros [A1 B1] [A2 B2]. split; [congruence|auto]. Qed.

Lemma fold_carries {A} (f : pass -> A -> pass) :
  (forall st a, carries st (f st a)) ->
  forall l st, carries st (fold_left f l st).
Proof.
  intros Hf l. induction l as [|a l IH]; intros st; simpl.
  - apply carries_refl.
  - eapply carries_trans; [apply Hf|apply IH].
Qed.

Lemma CreatePrimInLayer_grows (layer : gmap Path PrimSpec) p x :
  is_Some (layer !! x) -> is_Some (CreatePrimInLayer layer p !! x).
Proof.
  unfold CreatePrimInLayer. generalize (ancestors_and_self p) as l.
  intros l. revert layer. induction l as [|a l IH]; intros layer H; simpl; [assumption|].
  apply IH. destruct (layer !! a) eqn:E; [assumption|].
  destruct (decide (a = x)) as [<-|Hne];
    [now rewrite lookup_insert_eq|now rewrite lookup_insert_ne].
Qed.

Lemma ensure_over_grows (layer : gmap Path PrimSpec) p x :
  is_Some (layer !! x) -> is_Some (_ensure_over_prim layer p !! x).
Proof.
  intros H. unfold _ensure_over_prim. destruct (layer !! p) eqn:E; [assumption|].
  destruct (decide (p = x)) as [<-|Hne]; [now rewrite lookup_insert_eq|].
  rewrite lookup_insert_ne by assumption. now apply CreatePrimInLayer_grows.
Qed.

Lemma ensure_over_has (layer : gmap Path PrimSpec) p :
  is_Some (_ensure_over_prim layer p !! p).
Proof.
  unfold _ensure_over_prim. destruct (layer !! p) eqn:E; [now rewrite E|].
  now rewrite lookup_insert_eq.
Qed.

Lemma ensure_over_present (layer : gmap Path PrimSpec) p :
  is_Some (layer !! p) -> _ensure_over_prim layer p = layer.
Proof. intros [s Hs]. unfold _ensure_over_prim. now rewrite Hs. Qed.

Lemma ensure_def_grows (layer : gmap Path PrimSpec) p x :
  is_Some (layer !! x) -> is_Some (_ensure_def_scope layer p !! x).
Proof.
  intros H. unfold _ensure_def_scope. destruct (layer !! p) eqn:E; [assumption|].
  destruct (decide (p = x)) as [<-|Hne]; [now rewrite lookup_insert_eq|].
  rewrite lookup_insert_ne by assumption. now apply CreatePrimInLayer_grows.
Qed.

Lemma ensure_def_has (layer : gmap Path PrimSpec) p :
  is_Some (_ensure_def_scope layer p !! p).
Proof.
  unfold _ensure_def_scope. destruct (layer !! p) eqn:E; [now rewrite E|].
  now rewrite lookup_insert_eq.
Qed.

Lemma ensure_def_present (layer : gmap Path PrimSpec) p :
  is_Some (layer !! p) -> _ensure_def_scope layer p = layer.
Proof. intros [s Hs]. unfold _ensure_def_scope. now rewrite Hs. Qed.

Lemma subset_step_carries st x : carries st (subset_step st x).
Proof.
  unfold subset_step. destruct (stage st !! x); [|apply carries_refl].
  destruct (rebind_direct _ _); split; simpl; auto using ensure_over_grows.
Qed.

Lemma direct_step_carries st p prim : carries st (direct_step st p prim).
Proof.
  unfold direct_step. destruct (can_apply prim); [|apply carries_refl].
  destruct (rebind_direct _ _); split; simpl; auto using ensure_over_grows.
Qed.

Lemma bind_step_carries st p : carries st (bind_step st p).
Proof.
  unfold bind_step. destruct (stage st !! p) as [prim|]; [|apply carries_refl].
  destruct (is_mesh prim); [|apply direct_step_carries].
  eapply carries_trans; [apply direct_step_carries|].
  apply fold_carries. apply subset_step_carries.
Qed.

Lemma coll_rel_step_carries p st rel : carries st (coll_rel_step p st rel).
Proof.
  unfold coll_rel_step. destruct (startswith _ _); [|apply carries_refl].
  destruct (stage st !! p); [destruct (rebind_collection _ _ _)|];
    split; simpl; auto using ensure_over_grows.
Qed.

Lemma coll_step_carries st p : carries st (coll_step st p).
Proof.
  unfold coll_step. destruct (stage st !! p); [|apply carries_refl].
  apply fold_carries. intros. apply coll_rel_step_carries.
Qed.

Lemma pass_carries (top : string) layer stg :
  carries (after_copies top layer stg) (fix_materials top layer stg).
Proof.
  rewrite fix_materials_phases. eapply carries_trans.
  - apply (fold_carries bind_step bind_step_carries).
  - apply (fold_carries coll_step coll_step_carries).
Qed.

Lemma pass_remap (top : string) layer stg :
  mat_remap (fix_materials top layer stg) = mat_remap (after_copies top layer stg).
Proof.
  rewrite fix_materials_phases. rewrite coll_loop_remap.
  unfold after_bindings. now rewrite bind_loop_remap.
Qed.

(** *** The start of a pass *)

Lemma start_meta_grows (top : string) (layer : gmap Path PrimSpec) stg x :
  is_Some (layer !! x) -> is_Some (meta (pass_start top layer stg) !! x).
Proof. intros H. simpl. now apply ensure_def_grows, ensure_over_grows. Qed.

Lemma start_meta_top (top : string) (layer : gmap Path PrimSpec) stg :
  is_Some (meta (pass_start top layer stg) !! [top]).
Proof. simpl. apply ensure_def_grows, ensure_over_has. Qed.

Lemma start_meta_mtl (top : string) (layer : gmap Path PrimSpec) stg :
  is_Some (meta (pass_start top layer stg) !! [top; "mtl"]).
Proof. simpl. apply ensure_def_has. Qed.

Lemma start_again (top : string) (layer : gmap Path PrimSpec) stg :
  is_Some (layer !! [top]) -> is_Some (layer !! [top; "mtl"]) ->
  pass_start top layer stg
  = {| meta := layer; stage := stg; mat_remap := ∅; copied_mats := 0;
       rebind_count := 0; subset_rebind_count := 0; coll_rebind_count := 0 |}.
Proof.
  intros Ht Hm. unfold pass_start. rewrite (ensure_over_present _ _ Ht).
  rewrite (ensure_def_present _ _ Hm). destruct Hm as [s ->]. reflexivity.
Qed.

Lemma start_stage_other (top : string) (layer : gmap Path PrimSpec) stg x :
  x <> [top; "mtl"] -> stage (pass_start top layer stg) !! x = stg !! x.
Proof.
  intros Hne. simpl. destruct (_ !! [top; "mtl"]); [reflexivity|].
  unfold compose_def_scope.
  destruct (stg !! [top; "mtl"]); now rewrite lookup_insert_ne.
Qed.

Lemma start_stage_rels (top : string) (layer : gmap Path PrimSpec) stg x q :
  stage (pass_start top layer stg) !! x = Some q ->
  q = blank_prim TScope \/ exists q0, stg !! x = Some q0 /\ rels q = rels q0.
Proof.
  simpl. destruct (_ !! [top; "mtl"]); [intros H; right; now exists q|].
  unfold compose_def_scope.
  destruct (stg !! [top; "mtl"]) as [m|] eqn:E;
    (destruct (decide ([top; "mtl"] = x)) as [<-|Hne];
     [rewrite lookup_insert_eq|rewrite lookup_insert_ne by assumption]);
    intros H.
  - injection H as <-. right. now exists m.
  - right. now exists q.
  - injection H as <-. now left.
  - right. now exists q.
Qed.

Lemma outside_not_mtl (top : string) x :
  HasPrefix x [top] = false -> x <> [top; "mtl"].
Proof. intros H ->. simpl in H. now rewrite String.eqb_refl in H. Qed.

(** *** The table of a pass *)

Lemma copies_remap (top : string) layer stg k d :
  mat_remap (after_copies top layer stg) !! k = Some d ->
  copyable top stg k = true /\ mtl_child top d.
Proof.
  intros H. unfold after_copies in H.
  destruct (copy_loop_outside top (TraverseAll (stage (pass_start top layer stg)))
              (pass_start top layer stg)) as (_ & _ & H3 & _).
  destruct (H3 k d H) as [Hold|(Hc & _ & Hch)]; [simpl in Hold; now rewrite lookup_empty in Hold|].
  split; [|assumption]. rewrite <- Hc. apply copyable_ext.
  intros Hk. symmetry. now apply start_stage_other, outside_not_mtl.
Qed.

Lemma copyable_outside (top : string) (stg : gmap Path Prim) k :
  copyable top stg k = true -> HasPrefix k [top] = false.
Proof.
  unfold copyable. destruct (stg !! k); [|discriminate].
  destruct (HasPrefix k [top]); [|reflexivity].
  simpl. now rewrite andb_false_r.
Qed.

Lemma copies_remap_closed (top : string) layer stg :
  remap_closed (mat_remap (after_copies top layer stg)).
Proof.
  intros k d H. apply copies_remap in H as [_ Hd].
  destruct (mat_remap _ !! d) as [d'|] eqn:E; [|reflexivity].
  apply copies_remap in E as [Hc%copyable_outside _].
  apply mtl_child_prefix in Hd. congruence.
Qed.

(** *** The shape of the stage a pass leaves *)

Lemma rebound_collections_shape remap stg q :
  ptype (rebound_collections remap stg q) = ptype q
  /\ can_apply (rebound_collections remap stg q) = can_apply q
  /\ has_spec (rebound_collections remap stg q) = has_spec q
  /\ network (rebound_collections remap stg q) = network q.
Proof. unfold rebound_collections, set_rels. simpl. auto. Qed.

Lemma pass_stage (top : string) layer stg x :
  stage (fix_materials top layer stg) !! x
  = rebound_collections (mat_remap (after_copies top layer stg))
                        (stage (after_bindings top layer stg))
    <$> ((if bind_target (stage (after_copies top layer stg)) x
          then rebound (mat_remap (after_copies top layer stg)) else id)
         <$> stage (after_copies top layer stg) !! x).
Proof.
  rewrite fix_materials_phases, coll_traversal.
  unfold after_bindings at 1 3. rewrite bind_loop_remap.
  rewrite bind_traversal by apply copies_remap_closed. reflexivity.
Qed.

Lemma bindings_shape (top : string) layer stg :
  same_shape (stage (after_copies top layer stg))
             (stage (after_bindings top layer stg)).
Proof.
  intros x. unfold after_bindings.
  rewrite bind_traversal by apply copies_remap_closed.
  destruct (stage (after_copies top layer stg) !! x) as [q|]; simpl; [|exact I].
  destruct (rebound_shape (mat_remap (after_copies top layer stg))
              (bind_target (stage (after_copies top layer stg)) x) q)
    as (A & B & C & D).
  now rewrite A, B, C, D.
Qed.

Lemma pass_shape (top : string) layer stg :
  same_shape (stage (after_copies top layer stg))
             (stage (fix_materials top layer stg)).
Proof.
  eapply same_shape_trans; [apply bindings_shape|].
  intros x. rewrite fix_materials_phases, coll_traversal.
  destruct (stage (after_bindings top layer stg) !! x) as [q|];
    cbn [fmap option_fmap option_map]; [|exact I].
  destruct (rebound_collections_shape (mat_remap (after_bindings top layer stg))
              (stage (after_bindings top layer stg)) q) as (A & B & C & D).
  now rewrite A, B, C, D.
Qed.

Lemma copyable_same_shape (top : string) (s1 s2 : gmap Path Prim) k :
  same_shape s1 s2 -> copyable top s1 k = copyable top s2 k.
Proof.
  intros H. specialize (H k). unfold copyable.
  destruct (s1 !! k), (s2 !! k); try tauto.
  destruct H as (A & _ & C & _). unfold is_material. now rewrite A, C.
Qed.

Lemma pass_copyable (top : string) layer stg k :
  copyable top (stage (fix_materials top layer stg)) k = copyable top stg k.
Proof.
  rewrite <- (copyable_same_shape top _ _ k (pass_shape top layer stg)).
  apply copyable_ext. intros Hk. unfold after_copies.
  destruct (copy_loop_outside top (TraverseAll (stage (pass_start top layer stg)))
              (pass_start top layer stg)) as (H1 & _).
  rewrite H1 by assumption. now apply start_stage_other, outside_not_mtl.
Qed.

(** *** Counting the copies *)

Lemma copyable_paths_count (top : string) (s1 s2 : gmap Path Prim) :
  (forall k, copyable top s1 k = copyable top s2 k) ->
  length (copyable_paths top s1) = length (copyable_paths top s2).
Proof.
  intros H. apply Permutation_length. unfold copyable_paths.
  assert (forall s : gmap Path Prim, List.NoDup (TraverseAll s)) as Hnd.
  { intros s. apply NoDup_ListNoDup. unfold TraverseAll.
    apply (NoDup_fst_map_to_list s). }
  assert (forall (s : gmap Path Prim) k,
            In k (List.filter (copyable top s) (TraverseAll s))
            <-> copyable top s k = true) as Hin.
  { intros s k. rewrite filter_In. split; [tauto|]. intros Hc. split; [|assumption].
    unfold copyable in Hc. destruct (s !! k) as [q|] eqn:E; [|discriminate].
    unfold TraverseAll. apply in_map_iff. exists (k, q). split; [reflexivity|].
    apply list_elem_of_In. now apply elem_of_map_to_list. }
  apply Stdlib.Sorting.Permutation.NoDup_Permutation.
  - apply List.NoDup_filter, Hnd.
  - apply List.NoDup_filter, Hnd.
  - intros k. rewrite !Hin. now rewrite H.
Qed.

Lemma copies_count (top : string) layer stg :
  copied_mats (after_copies top layer stg) = length (copyable_paths top stg).
Proof.
  unfold after_copies.
  destruct (copy_loop_outside top (TraverseAll (stage (pass_start top layer stg)))
              (pass_start top layer stg)) as (_ & _ & _ & _ & _ & H6).
  rewrite H6. simpl copied_mats. rewrite Nat.add_0_l.
  apply (copyable_paths_count top (stage (pass_start top layer stg)) stg).
  intros k. apply copyable_ext. intros Hk.
  now apply start_stage_other, outside_not_mtl.
Qed.

Lemma pass_count (top : string) layer stg :
  copied_mats (fix_materials top layer stg) = length (copyable_paths top stg).
Proof.
  destruct (pass_carries top layer stg) as [-> _]. apply copies_count.
Qed.

(** A pass makes one copy for each material outside the top prim that has
    a defining layer, and so does a pass run on the stage the first one
    left, whatever override layer it writes to: it copies the same
    materials once more. *)
Lemma pass_counts (top_name : string) layer stg :
  copied_mats (fix_materials top_name layer stg)
  = length (copyable_paths top_name stg)
  /\ forall layer',
       copied_mats (fix_materials top_name layer'
                      (stage (fix_materials top_name layer stg)))
       = length (copyable_paths top_name stg).
Proof.
  split; [apply pass_count|]. intros layer'. rewrite pass_count.
  apply copyable_paths_count. intros k. apply pass_copyable.
Qed.

(** *** A collection binding that has been rewritten *)

Lemma classify_fold s ts : forall acc m c,
  fold_left (fun acc tgt =>
               if is_material_at s tgt then (Some tgt, snd acc)
               else (fst acc, Some tgt)) ts acc = (Some m, Some c) ->
  (fst acc = Some m \/ (In m ts /\ is_material_at s m = true))
  /\ (snd acc = Some c \/ (In c ts /\ is_material_at s c = false)).
Proof.
  induction ts as [|t ts IH]; intros acc m c H; simpl in H.
  - rewrite H. simpl. auto.
  - apply IH in H. destruct (is_material_at s t) eqn:E; simpl in H.
    + destruct H as [[Hm|[Hm Hm']] [Hc|[Hc Hc']]]; split;
        try (injection Hm as <-); simpl; auto 6.
    + destruct H as [[Hm|[Hm Hm']] [Hc|[Hc Hc']]]; split;
        try (injection Hc as <-); simpl; auto 6.
Qed.

Lemma classify_spec s ts m c :
  classify s ts = (Some m, Some c) ->
  In m ts /\ is_material_at s m = true /\ In c ts /\ is_material_at s c = false.
Proof.
  intros H. apply classify_fold in H. simpl in H.
  destruct H as [[?|[? ?]] [?|[? ?]]]; try discriminate. auto.
Qed.

Lemma rebind_collection_stable (remap1 remap2 : gmap Path Path)
  (s1 s2 : gmap Path Prim) t0 :
  (forall t, In t t0 -> is_material_at s1 t = is_material_at s2 t) ->
  (forall m, In m t0 -> is_material_at s1 m = true ->
             is_material_at s2 (remap_get remap1 m) = true) ->
  (forall m, remap2 !! remap_get remap1 m = None) ->
  rebind_collection remap2 s2 (default t0 (rebind_collection remap1 s1 t0))
  = None
  \/ rebind_collection remap2 s2 (default t0 (rebind_collection remap1 s1 t0))
     = Some (default t0 (rebind_collection remap1 s1 t0)).
Proof.
  intros Hagree Hmat Hfree.
  assert (Hsame : rebind_collection remap1 s1 t0 = None ->
                  rebind_collection remap2 s2 t0 = None).
  { unfold rebind_collection. rewrite <- (classify_ext s1 s2 t0 Hagree).
    destruct (length t0 <? 2)%nat; [reflexivity|].
    destruct (classify s1 t0) as [[m|] [c|]]; try reflexivity. discriminate. }
  destruct (rebind_collection remap1 s1 t0) as [ts|] eqn:E;
    [|left; now apply Hsame].
  right. cbn [default]. unfold rebind_collection in E.
  destruct (length t0 <? 2)%nat; [discriminate|].
  destruct (classify s1 t0) as [[m|] [c|]] eqn:Ec; try discriminate.
  injection E as <-. apply classify_spec in Ec as (Hm & Hm' & Hc & Hc').
  unfold rebind_collection, classify, id.
  cbn [length Nat.ltb Nat.leb fold_left].
  rewrite <- (Hagree c Hc), Hc'. cbn [fst snd].
  rewrite (Hmat m Hm Hm'). cbn [fst snd].
  unfold remap_get at 1. now rewrite Hfree.
Qed.

Lemma binding_rel_not_collection :
  startswith collection_prefix binding_rel = false.
Proof. reflexivity. Qed.

Lemma direct_settled_ext remap q q' :
  rels q !! binding_rel = rels q' !! binding_rel ->
  direct_settled remap q' -> direct_settled remap q.
Proof. unfold direct_settled. now intros ->. Qed.

(** *** A second pass on a tracked scope *)

Lemma copies_remap_keys (top : string) layer stg k :
  copyable top stg k = true ->
  is_Some (mat_remap (after_copies top layer stg) !! k).
Proof.
  intros Hc. unfold after_copies.
  destruct (copy_loop_outside top (TraverseAll (stage (pass_start top layer stg)))
              (pass_start top layer stg)) as (_ & _ & _ & H4 & _).
  assert (copyable top (stage (pass_start top layer stg)) k = true) as Hc'.
  { rewrite <- Hc. apply copyable_ext. intros Hk.
    now apply start_stage_other, outside_not_mtl. }
  apply H4; [|assumption].
  unfold copyable in Hc'.
  destruct (stage (pass_start top layer stg) !! k) as [q|] eqn:E; [|discriminate].
  unfold TraverseAll. apply list_elem_of_In, in_map_iff. exists (k, q).
  split; [reflexivity|]. apply list_elem_of_In. now apply elem_of_map_to_list.
Qed.

Lemma copies_meta_grows (top : string) layer stg x :
  is_Some (meta (pass_start top layer stg) !! x) ->
  is_Some (meta (after_copies top layer stg) !! x).
Proof.
  unfold after_copies.
  destruct (copy_loop_outside top (TraverseAll (stage (pass_start top layer stg)))
              (pass_start top layer stg)) as (_ & H2 & _).
  apply H2.
Qed.

Lemma start_tracked (top : string) layer stg :
  scope_tracked top layer stg ->
  prims_tracked top (meta (pass_start top layer stg))
                (stage (pass_start top layer stg))
  /\ targets_tracked top (meta (pass_start top layer stg))
                     (stage (pass_start top layer stg)).
Proof.
  intros [Hp Ht]. split.
  - intros x Hx Hs. apply start_meta_grows. apply Hp; [assumption|].
    rewrite <- (start_stage_other top layer stg x); [assumption|].
    destruct Hx as [name ->]. discriminate.
  - intros p q name targets t Hq Hr Hn Hin Hc. apply start_meta_grows.
    apply start_stage_rels in Hq as [->|(q0 & Hq0 & Hrels)].
    + simpl in Hr. now rewrite lookup_empty in Hr.
    + rewrite Hrels in Hr. eauto.
Qed.

Section SecondPass.

Variable top : string.
Variable layer : gmap Path PrimSpec.
Variable stg : gmap Path Prim.
Hypothesis tracked : scope_tracked top layer stg.

Let st1 := after_copies top layer stg.
Let r1 := fix_materials top layer stg.
Let st1' := after_copies top (meta r1) (stage r1).

Lemma copies_tracked :
  prims_tracked top (meta st1) (stage st1)
  /\ targets_tracked top (meta st1) (stage st1)
  /\ (forall k d, mat_remap st1 !! k = Some d ->
        is_material_at (stage st1) d = true /\ is_Some (meta st1 !! d)).
Proof.
  destruct (start_tracked top layer stg tracked) as [Hp Ht].
  destruct (copy_loop_tracked top (TraverseAll (stage (pass_start top layer stg)))
              (pass_start top layer stg) Hp) as (H1 & H2 & H3 & H4).
  split; [exact H1|]. split.
  - intros p q name targets t Hq Hr Hn Hin Hc.
    apply copies_meta_grows.
    destruct (H3 p q Hq) as [Hold|(_ & _ & _ & _ & k & Hk)]; eauto.
  - intros k d Hkd. destruct (H4 k d Hkd) as [Hold|Hnew]; [|exact Hnew].
    simpl in Hold. now rewrite lookup_empty in Hold.
Qed.

Lemma first_meta_grows x : is_Some (meta st1 !! x) -> is_Some (meta r1 !! x).
Proof. apply (pass_carries top layer stg). Qed.

Lemma second_start :
  pass_start top (meta r1) (stage r1)
  = {| meta := meta r1; stage := stage r1; mat_remap := ∅; copied_mats := 0;
       rebind_count := 0; subset_rebind_count := 0; coll_rebind_count := 0 |}.
Proof.
  apply start_again; apply first_meta_grows, copies_meta_grows.
  - apply start_meta_top.
  - apply start_meta_mtl.
Qed.

Lemma first_lookup x q :
  stage r1 !! x = Some q ->
  exists q1, stage st1 !! x = Some q1
    /\ q = rebound_collections (mat_remap st1) (stage st1)
            ((if bind_target (stage st1) x then rebound (mat_remap st1) else id) q1).
Proof.
  unfold r1. rewrite pass_stage. fold st1.
  destruct (stage st1 !! x) as [q1|]; [|discriminate].
  cbn [fmap option_fmap option_map]. intros H. injection H as <-.
  exists q1. split; [reflexivity|].
  apply rebound_collections_same_shape, same_shape_sym, bindings_shape.
Qed.

Lemma second_copies :
  (forall x q, stage r1 !! x = Some q -> stage st1' !! x = Some q)
  /\ (forall x q, stage st1' !! x = Some q ->
        stage r1 !! x = Some q
        \/ (meta r1 !! x = None /\ mtl_child top x /\ is_material q = true)).
Proof.
  assert (prims_tracked top (meta r1) (stage r1)) as Hp.
  { intros x Hx Hs. apply first_meta_grows.
    apply (proj1 copies_tracked); [assumption|].
    pose proof (pass_shape top layer stg x) as Hsh. fold st1 r1 in Hsh.
    destruct (stage r1 !! x); [|now destruct Hs].
    destruct (stage st1 !! x); [eauto|contradiction]. }
  unfold st1', after_copies. rewrite second_start.
  set (s := {| meta := meta r1 |}).
  destruct (copy_loop_tracked top (TraverseAll (stage s)) s Hp)
    as (_ & H2 & H3 & _).
  split; [exact H2|].
  intros x q Hx. destruct (H3 x q Hx) as [?|(_ & ? & ? & ? & _)]; auto.
Qed.

Lemma second_remap_free :
  (forall k, mat_remap st1 !! k = None -> mat_remap st1' !! k = None)
  /\ (forall k d, mat_remap st1 !! k = Some d -> mat_remap st1' !! d = None).
Proof.
  split.
  - intros k Hk. destruct (mat_remap st1' !! k) as [d|] eqn:E; [|reflexivity].
    apply copies_remap in E as [Hc _]. unfold r1 in Hc. rewrite pass_copyable in Hc.
    destruct (copies_remap_keys top layer stg k Hc) as [d' Hd'].
    fold st1 in Hd'. congruence.
  - intros k d Hk. apply copies_remap in Hk as [_ Hd%mtl_child_prefix].
    destruct (mat_remap st1' !! d) as [d'|] eqn:E; [|reflexivity].
    apply copies_remap in E as [Hc%copyable_outside _]. congruence.
Qed.

Lemma second_material_at t :
  (mtl_child top t -> is_Some (meta st1 !! t)) ->
  is_material_at (stage st1') t = is_material_at (stage st1) t.
Proof.
  intros Ht. destruct second_copies as [U2 U3].
  pose proof (pass_shape top layer stg t) as Hsh. fold st1 r1 in Hsh.
  unfold is_material_at.
  destruct (stage r1 !! t) as [q|] eqn:E.
  - rewrite (U2 t q E). destruct (stage st1 !! t) as [q1|]; [|contradiction].
    destruct Hsh as (Hty & _). unfold is_material. now rewrite Hty.
  - destruct (stage st1 !! t) as [q1|]; [contradiction|].
    destruct (stage st1' !! t) as [q'|] eqn:E'; [|reflexivity].
    destruct (U3 t q' E') as [?|(Hm & Hc & _)]; [congruence|].
    destruct (first_meta_grows t (Ht Hc)) as [? ?]. congruence.
Qed.

Lemma second_bind_target x :
  is_Some (stage r1 !! x) ->
  bind_target (stage st1') x = true -> bind_target (stage st1) x = true.
Proof.
  intros [q Hq]. destruct second_copies as [U2 U3].
  pose proof (pass_shape top layer stg) as Hsh. fold st1 r1 in Hsh.
  unfold bind_target. rewrite (U2 x q Hq).
  pose proof (Hsh x) as Hx. rewrite Hq in Hx.
  destruct (stage st1 !! x) as [q1|]; [|contradiction].
  destruct Hx as (Hty & Hca & _). rewrite Hca. unfold is_subset. rewrite Hty.
  destruct (can_apply q); [reflexivity|]. cbn [orb].
  destruct (match ptype q with TGeomSubset => true | _ => false end);
    [|discriminate].
  destruct (negb (bool_decide (x = []))); [|discriminate]. cbn [andb].
  destruct (stage st1' !! GetParentPath x) as [m|] eqn:Em; [|discriminate].
  intros Hmesh. pose proof (Hsh (GetParentPath x)) as Hp.
  destruct (U3 _ m Em) as [Hold|(_ & _ & Hmat)].
  - rewrite Hold in Hp. destruct (stage st1 !! GetParentPath x); [|contradiction].
    destruct Hp as (Hpt & _). unfold is_mesh in *. now rewrite Hpt.
  - unfold is_mesh, is_material in *. destruct (ptype m); discriminate.
Qed.

Lemma second_direct_kept x q :
  stage r1 !! x = Some q ->
  (if bind_target (stage st1') x then rebound (mat_remap st1') else id) q = q.
Proof.
  intros Hq. destruct (bind_target (stage st1') x) eqn:Eb; [|reflexivity].
  apply rebound_settled.
  apply second_bind_target in Eb; [|now rewrite Hq].
  destruct (first_lookup x q Hq) as (q1 & _ & ->). rewrite Eb.
  destruct second_remap_free as [Hk Hv].
  eapply direct_settled_ext;
    [|apply (rebound_makes_settled (mat_remap st1) (mat_remap st1') q1);
      [apply copies_remap_closed|exact Hk|exact Hv]].
  rewrite rebound_collections_rels. unfold new_targets.
  rewrite binding_rel_not_collection.
  now destruct (rels (rebound (mat_remap st1) q1) !! binding_rel).
Qed.

Lemma second_collections_kept x q :
  stage r1 !! x = Some q ->
  rebound_collections (mat_remap st1') (stage st1') q = q.
Proof.
  intros Hq. destruct (first_lookup x q Hq) as (q1 & Hq1 & Heq).
  destruct copies_tracked as (_ & Ht & Hval).
  destruct second_remap_free as [Hk Hv].
  apply prim_eq; try reflexivity.
  apply map_eq. intros name. rewrite rebound_collections_rels.
  destruct (rels q !! name) as [targets|] eqn:En; [|reflexivity].
  cbn [fmap option_fmap option_map]. f_equal.
  unfold new_targets. destruct (startswith collection_prefix name) eqn:Ep;
    [|reflexivity].
  rewrite Heq, rebound_collections_rels in En.
  assert (name <> binding_rel) as Hne.
  { intros ->. rewrite binding_rel_not_collection in Ep. discriminate. }
  assert (rels ((if bind_target (stage st1) x then rebound (mat_remap st1) else id) q1)
            !! name = rels q1 !! name) as Hrels.
  { destruct (bind_target (stage st1) x); [|reflexivity].
    now apply rebound_rels_other. }
  rewrite Hrels in En.
  destruct (rels q1 !! name) as [t0|] eqn:E0; [|discriminate].
  cbn [fmap option_fmap option_map] in En. injection En as <-.
  unfold new_targets. rewrite Ep.
  assert (forall t, In t t0 ->
            is_material_at (stage st1) t = is_material_at (stage st1') t) as Hagree.
  { intros t Hin. symmetry. apply second_material_at.
    intros Hc. exact (Ht x q1 name t0 t Hq1 E0 Ep Hin Hc). }
  destruct (rebind_collection_stable (mat_remap st1) (mat_remap st1')
              (stage st1) (stage st1') t0 Hagree) as [->| ->]; try reflexivity.
  - intros m Hin Hm. unfold remap_get.
    destruct (mat_remap st1 !! m) as [d|] eqn:Ed; cbn [default from_option id].
    + destruct (Hval m d Ed) as [Hmat Hmeta].
      rewrite second_material_at; [exact Hmat|]. intros _. exact Hmeta.
    + unfold id. now rewrite <- Hagree.
  - intros m. apply remap_get_settled;
      [apply copies_remap_closed|exact Hk|exact Hv].
Qed.

Lemma second_pass_lookup x q :
  stage r1 !! x = Some q -> stage (second_pass top r1) !! x = Some q.
Proof.
  intros Hq. unfold second_pass. rewrite pass_stage. fold st1'.
  rewrite (proj1 second_copies x q Hq). cbn [fmap option_fmap option_map].
  rewrite (second_direct_kept x q Hq). f_equal.
  rewrite <- (second_collections_kept x q Hq) at 2.
  apply rebound_collections_same_shape, same_shape_sym, bindings_shape.
Qed.

End SecondPass.

(** *** Checking that a scope is tracked *)

Lemma is_mtl_child_true (top : string) x : mtl_child top x -> is_mtl_child top x = true.
Proof. intros [name ->]. simpl. now rewrite String.eqb_refl. Qed.

Lemma tracked_path_sound (top : string) (layer : gmap Path PrimSpec) x :
  tracked_path top layer x = true -> mtl_child top x -> is_Some (layer !! x).
Proof.
  unfold tracked_path. intros H Hc. rewrite (is_mtl_child_true top x Hc) in H.
  simpl in H. destruct (layer !! x); [eauto|discriminate].
Qed.

Lemma scope_tracked_b_sound (top : string) layer stg :
  scope_tracked_b top layer stg = true -> scope_tracked top layer stg.
Proof.
  unfold scope_tracked_b. rewrite forallb_forall. intros H. split.
  - intros x Hx [q Hq].
    assert (In (x, q) (map_to_list stg)) as Hin
        by now apply list_elem_of_In, elem_of_map_to_list.
    apply H in Hin. apply andb_true_iff in Hin as [Hp _].
    now apply (tracked_path_sound top).
  - intros p q name targets t Hq Hr Hn Hin Hc.
    assert (In (p, q) (map_to_list stg)) as Hpq
        by now apply list_elem_of_In, elem_of_map_to_list.
    apply H in Hpq. apply andb_true_iff in Hpq as [_ Hrels].
    rewrite forallb_forall in Hrels.
    assert (In (name, targets) (map_to_list (rels q))) as Hnt
        by now apply list_elem_of_In, elem_of_map_to_list.
    apply Hrels in Hnt. unfold tracked_rel in Hnt. cbn [fst snd] in Hnt.
    rewrite Hn in Hnt. cbn [negb orb] in Hnt.
    rewrite forallb_forall in Hnt.
    apply (tracked_path_sound top); [now apply Hnt|assumption].
Qed.




End MaterialRebinderPass.

(** * Further properties of the code *)

(** ** Successive allocations and the allocator of release 26.02.03 *)

Module AllocationFacts.
Import Str StrFacts VersionAllocator VersionAllocatorFacts.

Lemma scan_app es e : scan (es ++ [e]) = scan_step (scan es) e.
Proof. unfold scan. now rewrite fold_left_app. Qed.

Lemma scan_after_allocation es :
  scan (es ++ [(version_label (scan es), NDir)]) = (scan es + 1)%N.
Proof.
  rewrite scan_app. unfold scan_step. cbn [fst snd].
  rewrite pat_match_label, int_of_format.
  destruct (N.ltb_spec (scan es) (scan es + 1)); [reflexivity|lia].
Qed.

Lemma entry_kind_app es e name :
  entry_kind (es ++ [e]) name
  = match entry_kind es name with
    | Some k => Some k
    | None => if String.eqb (fst e) name then Some (snd e) else None
    end.
Proof.
  induction es as [|[n k] es IH]; simpl.
  - destruct e as [n k]. reflexivity.
  - destruct (String.eqb n name); [reflexivity|apply IH].
Qed.

Lemma format_03d_inj n m : format_03d n = format_03d m -> n = m.
Proof.
  intros H. rewrite <- (int_of_format n), <- (int_of_format m). now rewrite H.
Qed.

Lemma version_label_inj n m : version_label n = version_label m -> n = m.
Proof.
  unfold version_label. intros H. injection H as H.
  apply format_03d_inj in H. lia.
Qed.

(** What a successful call leaves: the parent is a directory that lists
    the label as a sub-directory, with the entries it had before. *)
Lemma allocation_state parent st ver ver_path st1 :
  _next_version_folder parent st = inr (ver, ver_path, st1) ->
  ver = version_label (scan (listing st))
  /\ st1 = Directory (listing st ++ [(ver, NDir)]).
Proof.
  unfold _next_version_folder.
  destruct st as [[|]| |es]; cbn [listing]; try discriminate.
  - cbn. intros [= <- _ <-]. auto.
  - cbv zeta. destruct (entry_kind es (version_label (scan es))) as [[|]|] eqn:E;
      try discriminate; intros [= <- _ <-]; split; try reflexivity.
    apply entry_kind_In in E. now apply label_not_a_directory in E.
Qed.

(** Two publishes in a row get consecutive versions: the second call, on
    the parent the first one left, returns the label one above the first,
    unless that label is the name of a file, in which case it raises. *)
Theorem next_version_folder_twice parent st ver ver_path st1 :
  _next_version_folder parent st = inr (ver, ver_path, st1) ->
  let n := scan (listing st) in
  ver = "v" +:+ format_03d (n + 1)
  /\ In (ver, NDir) (listing st1)
  /\ (forall e, In e (listing st) -> In e (listing st1))
  /\ (In (version_label (n + 1), NFile) (listing st) ->
      _next_version_folder parent st1 = inl OSError)
  /\ (~ In (version_label (n + 1), NFile) (listing st) ->
      _next_version_folder parent st1
      = inr ("v" +:+ format_03d (n + 2),
             path_join parent ("v" +:+ format_03d (n + 2)),
             Directory (listing st1 ++ [("v" +:+ format_03d (n + 2), NDir)]))).
Proof.
  intros H n. destruct (allocation_state _ _ _ _ _ H) as [-> ->].
  fold n. cbn [listing].
  split; [reflexivity|].
  split; [apply in_or_app; right; now left|].
  split; [intros e He; apply in_or_app; now left|].
  assert (Hscan : scan (listing st ++ [(version_label n, NDir)]) = (n + 1)%N)
    by apply scan_after_allocation.
  assert (Hkind : entry_kind (listing st ++ [(version_label n, NDir)])
                    (version_label (n + 1))
                  = entry_kind (listing st) (version_label (n + 1))).
  { rewrite entry_kind_app. destruct (entry_kind (listing st) _); [reflexivity|].
    cbn [fst snd]. destruct (String.eqb_spec (version_label n) (version_label (n + 1)))
      as [E|_]; [|reflexivity].
    apply version_label_inj in E. lia. }
  unfold _next_version_folder. cbv zeta. rewrite Hscan, Hkind.
  replace (n + 2)%N with (n + 1 + 1)%N by lia.
  change ("v" +:+ format_03d (n + 1 + 1)) with (version_label (n + 1)).
  split.
  - intros Hin. destruct (entry_kind (listing st) (version_label (n + 1)))
      as [[|]|] eqn:E; [| reflexivity |].
    + apply entry_kind_In in E. exfalso.
      (* a directory with that name would have been counted *)
      pose proof (fold_scan_upper (listing st) 0%N _ _ E
                    (pat_match_label (n + 1))) as Hle.
      rewrite int_of_format in Hle. unfold n, scan in Hle. lia.
    + now apply entry_kind_None with (k := NFile) in E.
  - intros Hnot. destruct (entry_kind (listing st) (version_label (n + 1)))
      as [[|]|] eqn:E; [| |reflexivity].
    + apply entry_kind_In in E. exfalso.
      pose proof (fold_scan_upper (listing st) 0%N _ _ E
                    (pat_match_label (n + 1))) as Hle.
      rewrite int_of_format in Hle. unfold n, scan in Hle. lia.
    + apply entry_kind_In in E. contradiction.
Qed.

Lemma next_version_folder_twice_witness :
  _next_version_folder "C:/pub"
    (Directory [("v001", NDir); ("v002", NDir); ("v003", NDir)])
  = inr ("v004", "C:/pub/v004",
         Directory [("v001", NDir); ("v002", NDir); ("v003", NDir); ("v004", NDir)]).
Proof.
  pose proof (next_version_folder_twice "C:/pub"
                (Directory [("v001", NDir); ("v002", NDir)])
                "v003" "C:/pub/v003" _ eq_refl) as (_ & _ & _ & _ & H).
  apply H. vm_compute. intuition discriminate.
Defined.

End AllocationFacts.

(** ** Python string operations *)

Module PyStrFacts.
Import Str StrFacts PyStr.

Lemma split_on_nonempty sep s : split_on sep s <> [].
Proof.
  destruct s as [|c r]; simpl; [discriminate|].
  destruct (Ascii.eqb c sep); [discriminate|].
  destruct (split_on sep r); discriminate.
Qed.

Lemma split_on_cons sep c r :
  Ascii.eqb c sep = false ->
  exists h t, split_on sep r = h :: t /\ split_on sep (String c r) = String c h :: t.
Proof.
  intros Hc. simpl. rewrite Hc.
  destruct (split_on sep r) as [|h t] eqn:E;
    [now apply split_on_nonempty in E|].
  now exists h, t.
Qed.

Lemma contains_char_app c s t :
  contains_char c (s +:+ t) = contains_char c s || contains_char c t.
Proof.
  induction s as [|a s IH]; simpl; [reflexivity|]. now rewrite IH, orb_assoc.
Qed.

(** No piece holds the separator. *)
Lemma split_on_pieces sep s p :
  In p (split_on sep s) -> contains_char sep p = false.
Proof.
  revert p. induction s as [|c r IH]; intros p; simpl.
  - intros [<-|[]]. reflexivity.
  - destruct (Ascii.eqb c sep) eqn:Hc.
    + intros [<-|Hin]; [reflexivity|now apply IH].
    + destruct (split_on sep r) as [|h t] eqn:E.
      * intros [<-|[]]. simpl. now rewrite Hc.
      * intros [<-|Hin].
        -- simpl. rewrite Hc. apply IH. now left.
        -- apply IH. now right.
Qed.

Lemma join_cons sep x y l :
  join sep (x :: y :: l) = x +:+ sep +:+ join sep (y :: l).
Proof. reflexivity. Qed.

(** Joining the pieces with the separator gives the string back. *)
Lemma join_split_on sep s : join (String sep EmptyString) (split_on sep s) = s.
Proof.
  induction s as [|c r IH]; [reflexivity|].
  simpl split_on. destruct (Ascii.eqb c sep) eqn:Hc.
  - apply Ascii.eqb_eq in Hc. subst c.
    destruct (split_on sep r) as [|h t] eqn:E;
      [now apply split_on_nonempty in E|].
    rewrite join_cons, IH. reflexivity.
  - destruct (split_on sep r) as [|h t] eqn:E;
      [now apply split_on_nonempty in E|].
    destruct t as [|h' t'].
    + simpl in *. now rewrite IH.
    + rewrite join_cons. rewrite join_cons in IH. rewrite <- IH.
      reflexivity.
Qed.

Lemma append_assoc s t u : (s +:+ t) +:+ u = s +:+ (t +:+ u).
Proof. induction s as [|c s IH]; simpl; [reflexivity|]. now rewrite IH. Qed.

Lemma append_nil_r s : s +:+ EmptyString = s.
Proof. induction s as [|c s IH]; simpl; [reflexivity|]. now rewrite IH. Qed.

Lemma join_last sep (l : list string) d :
  l <> [] -> exists pre, join sep l = pre +:+ List.last l d.
Proof.
  induction l as [|x l IH]; intros Hne; [contradiction|].
  destruct l as [|y l]; [now exists EmptyString|].
  destruct IH as [pre IH]; [discriminate|].
  exists (x +:+ sep +:+ pre). rewrite join_cons, IH.
  cbn [List.last]. now rewrite !append_assoc.
Qed.

Lemma last_piece_suffix sep s : exists pre, s = pre +:+ last_piece sep s.
Proof.
  destruct (join_last (String sep EmptyString) (split_on sep s) EmptyString
              (split_on_nonempty sep s)) as [pre H].
  exists pre. unfold last_piece. rewrite <- H. symmetry. apply join_split_on.
Qed.

Lemma last_piece_no_sep sep s : contains_char sep (last_piece sep s) = false.
Proof.
  apply (split_on_pieces sep s). unfold last_piece.
  destruct (split_on sep s) as [|h t] eqn:E;
    [now apply split_on_nonempty in E|].
  rewrite <- E. clear.
  assert (forall (l : list string) d, l <> [] -> In (List.last l d) l) as Hlast.
  { induction l as [|a l IH]; intros d Hne; [contradiction|].
    destruct l as [|b l]; [now left|]. right. apply IH. discriminate. }
  apply Hlast, split_on_nonempty.
Qed.

(** Splitting distributes over a separator. *)
Lemma split_on_app sep a b :
  split_on sep (a +:+ String sep b) = split_on sep a ++ split_on sep b.
Proof.
  induction a as [|c a IH].
  - cbn. now rewrite Ascii.eqb_refl.
  - change (String c a +:+ String sep b) with (String c (a +:+ String sep b)).
    cbn [split_on]. rewrite IH.
    destruct (Ascii.eqb c sep); [reflexivity|].
    destruct (split_on sep a) as [|h t] eqn:E;
      [now apply split_on_nonempty in E|reflexivity].
Qed.

Lemma split_on_no_sep sep f :
  contains_char sep f = false -> split_on sep f = [f].
Proof.
  induction f as [|c f IH]; [reflexivity|]. cbn.
  intros [Hc Hf]%orb_false_iff. now rewrite Hc, IH.
Qed.

Lemma replace_backslash_app s t :
  replace_backslash (s +:+ t) = replace_backslash s +:+ replace_backslash t.
Proof. induction s as [|c s IH]; simpl; [reflexivity|]. now rewrite IH. Qed.

Lemma replace_backslash_twice s :
  replace_backslash (replace_backslash s) = replace_backslash s.
Proof. apply replace_backslash_id, replace_backslash_no_backslash. Qed.

End PyStrFacts.

(** ** [get_publish_paths] *)

Module PublishPathsFacts.
Import Str StrFacts PyStr PyStrFacts VersionAllocator VersionAllocatorFacts.
Import PublishPaths.

Lemma scan_step_same m e :
  PublishPaths.scan_step m e = VersionAllocator.scan_step m e.
Proof.
  unfold PublishPaths.scan_step, VersionAllocator.scan_step.
  destruct (snd e); [|reflexivity].
  destruct (pat_match (fst e)); [|reflexivity].
  cbv zeta. destruct (N.ltb_spec m (int_of_digits s)); lia.
Qed.

Lemma scan_same es : forall m,
  fold_left PublishPaths.scan_step es m = fold_left VersionAllocator.scan_step es m.
Proof.
  induction es as [|e es IH]; intros m; simpl; [reflexivity|].
  now rewrite scan_step_same, IH.
Qed.

Lemma ends_with_slash_app s t :
  t <> EmptyString -> ends_with_slash (s +:+ t) = ends_with_slash t.
Proof.
  intros Ht. induction s as [|c s IH]; [reflexivity|].
  simpl. destruct (s +:+ t) eqn:E; [|exact IH].
  destruct s; simpl in E; [contradiction|discriminate].
Qed.

Lemma all_digits_no_slash s :
  all_digits s = true -> ends_with_slash s = false.
Proof.
  induction s as [|c s IH]; [reflexivity|].
  simpl. intros [Hc Hs]%andb_true_iff. destruct s; [|now apply IH].
  unfold is_digit in Hc. destruct (Ascii.eqb_spec c slash) as [->|]; [|reflexivity].
  discriminate.
Qed.

Lemma all_digits_no_backslash s : all_digits s = true -> no_backslash s = true.
Proof.
  induction s as [|c s IH]; [reflexivity|].
  simpl. intros [Hc Hs]%andb_true_iff. rewrite (IH Hs), andb_true_r.
  unfold is_digit in Hc. destruct (Ascii.eqb_spec c backslash) as [->|]; [|reflexivity].
  discriminate.
Qed.

Lemma format_03d_nonempty n : format_03d n <> EmptyString.
Proof.
  intros H. pose proof (length_format n) as L. rewrite H in L. simpl in L. lia.
Qed.

(** The version directory is [<root>/<label>] with forward slashes; it
    is not empty and does not end with a slash. *)
Lemma version_dir_shape root n :
  exists pre,
    replace_backslash (path_join root (version_label n))
    = pre +:+ version_label n
    /\ ends_with_slash (pre +:+ version_label n) = false
    /\ pre +:+ version_label n <> EmptyString.
Proof.
  assert (replace_backslash (version_label n) = version_label n) as Hv.
  { apply replace_backslash_id. unfold version_label. simpl.
    apply all_digits_no_backslash, all_digits_format. }
  assert (version_label n <> EmptyString) as Hne by discriminate.
  assert (ends_with_slash (version_label n) = false) as Hs.
  { unfold version_label.
    rewrite (ends_with_slash_app "v") by apply format_03d_nonempty.
    apply all_digits_no_slash, all_digits_format. }
  assert (forall pre, ends_with_slash (pre +:+ version_label n) = false
                      /\ pre +:+ version_label n <> EmptyString) as Hpre.
  { intros pre. split; [now rewrite ends_with_slash_app|].
    destruct pre; [exact Hne|discriminate]. }
  unfold path_join.
  destruct (String.eqb root "" || ends_with_slash root).
  - exists (replace_backslash root).
    split; [now rewrite replace_backslash_app, Hv|apply Hpre].
  - exists (replace_backslash root +:+ "/").
    split; [|apply Hpre].
    rewrite !replace_backslash_app, Hv. simpl. now rewrite append_assoc.
Qed.

Lemma sub_dir (vd name : string) :
  ends_with_slash vd = false -> vd <> EmptyString ->
  replace_backslash vd = vd -> no_backslash name = true ->
  replace_backslash (path_join vd name) = vd +:+ "/" +:+ name.
Proof.
  intros Hs Hne Hvd Hname. unfold path_join. rewrite Hs, orb_false_r.
  destruct (String.eqb_spec vd ""); [contradiction|].
  rewrite !replace_backslash_app, Hvd. simpl.
  now rewrite (replace_backslash_id name).
Qed.

(** The version directory of the dictionary and its sub-directory of
    geometry variants. *)
Lemma publish_paths_dirs (env : environ) (top_node : string) (st st1 : dir_state)
  (p : paths) :
  get_publish_paths env top_node st = inr (p, st1) ->
  exists hal n,
    version_dir p
    = replace_backslash
        (path_join (path_join (path_join hal "_publish") "maya") (version_label n))
    /\ geoVariant_dir p = version_dir p +:+ "/geoVariants".
Proof.
  unfold get_publish_paths.
  destruct (publish_root env) as [e|hal]; [discriminate|]. cbv zeta.
  set (root := path_join (path_join hal "_publish") "maya").
  assert (Hgeo : forall n,
    replace_backslash
      (path_join (replace_backslash (path_join root (version_label n)))
                 "geoVariants")
    = replace_backslash (path_join root (version_label n)) +:+ "/geoVariants").
  { intros n. destruct (version_dir_shape root n) as (pre & Hvd & Hs & Hne).
    rewrite Hvd.
    assert (replace_backslash (pre +:+ version_label n)
            = pre +:+ version_label n) as Hid
        by (rewrite <- Hvd; apply replace_backslash_twice).
    now apply sub_dir. }
  intros H. exists hal.
  destruct st as [[|]| |es]; cbn match in H; try discriminate H.
  - exists (fold_left PublishPaths.scan_step [] 0%N).
    cbn [entry_kind] in H. injection H as <- _.
    cbn [version_dir geoVariant_dir]. split; [reflexivity|apply Hgeo].
  - exists (fold_left PublishPaths.scan_step es 0%N).
    destruct (entry_kind es _) as [[|]|]; try discriminate H;
      injection H as <- _; cbn [version_dir geoVariant_dir];
      (split; [reflexivity|apply Hgeo]).
Qed.



End PublishPathsFacts.

(** ** From the geometry loop to the assembly *)

Module LODFilesFacts.
Import Str StrFacts PyStr PyStrFacts VersionAllocator LODExport.
Import PublishPathsFacts.

Section Maya.

Variable Mesh : Type.
Variable polyReduce : Mesh -> Q -> option Mesh.
Variable polySoftEdge : Mesh -> option Mesh.
Variable polyCleanup : Mesh -> option Mesh.

Lemma geo_file_name (dir : string) (i : nat) :
  ends_with_slash dir = false -> dir <> EmptyString ->
  replace_backslash dir = dir ->
  replace_backslash
    (path_join dir ("geoVariant" +:+ "_" +:+ "geoLOD" +:+ str_of_nat i +:+ ".usdc"))
  = dir +:+ "/" +:+ "geoVariant_geoLOD" +:+ str_of_nat i +:+ ".usdc".
Proof.
  intros Hs Hne Hid. rewrite sub_dir; try assumption; [reflexivity|].
  change ("geoVariant" +:+ "_" +:+ "geoLOD" +:+ str_of_nat i +:+ ".usdc")
    with ("geoVariant_geoLOD" +:+ (str_of_nat i +:+ ".usdc")).
  rewrite !no_backslash_app. simpl. rewrite andb_true_r.
  apply all_digits_no_backslash.
  unfold str_of_nat. apply VersionAllocatorFacts.is_digit_char_of_uint.
Qed.

Lemma geo_file_name_inj (dir : string) (i j : nat) :
  dir +:+ "/" +:+ "geoVariant_geoLOD" +:+ str_of_nat i +:+ ".usdc"
  = dir +:+ "/" +:+ "geoVariant_geoLOD" +:+ str_of_nat j +:+ ".usdc" ->
  i = j.
Proof.
  intros H. apply append_inj_l in H.
  change ("/" +:+ "geoVariant_geoLOD" +:+ str_of_nat i +:+ ".usdc")
    with ("/geoVariant_geoLOD" +:+ (str_of_nat i +:+ ".usdc")) in H.
  change ("/" +:+ "geoVariant_geoLOD" +:+ str_of_nat j +:+ ".usdc")
    with ("/geoVariant_geoLOD" +:+ (str_of_nat j +:+ ".usdc")) in H.
  apply append_inj_l in H.
  apply str_of_nat_inj.
  assert (forall a b : string, a +:+ ".usdc" = b +:+ ".usdc" -> a = b) as Hr.
  { intros a b E.
    assert (String.length a = String.length b) as L.
    { apply (f_equal String.length) in E. rewrite !length_app in E. lia. }
    revert b E L. induction a as [|c a IH]; intros [|d b] E L;
      try discriminate; [reflexivity|].
    simpl in *. injection E as -> E. f_equal. apply IH; [exact E|lia]. }
  now apply Hr.
Qed.

Lemma single_lod_file (st : maya Mesh) top_name src dir i percent geo0 :
  scene Mesh st !! src = Some geo0 ->
  src <> top_name +:+ "_geoLOD" ->
  exists st',
    _create_single_lod_usd Mesh polyReduce polySoftEdge polyCleanup
      st top_name src dir "geoVariant" i percent
    = Some (st',
            replace_backslash
              (path_join dir ("geoVariant" +:+ "_" +:+ "geoLOD"
                              +:+ str_of_nat i +:+ ".usdc")))
    /\ scene Mesh st' !! src = Some geo0
    /\ files Mesh st'
       = <[replace_backslash
             (path_join dir ("geoVariant" +:+ "_" +:+ "geoLOD"
                             +:+ str_of_nat i +:+ ".usdc"))
           := map (fun m => fst (_reduce_with_cleanup Mesh polyReduce polySoftEdge
                                   polyCleanup m percent)) geo0]>
           (files Mesh st).
Proof.
  intros Hsrc Hne. unfold _create_single_lod_usd, duplicate_as.
  rewrite Hsrc. cbn [variant_suffix String.eqb Ascii.eqb Bool.eqb].
  change (top_name +:+ "_" +:+ "geoLOD") with (top_name +:+ "_geoLOD").
  set (tmp := top_name +:+ "_geoLOD") in *.
  unfold reduce_node, arnoldExportAss, delete_node. cbn [scene files reductions].
  rewrite lookup_insert_eq. cbn [scene files reductions].
  rewrite lookup_insert_eq. cbn [scene files reductions].
  eexists. split; [reflexivity|]. cbn [scene files reductions].
  split; [|reflexivity].
  rewrite lookup_delete_ne by congruence.
  rewrite !lookup_insert_ne by congruence. exact Hsrc.
Qed.


End Maya.


End LODFilesFacts.

(** ** The shape of the submission chain *)

Module ChainShapeFacts.
Import Deadline DeadlineFacts ChainShape.

Section Chain.

Variable deadlinecommand : list submission -> JobInfo -> PluginInfo -> option string.
Variable current_scene_name : string.
Variable safe_worker_path safe_json_path safe_oiio_path safe_manifest : string.
Variable sorted_files : list string.

Lemma appends_nil st : appends [] st (inr st).
Proof.
  exists []. destruct st as [farm deps]. simpl. rewrite !app_nil_r. auto.
Qed.

Lemma appends_bind t1 t2 st r f :
  appends t1 st r ->
  (forall st', appends t2 st' (f st')) ->
  appends (t1 ++ t2) st (bind r f).
Proof.
  intros (log1 & -> & H1 & D1) Hf.
  destruct (Hf (fst st ++ log1, snd st ++ collected_ids log1))
    as (log2 & E & H2 & D2).
  exists (log1 ++ log2). simpl in *. rewrite E.
  rewrite collected_ids_app, !app_assoc, map_app, H1, H2.
  split; [reflexivity|]. split; [reflexivity|]. now apply Forall_app.
Qed.

Lemma appends_submit st j p :
  JobDependencies j = None ->
  appends [(task_type p, extra_arg p)] st
    (then_append (snd st) (inr (submit_job deadlinecommand (fst st) j p))).
Proof.
  intros Hj. eexists [_]. unfold submit_job. simpl. split; [|split].
  - f_equal. f_equal. apply (append_if_id_collected _ {| sub_id := _ |}).
  - reflexivity.
  - repeat constructor. exact Hj.
Qed.

Lemma tex_stage_appends cfg st :
  appends (if do_tex cfg && negb (Nat.eqb (length sorted_files) 0)
           then [("<STARTFRAME> <ENDFRAME>", EmptyString)] else [])
    st (tex_stage deadlinecommand current_scene_name safe_oiio_path safe_manifest
          sorted_files cfg st).
Proof.
  unfold tex_stage. destruct (do_tex cfg); [|apply appends_nil].
  unfold submit_oiio_job. destruct sorted_files as [|f fs] eqn:E.
  - simpl. destruct st. apply appends_nil.
  - cbn [andb negb length Nat.eqb]. cbv zeta.
    unfold _get_Job_Info_Dict.
    apply (appends_submit st
             {| Name := _; Plugin := _; Frames := _; ChunkSize := _;
                JobDependencies := None |}
             (_get_Plugin_Info_Dict safe_oiio_path safe_manifest
                "<STARTFRAME> <ENDFRAME>" "")).
    reflexivity.
Qed.

Lemma geo_job_appends st task name extra :
  appends [(task, extra)] st
    (then_append (snd st)
       (submit_geo_job deadlinecommand current_scene_name safe_worker_path
          safe_json_path (fst st) task name extra)).
Proof.
  unfold submit_geo_job, _get_Job_Info_Dict.
  apply (appends_submit st
           {| Name := _; Plugin := _; Frames := _; ChunkSize := _;
              JobDependencies := None |}
           (_get_Plugin_Info_Dict safe_worker_path safe_json_path task extra)).
  reflexivity.
Qed.

Lemma proxy_stage_appends cfg st :
  appends (if has_proxy cfg then [("proxy", EmptyString)] else []) st
    (proxy_stage deadlinecommand current_scene_name safe_worker_path
       safe_json_path cfg st).
Proof.
  unfold proxy_stage. destruct (has_proxy cfg); [|apply appends_nil].
  apply geo_job_appends.
Qed.

Lemma lod_loop_appends levels : forall tasks st r,
  appends tasks st r ->
  appends (tasks ++ map (fun i => ("lod", Str.str_of_nat i)) levels) st
    (fold_left (fun acc i =>
                  bind acc (fun st =>
                    lod_step deadlinecommand current_scene_name safe_worker_path
                      safe_json_path st i))
               levels r).
Proof.
  induction levels as [|i levels IH]; intros tasks st r Hr; simpl.
  - now rewrite app_nil_r.
  - replace (tasks ++ ("lod", Str.str_of_nat i)
                   :: map (fun i0 => ("lod", Str.str_of_nat i0)) levels)
      with ((tasks ++ [("lod", Str.str_of_nat i)])
              ++ map (fun i0 => ("lod", Str.str_of_nat i0)) levels)
      by now rewrite <- app_assoc.
    apply IH. apply appends_bind; [assumption|].
    intros st'. apply geo_job_appends.
Qed.

Lemma lod_stage_appends cfg st :
  appends (if has_lods cfg
           then map (fun i => ("lod", Str.str_of_nat i))
                    (seq 1 (Z.to_nat (lod_count cfg)))
           else []) st
    (lod_stage deadlinecommand current_scene_name safe_worker_path
       safe_json_path cfg st).
Proof.
  unfold lod_stage. destruct (has_lods cfg); [|apply appends_nil].
  apply (lod_loop_appends _ [] st (inr st)), appends_nil.
Qed.

Lemma all_ids_cons_collected o log :
  all_ids (o :: collected_ids log)
  = match o with
    | Some x => option_map (cons x) (all_ids (collected_ids log))
    | None => None
    end.
Proof.
  destruct o as [x|]; [|reflexivity]. simpl.
  now destruct (all_ids (collected_ids log)).
Qed.


End Chain.

End ChainShapeFacts.

(** ** Texture LOD names *)

Module TextureNamesFacts.
Import Str StrFacts PyStr PyStrFacts TextureNames.

(** *** Lengths *)

Lemma length_join sep (l : list string) :
  String.length (join sep l)
  = (total_length l + String.length sep * (length l - 1))%nat.
Proof.
  induction l as [|x l IH]; [simpl; lia|].
  destruct l as [|y l]; [simpl; lia|].
  rewrite join_cons, !length_app, IH. cbn [total_length length]. lia.
Qed.

Lemma total_length_app l1 l2 :
  total_length (l1 ++ l2) = (total_length l1 + total_length l2)%nat.
Proof. induction l1 as [|x l1 IH]; simpl; [reflexivity|]. rewrite IH. lia. Qed.

Lemma length_replace_backslash s :
  String.length (replace_backslash s) = String.length s.
Proof. induction s as [|c s IH]; simpl; [reflexivity|]. now rewrite IH. Qed.

Lemma firstn_skipn_total (i : nat) (l : list string) :
  (total_length (firstn i l) + total_length (skipn i l))%nat = total_length l.
Proof. now rewrite <- total_length_app, firstn_skipn. Qed.

Lemma insert_at_total (i : nat) x (l : list string) :
  total_length (insert_at i x l) = (String.length x + total_length l)%nat.
Proof.
  unfold insert_at. rewrite total_length_app. cbn [total_length].
  pose proof (firstn_skipn_total i l). lia.
Qed.

Lemma insert_at_length {A} (i : nat) (x : A) (l : list A) :
  length (insert_at i x l) = S (length l).
Proof.
  unfold insert_at. rewrite List.length_app. cbn [length].
  rewrite <- (firstn_skipn i l) at 3. rewrite List.length_app. lia.
Qed.

Lemma removelast_last_total (l : list string) :
  l <> [] ->
  (total_length (removelast l) + String.length (List.last l EmptyString))%nat
  = total_length l.
Proof.
  induction l as [|x l IH]; intros Hne; [contradiction|].
  destruct l as [|y l]; [simpl; lia|].
  cbn [removelast List.last total_length] in *. rewrite <- IH by discriminate.
  cbn [removelast List.last total_length]. lia.
Qed.

Lemma set_last_length {A} (l : list A) (x : A) :
  l <> [] -> length (set_last l x) = length l.
Proof.
  intros Hne. unfold set_last. rewrite List.length_app. cbn [length].
  rewrite (app_removelast_last x Hne) at 2. rewrite List.length_app. simpl. lia.
Qed.

(** *** [os.path.splitext] *)

Lemma split_last_dot_app s stem ext :
  split_last_dot s = Some (stem, ext) -> s = stem +:+ ext.
Proof.
  revert stem ext. induction s as [|c s IH]; intros stem ext; [discriminate|].
  simpl. destruct (split_last_dot s) as [[st ex]|].
  - intros [= <- <-]. simpl. now rewrite <- (IH st ex).
  - destruct (Ascii.eqb c "."); [|discriminate]. now intros [= <- <-].
Qed.

Lemma splitext_app n : fst (splitext n) +:+ snd (splitext n) = n.
Proof.
  unfold splitext. destruct (split_last_dot n) as [[stem ext]|] eqn:E.
  - destruct (all_dots stem); simpl; [apply append_nil_r|].
    symmetry. now apply split_last_dot_app.
  - simpl. apply append_nil_r.
Qed.

(** *** The farm script never writes over its source *)

Lemma split_on_total sep s :
  (total_length (split_on sep s) + (length (split_on sep s) - 1))%nat
  = String.length s.
Proof.
  rewrite <- (join_split_on sep s) at 3. rewrite length_join. simpl. lia.
Qed.

Lemma set_last_total (l : list string) x :
  l <> [] ->
  (total_length (set_last l x) + String.length (List.last l EmptyString))%nat
  = (total_length l + String.length x)%nat.
Proof.
  intros Hne. unfold set_last. rewrite total_length_app. cbn [total_length].
  pose proof (removelast_last_total l Hne). lia.
Qed.

(** The destination the farm script computes is longer than its source
    by the LOD name and a slash, and by them once more when the file
    name does not carry the suffix yet: it is never the source itself,
    whatever the separators of the source. *)
Theorem farm_get_dst_path_is_not_the_source (src lod : string) :
  (String.length (farm_get_dst_path src lod)
   = (String.length src + 1 + String.length lod)%nat
   \/ String.length (farm_get_dst_path src lod)
      = (String.length src + 2 + 2 * String.length lod)%nat)
  /\ farm_get_dst_path src lod <> src
  /\ farm_get_dst_path src lod <> replace_backslash src.
Proof.
  assert (Hlen : String.length (farm_get_dst_path src lod)
                 = (String.length src + 1 + String.length lod)%nat
                 \/ String.length (farm_get_dst_path src lod)
                    = (String.length src + 2 + 2 * String.length lod)%nat).
  { unfold farm_get_dst_path.
    set (parts := split_on "/" (replace_backslash src)).
    set (P := match last_index_of "export" parts with
              | Some k => insert_at (k + 1) lod parts
              | None => insert_at (length parts - 1) lod parts
              end).
    assert (exists i, P = insert_at i lod parts) as [i HP]
        by (unfold P; destruct (last_index_of "export" parts); eauto).
    assert (P <> []) as HPne.
    { intros E. apply (f_equal (@length string)) in E.
      rewrite HP, insert_at_length in E. discriminate. }
    pose proof (split_on_total "/" (replace_backslash src)) as Hsrc.
    fold parts in Hsrc. rewrite length_replace_backslash in Hsrc.
    assert (length parts <> 0%nat) as Hparts.
    { unfold parts. pose proof (split_on_nonempty "/" (replace_backslash src)).
      destruct (split_on "/" (replace_backslash src)); [contradiction|discriminate]. }
    pose proof (splitext_app (List.last P EmptyString)) as Hext.
    destruct (splitext (List.last P EmptyString)) as [stem ext].
    cbn [fst snd] in Hext.
    destruct (endswith ("_" +:+ lod) stem).
    - left. rewrite length_join, HP, insert_at_total, insert_at_length.
      simpl String.length. lia.
    - right. rewrite length_join, set_last_length by assumption.
      pose proof (set_last_total P (stem +:+ "_" +:+ lod +:+ ext) HPne) as Ht.
      apply (f_equal String.length) in Hext. rewrite !length_app in Ht, Hext.
      rewrite HP, insert_at_total, insert_at_length in *.
      simpl String.length in *. rewrite !length_app in Ht. lia. }
  split; [exact Hlen|]. split.
  - intros E. rewrite E in Hlen. lia.
  - intros E. rewrite E, length_replace_backslash in Hlen. lia.
Qed.

(** *** Directory and file name *)

Lemma has_slash_contains s : TextureLOD.has_slash s = contains_char "/" s.
Proof. induction s as [|c s IH]; simpl; [reflexivity|]. now rewrite IH. Qed.

Lemma has_slash_app a b :
  TextureLOD.has_slash (a +:+ b)
  = TextureLOD.has_slash a || TextureLOD.has_slash b.
Proof.
  induction a as [|c a IH]; simpl; [reflexivity|]. now rewrite IH, orb_assoc.
Qed.

Lemma has_slash_sep_app x f : TextureLOD.has_slash (x +:+ "/" +:+ f) = true.
Proof. rewrite !has_slash_app. simpl. apply orb_true_r. Qed.

Lemma head_no_slash f :
  TextureLOD.has_slash f = false -> TextureLOD.head_upto_last_slash f = "".
Proof.
  destruct f as [|c f]; [reflexivity|]. intros H.
  cbn [TextureLOD.head_upto_last_slash]. now rewrite H.
Qed.

Lemma head_upto_last_slash_app x f :
  TextureLOD.has_slash f = false ->
  TextureLOD.head_upto_last_slash (x +:+ "/" +:+ f) = x +:+ "/".
Proof.
  intros Hf. induction x as [|c x IH].
  - change ("" +:+ "/" +:+ f) with (String "/" f).
    cbn [TextureLOD.head_upto_last_slash].
    change (TextureLOD.has_slash (String "/" f)) with (true || TextureLOD.has_slash f).
    cbn [orb]. now rewrite head_no_slash.
  - change (String c x +:+ "/" +:+ f) with (String c (x +:+ "/" +:+ f)).
    cbn [TextureLOD.head_upto_last_slash].
    change (TextureLOD.has_slash (String c (x +:+ "/" +:+ f)))
      with (Ascii.eqb c Str.slash || TextureLOD.has_slash (x +:+ "/" +:+ f)).
    rewrite has_slash_sep_app, orb_true_r, IH. reflexivity.
Qed.

Lemma basename_no_slash f : TextureLOD.has_slash f = false -> basename f = f.
Proof.
  destruct f as [|c f]; [reflexivity|]. intros H.
  cbn [basename]. now rewrite H.
Qed.

Lemma basename_app x f :
  TextureLOD.has_slash f = false -> basename (x +:+ "/" +:+ f) = f.
Proof.
  intros Hf. induction x as [|c x IH].
  - change ("" +:+ "/" +:+ f) with (String "/" f).
    cbn [basename].
    change (TextureLOD.has_slash (String "/" f)) with (true || TextureLOD.has_slash f).
    cbn [orb]. now apply basename_no_slash.
  - change (String c x +:+ "/" +:+ f) with (String c (x +:+ "/" +:+ f)).
    cbn [basename].
    change (TextureLOD.has_slash (String c (x +:+ "/" +:+ f)))
      with (Ascii.eqb c Str.slash || TextureLOD.has_slash (x +:+ "/" +:+ f)).
    now rewrite has_slash_sep_app, orb_true_r.
Qed.

Lemma rstrip_slashes_app x :
  x <> "" -> VersionAllocator.ends_with_slash x = false ->
  TextureLOD.all_slashes (x +:+ "/") = false
  /\ TextureLOD.rstrip_slashes (x +:+ "/") = x.
Proof.
  induction x as [|c x IH]; intros Hne Hend; [contradiction|].
  destruct x as [|c' x'].
  - change (Ascii.eqb c Str.slash = false) in Hend.
    change (String c "" +:+ "/") with (String c "/").
    assert (TextureLOD.all_slashes (String c "/") = false) as Hall
        by (change (Ascii.eqb c Str.slash && true = false); now rewrite Hend).
    split; [exact Hall|].
    cbn [TextureLOD.rstrip_slashes]. rewrite Hall. reflexivity.
  - destruct IH as [Ha Hr]; [discriminate|exact Hend|].
    change (String c (String c' x') +:+ "/")
      with (String c (String c' x' +:+ "/")).
    assert (TextureLOD.all_slashes (String c (String c' x' +:+ "/")) = false)
      as Hall.
    { change (Ascii.eqb c Str.slash
              && TextureLOD.all_slashes (String c' x' +:+ "/") = false).
      rewrite Ha. apply andb_false_r. }
    split; [exact Hall|].
    cbn [TextureLOD.rstrip_slashes]. now rewrite Hall, Hr.
Qed.

Lemma dirname_app x f :
  x <> "" -> VersionAllocator.ends_with_slash x = false ->
  TextureLOD.has_slash f = false ->
  TextureLOD.dirname (x +:+ "/" +:+ f) = x.
Proof.
  intros Hne Hend Hf. unfold TextureLOD.dirname.
  rewrite head_upto_last_slash_app by assumption.
  destruct (rstrip_slashes_app x Hne Hend) as [-> ->]. reflexivity.
Qed.

Lemma startswith_slash n :
  TextureLOD.has_slash n = false -> Str.startswith "/" n = false.
Proof.
  destruct n as [|c n]; [reflexivity|].
  change (TextureLOD.has_slash (String c n))
    with (Ascii.eqb c "/" || TextureLOD.has_slash n).
  intros [H _]%orb_false_iff.
  change (Ascii.eqb "/" c && true = false).
  now rewrite Ascii.eqb_sym, H.
Qed.

Lemma os_path_join_plain d n :
  d <> "" -> VersionAllocator.ends_with_slash d = false ->
  TextureLOD.has_slash n = false ->
  os_path_join d n = d +:+ "/" +:+ n.
Proof.
  intros Hne Hend Hn. unfold os_path_join.
  rewrite startswith_slash, Hend by assumption.
  destruct (String.eqb_spec d ""); [contradiction|reflexivity].
Qed.

(** *** The LOD folder goes before the file name *)

Lemma insert_before_last {A} (x d : A) (l : list A) :
  l <> [] ->
  insert_at (length l - 1) x l = removelast l ++ [x; List.last l d].
Proof.
  intros Hne. destruct (exists_last Hne) as (init & a & ->).
  rewrite removelast_last, last_last. unfold insert_at.
  rewrite List.length_app. cbn [length].
  replace (length init + 1 - 1)%nat with (length init + 0)%nat by lia.
  rewrite firstn_app_2, skipn_app. cbn [firstn].
  rewrite Nat.add_0_r, skipn_all, app_nil_r.
  replace (length init - length init)%nat with 0%nat by lia. reflexivity.
Qed.

Lemma join_snoc sep (l : list string) x :
  l <> [] -> join sep (l ++ [x]) = join sep l +:+ sep +:+ x.
Proof.
  induction l as [|a l IH]; [contradiction|]. intros _.
  destruct l as [|b l]; [reflexivity|].
  change ((a :: b :: l) ++ [x]) with (a :: b :: (l ++ [x])).
  rewrite !join_cons. change (b :: l ++ [x]) with ((b :: l) ++ [x]).
  rewrite IH by discriminate. now rewrite !append_assoc.
Qed.

(** What comes before the last segment of a joined path does not depend
    on that segment. *)
Lemma join_snoc_prefix sep (l : list string) :
  exists P, forall x, join sep (l ++ [x]) = P +:+ x.
Proof.
  destruct l as [|a l].
  - now exists "".
  - exists (join sep (a :: l) +:+ sep). intros x.
    rewrite join_snoc by discriminate. now rewrite append_assoc.
Qed.

Lemma ends_no_slash s :
  TextureLOD.has_slash s = false -> VersionAllocator.ends_with_slash s = false.
Proof.
  induction s as [|c s IH]; [reflexivity|].
  change (TextureLOD.has_slash (String c s))
    with (Ascii.eqb c Str.slash || TextureLOD.has_slash s).
  intros [Hc Hs]%orb_false_iff.
  destruct s as [|c' s']; [exact Hc|]. now apply IH.
Qed.

(** The destination of the farm script when the LOD folder is put right
    before the file name. *)
Lemma farm_plain src lod :
  (forall k, last_index_of "export" (split_on "/" (replace_backslash src)) = Some k ->
             (k + 2)%nat = length (split_on "/" (replace_backslash src))) ->
  farm_get_dst_path src lod
  = join "/" (removelast (split_on "/" (replace_backslash src)) ++ [lod])
    +:+ "/" +:+
    (let '(stem, ext) :=
       splitext (List.last (split_on "/" (replace_backslash src)) "") in
     if endswith ("_" +:+ lod) stem
     then List.last (split_on "/" (replace_backslash src)) ""
     else stem +:+ "_" +:+ lod +:+ ext).
Proof.
  intros Hk. unfold farm_get_dst_path.
  set (parts := split_on "/" (replace_backslash src)) in *.
  assert (parts <> []) as Hne by apply split_on_nonempty.
  assert (match last_index_of "export" parts with
          | Some k => insert_at (k + 1) lod parts
          | None => insert_at (length parts - 1) lod parts
          end = (removelast parts ++ [lod]) ++ [List.last parts ""]) as ->.
  { rewrite <- app_assoc. cbn [app].
    rewrite <- (insert_before_last lod "" parts Hne).
    destruct (last_index_of "export" parts) as [k|]; [|reflexivity].
    f_equal. specialize (Hk k eq_refl). lia. }
  rewrite last_last.
  destruct (splitext (List.last parts "")) as [stem ext].
  destruct (endswith ("_" +:+ lod) stem).
  - apply join_snoc. now destruct (removelast parts).
  - unfold set_last. rewrite removelast_last.
    apply join_snoc. now destruct (removelast parts).
Qed.

Lemma nonempty_app_r (s t : string) : t <> "" -> s +:+ t <> "".
Proof. destruct s; simpl; [tauto|discriminate]. Qed.

(** The destination of the local converter when the LOD folder is put
    right before the file name and the name holds no UDIM token. *)
Lemma local_plain src lod :
  (forall idx,
      first_index (fun seg => String.eqb (lower seg) "export")
        (split_on "/" (replace_backslash src)) = Some idx ->
      (idx + 2 <= length (split_on "/" (replace_backslash src)) <= idx + 3)%nat) ->
  find_udim (List.last (split_on "/" (replace_backslash src)) "") = None ->
  lod <> "" -> TextureLOD.has_slash lod = false -> no_backslash lod = true ->
  get_dst_path src lod
  = join "/" (removelast (split_on "/" (replace_backslash src)) ++ [lod])
    +:+ "/" +:+
    (let '(stem, ext) :=
       splitext (List.last (split_on "/" (replace_backslash src)) "") in
     if endswith ("_" +:+ lod) stem
     then List.last (split_on "/" (replace_backslash src)) ""
     else stem +:+ "_" +:+ lod +:+ ext).
Proof.
  intros Hidx Hudim Hlod Hslash Hback. unfold get_dst_path.
  pose proof (last_piece_no_sep "/" (replace_backslash src)) as Hf.
  unfold last_piece in Hf. rewrite <- has_slash_contains in Hf.
  pose proof (join_split_on "/" (replace_backslash src)) as Hsrc.
  set (parts := split_on "/" (replace_backslash src)) in *.
  assert (parts <> []) as Hne by apply split_on_nonempty.
  assert (match first_index (fun seg => String.eqb (lower seg) "export") parts with
          | Some idx =>
              if Nat.ltb (idx + 1) (length parts - 1)
              then insert_at (idx + 2) lod parts
              else insert_at (idx + 1) lod parts
          | None => insert_at (length parts - 1) lod parts
          end = (removelast parts ++ [lod]) ++ [List.last parts ""]) as ->.
  { rewrite <- app_assoc. cbn [app].
    rewrite <- (insert_before_last lod "" parts Hne).
    destruct (first_index _ parts) as [idx|]; [|reflexivity].
    specialize (Hidx idx eq_refl).
    destruct (Nat.ltb_spec (idx + 1) (length parts - 1)); f_equal; lia. }
  set (f := List.last parts "") in *.
  destruct (join_snoc_prefix "/" (removelast parts)) as [P HP].
  rewrite (app_removelast_last "" Hne) in Hsrc. fold f in Hsrc.
  rewrite HP in Hsrc.
  assert (no_backslash P = true /\ no_backslash f = true) as [HbP Hbf].
  { apply andb_true_iff. rewrite <- no_backslash_app, Hsrc.
    apply replace_backslash_no_backslash. }
  rewrite join_snoc by now destruct (removelast parts).
  rewrite HP.
  assert (P +:+ lod <> "") as HJ by now apply nonempty_app_r.
  assert (VersionAllocator.ends_with_slash (P +:+ lod) = false) as HJe.
  { rewrite PublishPathsFacts.ends_with_slash_app by assumption.
    now apply ends_no_slash. }
  unfold path_split. rewrite dirname_app, basename_app by assumption.
  rewrite Hudim.
  pose proof (splitext_app f) as Hext.
  destruct (splitext f) as [stem ext]. cbn [fst snd] in Hext.
  assert (TextureLOD.has_slash stem = false /\ TextureLOD.has_slash ext = false)
    as [Hss Hse].
  { apply orb_false_iff. now rewrite <- has_slash_app, Hext. }
  assert (no_backslash stem = true /\ no_backslash ext = true) as [Hbs Hbe].
  { apply andb_true_iff. now rewrite <- no_backslash_app, Hext. }
  destruct (endswith ("_" +:+ lod) stem).
  - rewrite os_path_join_plain by assumption.
    apply replace_backslash_id.
    now rewrite !no_backslash_app, HbP, Hback, Hbf.
  - rewrite os_path_join_plain; [|assumption|assumption|].
    + apply replace_backslash_id.
      rewrite !no_backslash_app, HbP, Hback, Hbs, Hbe. reflexivity.
    + rewrite !has_slash_app, Hss, Hslash, Hse. reflexivity.
Qed.

(** The local converter and the farm script write a texture to the same
    place whenever both put the LOD folder right before the file name:
    when the first folder named export, in any case of letters, is the
    parent of the file or the parent of that one, and the last folder
    named export in lower case is the parent of the file, or when there
    is no such folder; the file name holds no UDIM token, and the name
    of the LOD is not empty and has no separator. *)
Theorem local_and_farm_destinations_agree src lod :
  (forall idx,
      first_index (fun seg => String.eqb (lower seg) "export")
        (split_on "/" (replace_backslash src)) = Some idx ->
      (idx + 2 <= length (split_on "/" (replace_backslash src)) <= idx + 3)%nat) ->
  (forall k,
      last_index_of "export" (split_on "/" (replace_backslash src)) = Some k ->
      (k + 2)%nat = length (split_on "/" (replace_backslash src))) ->
  find_udim (List.last (split_on "/" (replace_backslash src)) "") = None ->
  lod <> "" -> TextureLOD.has_slash lod = false -> no_backslash lod = true ->
  get_dst_path src lod = farm_get_dst_path src lod.
Proof.
  intros Hidx Hk Hudim Hlod Hslash Hback.
  rewrite local_plain, farm_plain by assumption. reflexivity.
Qed.

Lemma local_and_farm_destinations_agree_witness :
  get_dst_path "C:\proj\Export\wood.v2.png" "LOD2"
  = farm_get_dst_path "C:\proj\Export\wood.v2.png" "LOD2".
Proof.
  apply local_and_farm_destinations_agree.
  - intros idx H. vm_compute in H. injection H as <-. vm_compute. lia.
  - intros k H. vm_compute in H. discriminate H.
  - vm_compute. reflexivity.
  - discriminate.
  - vm_compute. reflexivity.
  - vm_compute. reflexivity.
Defined.

(** *** The path the LOD switch writes into a shader *)

Lemma split_on_dir_file d0 f :
  TextureLOD.has_slash f = false ->
  split_on "/" (d0 +:+ "/" +:+ f) = split_on "/" d0 ++ [f].
Proof.
  intros Hf. change (d0 +:+ "/" +:+ f) with (d0 +:+ String "/" f).
  rewrite split_on_app, (split_on_no_sep "/" f); [reflexivity|].
  now rewrite <- has_slash_contains.
Qed.

Lemma all_digits_has_no_slash s :
  VersionAllocator.all_digits s = true -> TextureLOD.has_slash s = false.
Proof.
  induction s as [|c s IH]; [reflexivity|]. cbn.
  intros [Hc Hs]%andb_true_iff. rewrite (IH Hs), orb_false_r.
  unfold VersionAllocator.is_digit in Hc.
  destruct (Ascii.eqb_spec c Str.slash) as [->|]; [discriminate Hc|reflexivity].
Qed.

Lemma lod_name_plain level :
  "LOD" +:+ str_of_nat level <> ""
  /\ TextureLOD.has_slash ("LOD" +:+ str_of_nat level) = false
  /\ no_backslash ("LOD" +:+ str_of_nat level) = true.
Proof.
  assert (VersionAllocator.all_digits (str_of_nat level) = true) as Hd
      by apply VersionAllocatorFacts.is_digit_char_of_uint.
  split; [discriminate|]. split.
  - rewrite has_slash_app. now rewrite (all_digits_has_no_slash _ Hd).
  - rewrite no_backslash_app.
    now rewrite (PublishPathsFacts.all_digits_no_backslash _ Hd).
Qed.

(** [_to_lod_path] on a path with a directory and a file name without
    UDIM token. *)
Lemma to_lod_plain d0 f level :
  d0 <> "" -> VersionAllocator.ends_with_slash d0 = false ->
  TextureLOD.has_slash f = false -> find_udim f = None ->
  _to_lod_path (d0 +:+ "/" +:+ f) level
  = (d0 +:+ "/" +:+ "LOD" +:+ str_of_nat level) +:+ "/" +:+
    (let '(stem, ext) := splitext f in
     if endswith ("_" +:+ "LOD" +:+ str_of_nat level) stem then f
     else stem +:+ "_" +:+ "LOD" +:+ str_of_nat level +:+ ext).
Proof.
  intros Hne Hend Hf Hudim. unfold _to_lod_path.
  rewrite dirname_app, basename_app by assumption. rewrite Hudim.
  destruct (splitext f) as [stem ext]. reflexivity.
Qed.



(** *** Switching back to the original texture *)

Lemma startswith_app_false p : forall X Y,
  startswith p (X +:+ Y) = false -> startswith p X = false.
Proof.
  induction p as [|a p IH]; intros X Y; [discriminate|].
  destruct X as [|b X]; [reflexivity|].
  change (String b X +:+ Y) with (String b (X +:+ Y)). cbn [startswith].
  destruct (Ascii.eqb a b); [apply IH|reflexivity].
Qed.

Lemma has_sub_app_l p X Y : has_sub p (X +:+ Y) = false -> has_sub p X = false.
Proof.
  induction X as [|c X IH].
  - destruct p as [|a p]; [|reflexivity].
    destruct Y; cbn; discriminate.
  - change (String c X +:+ Y) with (String c (X +:+ Y)).
    cbn [has_sub]. intros [Hs Hr]%orb_false_iff.
    rewrite (IH Hr), orb_false_r.
    now apply (startswith_app_false p (String c X) Y).
Qed.

Lemma has_sub_app_r p X Y : has_sub p (X +:+ Y) = false -> has_sub p Y = false.
Proof.
  induction X as [|c X IH]; [trivial|].
  change (String c X +:+ Y) with (String c (X +:+ Y)).
  cbn [has_sub]. intros [_ Hr]%orb_false_iff. now apply IH.
Qed.

Lemma lod_not_across X c r :
  c <> "L"%char -> c <> "O"%char -> c <> "D"%char ->
  startswith "LOD" (X +:+ String c r) = true -> startswith "LOD" X = true.
Proof.
  intros HL HO HD.
  destruct X as [|x1 [|x2 [|x3 X]]]; cbn [String.append startswith]; intros H;
    repeat (apply andb_true_iff in H as [? H]);
    repeat match goal with
           | E : Ascii.eqb _ _ = true |- _ => apply Ascii.eqb_eq in E
           end;
    try congruence.
  subst. reflexivity.
Qed.

Lemma has_sub_startswith p X : has_sub p X = false -> startswith p X = false.
Proof. destruct X; cbn [has_sub]; now intros [H _]%orb_false_iff. Qed.

(** A text without the letters LOD is passed unchanged by a pattern that
    needs them after its first character. *)
Lemma re_sub_prefix m repl X c r :
  (forall s, startswith "LOD" (drop 1 s) = false -> m s = None) ->
  has_sub "LOD" X = false ->
  c <> "L"%char -> c <> "O"%char -> c <> "D"%char ->
  re_sub m repl 0 (X +:+ String c r) = X +:+ re_sub m repl 0 (String c r).
Proof.
  intros Hm Hsub HL HO HD. induction X as [|x X IH]; [reflexivity|].
  change (String x X +:+ String c r) with (String x (X +:+ String c r)).
  cbn [has_sub] in Hsub. apply orb_false_iff in Hsub as [Hs Hr].
  cbn [re_sub]. rewrite Hm.
  - now rewrite IH.
  - cbn [drop].
    destruct (startswith "LOD" (X +:+ String c r)) eqn:E; [|reflexivity].
    apply lod_not_across in E; try assumption.
    now rewrite (has_sub_startswith _ _ Hr) in E.
Qed.

Lemma re_sub_no_lod m repl X :
  (forall s, startswith "LOD" (drop 1 s) = false -> m s = None) ->
  has_sub "LOD" X = false -> re_sub m repl 0 X = X.
Proof.
  intros Hm Hsub. induction X as [|x X IH]; [reflexivity|].
  cbn [has_sub] in Hsub. apply orb_false_iff in Hsub as [Hs Hr].
  cbn [re_sub]. rewrite Hm.
  - now rewrite IH.
  - cbn [drop]. now apply has_sub_startswith.
Qed.

Lemma re_sub_skip m repl A Y :
  re_sub m repl (String.length A) (A +:+ Y) = re_sub m repl 0 Y.
Proof. induction A as [|a A IH]; [reflexivity|]. exact IH. Qed.

Lemma drop_app A Y : drop (String.length A) (A +:+ Y) = Y.
Proof. induction A as [|a A IH]; [reflexivity|]. exact IH. Qed.

Lemma digit_run_app ds b :
  VersionAllocator.all_digits ds = true ->
  digit_run (ds +:+ b) = (String.length ds + digit_run b)%nat.
Proof.
  induction ds as [|c ds IH]; [reflexivity|]. cbn.
  intros [Hc Hs]%andb_true_iff. now rewrite Hc, IH.
Qed.

Lemma match_lod_dir_needs_lod s :
  startswith "LOD" (drop 1 s) = false -> match_lod_dir s = None.
Proof.
  unfold match_lod_dir. destruct s as [|c s]; [reflexivity|].
  cbn [drop]. intros H.
  change (startswith "/LOD" (String c s))
    with (Ascii.eqb "/" c && startswith "LOD" s).
  now rewrite H, andb_false_r.
Qed.

Lemma match_lod_suffix_needs_lod s :
  startswith "LOD" (drop 1 s) = false -> match_lod_suffix s = None.
Proof.
  unfold match_lod_suffix. destruct s as [|c s]; [reflexivity|].
  cbn [drop]. intros H.
  change (startswith "_LOD" (String c s))
    with (Ascii.eqb "_" c && startswith "LOD" s).
  now rewrite H, andb_false_r.
Qed.

Lemma nonempty_length (s : string) : s <> "" -> Nat.ltb 0 (String.length s) = true.
Proof. destruct s; [contradiction|reflexivity]. Qed.

Lemma match_lod_dir_hit ds Y :
  VersionAllocator.all_digits ds = true -> ds <> "" ->
  match_lod_dir ("/LOD" +:+ ds +:+ "/" +:+ Y) = Some (5 + String.length ds)%nat.
Proof.
  intros Hd Hne. unfold match_lod_dir.
  change (startswith "/LOD" ("/LOD" +:+ ds +:+ "/" +:+ Y)) with true.
  cbn iota.
  change (drop 4 ("/LOD" +:+ ds +:+ "/" +:+ Y)) with (ds +:+ "/" +:+ Y).
  rewrite digit_run_app by assumption.
  change (digit_run ("/" +:+ Y)) with 0%nat. rewrite Nat.add_0_r.
  change (drop (4 + String.length ds) ("/LOD" +:+ ds +:+ "/" +:+ Y))
    with (drop (String.length ds) (ds +:+ "/" +:+ Y)).
  rewrite drop_app, nonempty_length by assumption. reflexivity.
Qed.

Lemma starts_with_mark_no_digit b :
  startswith "." b || startswith "<" b = true -> digit_run b = 0%nat.
Proof.
  destruct b as [|c b]; [reflexivity|]. cbn [startswith digit_run].
  destruct (Ascii.eqb_spec "." c) as [<-|]; [reflexivity|].
  destruct (Ascii.eqb_spec "<" c) as [<-|]; [reflexivity|discriminate].
Qed.

Lemma match_lod_suffix_hit ds b :
  VersionAllocator.all_digits ds = true -> ds <> "" ->
  startswith "." b || startswith "<" b = true ->
  match_lod_suffix ("_LOD" +:+ ds +:+ b) = Some (4 + String.length ds)%nat.
Proof.
  intros Hd Hne Hb. unfold match_lod_suffix.
  change (startswith "_LOD" ("_LOD" +:+ ds +:+ b)) with true.
  cbn iota.
  change (drop 4 ("_LOD" +:+ ds +:+ b)) with (ds +:+ b).
  rewrite digit_run_app, (starts_with_mark_no_digit b), Nat.add_0_r by assumption.
  change (drop (4 + String.length ds) ("_LOD" +:+ ds +:+ b))
    with (drop (String.length ds) (ds +:+ b)).
  rewrite drop_app, nonempty_length, Hb by assumption. reflexivity.
Qed.

Lemma re_sub_dir_no_slash repl s :
  TextureLOD.has_slash s = false -> re_sub match_lod_dir repl 0 s = s.
Proof.
  induction s as [|c s IH]; [reflexivity|].
  change (TextureLOD.has_slash (String c s))
    with (Ascii.eqb c "/" || TextureLOD.has_slash s).
  intros [Hc Hs]%orb_false_iff. cbn [re_sub].
  assert (match_lod_dir (String c s) = None) as ->.
  { unfold match_lod_dir.
    change (startswith "/LOD" (String c s))
      with (Ascii.eqb "/" c && startswith "LOD" s).
    now rewrite Ascii.eqb_sym, Hc. }
  now rewrite IH.
Qed.

Lemma re_sub_hit m repl c r k A Y :
  m (String c r) = Some (S k) -> k = String.length A -> r = A +:+ Y ->
  re_sub m repl 0 (String c r) = repl +:+ re_sub m repl 0 Y.
Proof.
  intros Hm -> ->. cbn [re_sub]. rewrite Hm.
  replace (S (String.length A) - 1)%nat with (String.length A) by lia.
  now rewrite re_sub_skip.
Qed.

(** Both substitutions of [_to_original_path] on a path with one LOD
    folder and one LOD suffix, the suffix standing before a dot or a
    UDIM token. *)
Lemma to_original_core d0 a b ds :
  has_sub "LOD" (d0 +:+ "/" +:+ a +:+ b) = false ->
  TextureLOD.has_slash (a +:+ b) = false ->
  VersionAllocator.all_digits ds = true -> ds <> "" ->
  startswith "." b || startswith "<" b = true ->
  _to_original_path
    (d0 +:+ "/LOD" +:+ ds +:+ "/" +:+ a +:+ "_LOD" +:+ ds +:+ b)
  = d0 +:+ "/" +:+ a +:+ b.
Proof.
  intros Hsub Hslash Hd Hne Hb. unfold _to_original_path.
  assert (TextureLOD.has_slash a = false /\ TextureLOD.has_slash b = false)
    as [Hsa Hsb] by (apply orb_false_iff; now rewrite <- has_slash_app).
  (* the folder *)
  assert (re_sub match_lod_dir "/" 0
            (d0 +:+ "/LOD" +:+ ds +:+ "/" +:+ a +:+ "_LOD" +:+ ds +:+ b)
          = d0 +:+ "/" +:+ a +:+ "_LOD" +:+ ds +:+ b) as ->.
  { change (d0 +:+ "/LOD" +:+ ds +:+ "/" +:+ a +:+ "_LOD" +:+ ds +:+ b)
      with (d0 +:+ String "/" ("LOD" +:+ ds +:+ "/" +:+ a +:+ "_LOD" +:+ ds +:+ b)).
    rewrite re_sub_prefix;
      [|apply match_lod_dir_needs_lod|now apply has_sub_app_l in Hsub
       |discriminate|discriminate|discriminate].
    f_equal.
    rewrite (re_sub_hit match_lod_dir "/" "/" _ (4 + String.length ds)
               ("LOD" +:+ ds +:+ "/") (a +:+ "_LOD" +:+ ds +:+ b)).
    - f_equal. apply re_sub_dir_no_slash.
      rewrite !has_slash_app, Hsa, Hsb, (all_digits_has_no_slash _ Hd).
      reflexivity.
    - now apply (match_lod_dir_hit ds (a +:+ "_LOD" +:+ ds +:+ b)).
    - cbn [String.append String.length]. rewrite length_app. cbn. lia.
    - cbn [String.append]. now rewrite !append_assoc. }
  (* the suffix *)
  assert (has_sub "LOD" ((d0 +:+ "/") +:+ a) = false) as HX.
  { apply (has_sub_app_l _ _ b). now rewrite !append_assoc. }
  assert (has_sub "LOD" b = false) as HB.
  { apply (has_sub_app_r _ ((d0 +:+ "/") +:+ a)). now rewrite !append_assoc. }
  replace (d0 +:+ "/" +:+ a +:+ "_LOD" +:+ ds +:+ b)
    with (((d0 +:+ "/") +:+ a) +:+ String "_" ("LOD" +:+ ds +:+ b))
    by (now rewrite !append_assoc).
  rewrite re_sub_prefix;
    [|apply match_lod_suffix_needs_lod|exact HX
     |discriminate|discriminate|discriminate].
  rewrite (re_sub_hit match_lod_suffix "" "_" _ (3 + String.length ds)
             ("LOD" +:+ ds) b).
  - rewrite re_sub_no_lod; [|apply match_lod_suffix_needs_lod|exact HB].
    now rewrite !append_assoc.
  - now apply (match_lod_suffix_hit ds b).
  - reflexivity.
  - symmetry. apply append_assoc.
Qed.

Lemma lower_char_lt b :
  Ascii.eqb (lower_char "<") (lower_char b) = true -> b = "<"%char.
Proof.
  destruct b as [[] [] [] [] [] [] [] []]; vm_compute;
    intros H; first [reflexivity | discriminate H].
Qed.

Lemma find_udim_some f : forall prefix rest,
  find_udim f = Some (prefix, rest) ->
  f = prefix +:+ rest /\ startswith "<" rest = true.
Proof.
  induction f as [|c f IH]; intros prefix rest.
  - cbn. discriminate.
  - cbn [find_udim].
    destruct (istartswith "<udim>" (String c f)) eqn:E.
    + intros [= <- <-]. split; [reflexivity|].
      cbn [istartswith] in E. apply andb_true_iff in E as [E _].
      apply lower_char_lt in E. subst c. reflexivity.
    + destruct (find_udim f) as [[p r]|]; [|discriminate].
      intros [= <- <-]. destruct (IH p r eq_refl) as [-> Hr].
      split; [reflexivity|exact Hr].
Qed.

Lemma endswith_app suf s : endswith suf s = true -> exists X, s = X +:+ suf.
Proof.
  induction s as [|c s IH]; cbn [endswith].
  - rewrite orb_false_r. intros ->%String.eqb_eq. now exists "".
  - intros [->%String.eqb_eq|H]%orb_true_iff; [now exists ""|].
    destruct (IH H) as [X ->]. now exists (String c X).
Qed.

Lemma endswith_no_lod suf s :
  has_sub "LOD" s = false -> has_sub "LOD" suf = true -> endswith suf s = false.
Proof.
  intros Hs Hsuf. destruct (endswith suf s) eqn:E; [|reflexivity].
  destruct (endswith_app _ _ E) as [X ->].
  apply has_sub_app_r in Hs. congruence.
Qed.

Lemma endswith_dot p : endswith "." p = true -> p = drop_last p +:+ ".".
Proof.
  induction p as [|c p IH]; [discriminate|].
  destruct p as [|c' p'].
  - cbn [endswith]. intros [H|H]%orb_true_iff; [|discriminate H].
    apply String.eqb_eq in H. injection H as <-. reflexivity.
  - intros H.
    change (drop_last (String c (String c' p')) +:+ ".")
      with (String c (drop_last (String c' p') +:+ ".")).
    f_equal. apply IH. cbn [endswith] in H |- *.
    apply orb_true_iff in H as [H|H]; [|exact H].
    apply String.eqb_eq in H. discriminate H.
Qed.

Lemma split_last_dot_ext s : forall stem ext,
  split_last_dot s = Some (stem, ext) -> startswith "." ext = true.
Proof.
  induction s as [|c s IH]; intros stem ext; [discriminate|].
  cbn [split_last_dot]. destruct (split_last_dot s) as [[st ex]|].
  - intros [= <- <-]. now apply (IH st).
  - destruct (Ascii.eqb_spec c ".") as [->|]; [|discriminate].
    intros [= <- <-]. reflexivity.
Qed.

Lemma splitext_ext_dot f :
  snd (splitext f) <> "" -> startswith "." (snd (splitext f)) = true.
Proof.
  unfold splitext. destruct (split_last_dot f) as [[stem ext]|] eqn:E.
  - destruct (all_dots stem); cbn [snd]; [contradiction|].
    intros _. now apply (split_last_dot_ext f stem).
  - cbn [snd]. contradiction.
Qed.

Lemma str_of_nat_nonempty level : str_of_nat level <> "".
Proof.
  unfold str_of_nat. intros E.
  assert (Some (Nat.to_uint level) = Some Decimal.Nil) as H
      by (rewrite <- NilEmpty.usu, E; reflexivity).
  injection H as H.
  assert (level = 0%nat) as ->
      by (rewrite <- (DecimalNat.Unsigned.of_to level), H; reflexivity).
  discriminate H.
Qed.



(** *** UDIM tokens and separators *)

Lemma find_udim_app_r P f : find_udim (P +:+ f) = None -> find_udim f = None.
Proof.
  induction P as [|c P IH]; [trivial|].
  change (String c P +:+ f) with (String c (P +:+ f)).
  cbn [find_udim].
  destruct (istartswith "<udim>" (String c (P +:+ f))); [discriminate|].
  destruct (find_udim (P +:+ f)) as [[p r]|]; [discriminate|].
  intros _. now apply IH.
Qed.

Lemma lower_eq_replace a b :
  Ascii.eqb (lower_char a) slash = false ->
  Ascii.eqb (lower_char a) backslash = false ->
  Ascii.eqb (lower_char a)
            (lower_char (if Ascii.eqb b backslash then slash else b))
  = Ascii.eqb (lower_char a) (lower_char b).
Proof.
  intros Hs Hb. destruct (Ascii.eqb_spec b backslash) as [->|]; [|reflexivity].
  change (lower_char slash) with slash.
  change (lower_char backslash) with backslash.
  now rewrite Hs, Hb.
Qed.

Lemma istartswith_udim_replace s :
  istartswith "<udim>" (replace_backslash s) = istartswith "<udim>" s.
Proof.
  do 6 (destruct s as [|? s]; [reflexivity|];
        cbn [replace_backslash istartswith];
        rewrite lower_eq_replace by reflexivity;
        f_equal).
Qed.

Lemma find_udim_replace s :
  find_udim s = None -> find_udim (replace_backslash s) = None.
Proof.
  induction s as [|c s IH]; [trivial|].
  intros H. pose proof (istartswith_udim_replace (String c s)) as Hi.
  cbn [find_udim] in H.
  destruct (istartswith "<udim>" (String c s)); [discriminate H|].
  destruct (find_udim s) as [[p r]|]; [discriminate H|].
  change (replace_backslash (String c s))
    with (String (if Ascii.eqb c backslash then slash else c)
                 (replace_backslash s)) in *.
  cbn [find_udim]. rewrite Hi, IH by reflexivity. reflexivity.
Qed.

(** A path without UDIM token has none in its file name. *)
Lemma find_udim_last_segment src :
  find_udim src = None ->
  find_udim (List.last (split_on "/" (replace_backslash src)) "") = None.
Proof.
  intros H%find_udim_replace.
  destruct (last_piece_suffix "/" (replace_backslash src)) as [pre Hpre].
  unfold last_piece in Hpre. rewrite Hpre in H at 1.
  now apply find_udim_app_r in H.
Qed.

End TextureNamesFacts.

(** ** The conversion of one texture *)

Module TextureTaskFacts.
Import Str PyStr TextureNames TextureLOD TextureTask.
Import TextureNamesFacts.

Section Task.

Variable OIIO_TOOL : option string.
Variable run_tool : list string -> gmap string fnode -> string + gmap string fnode.
Variable _expand_udim_tiles : gmap string fnode -> string -> list (nat * string).

(** The converter writes its output, the last word of its command line,
    and nothing else, and the output is not empty. *)
Hypothesis run_tool_writes_output : forall cmd fs fs',
  run_tool cmd fs = inr fs' ->
  exists data, data <> "" /\ fs' = <[List.last cmd "" := FFile data]> fs.

Lemma makedirs_keeps (fs : gmap string fnode) d p n :
  fs !! p = Some n -> makedirs_exist_ok fs d !! p = Some n.
Proof.
  intros H. unfold makedirs_exist_ok.
  destruct (String.eqb d ""); [exact H|].
  destruct (fs !! d) eqn:E; [exact H|].
  rewrite lookup_insert_ne; [exact H|]. intros ->. congruence.
Qed.

Lemma nonempty_exists_insert (fs : gmap string fnode) dst data p :
  data <> "" ->
  nonempty_exists fs p = true \/ p = dst ->
  nonempty_exists (<[dst := FFile data]> fs) p = true.
Proof.
  intros Hd H. unfold nonempty_exists in *.
  destruct (decide (dst = p)) as [->|Hne].
  - rewrite lookup_insert_eq. destruct data; [contradiction|reflexivity].
  - rewrite lookup_insert_ne by assumption.
    destruct H as [H| ->]; [exact H|contradiction].
Qed.

Lemma nonempty_exists_makedirs (fs : gmap string fnode) d p :
  nonempty_exists fs p = true ->
  nonempty_exists (makedirs_exist_ok fs d) p = true.
Proof.
  unfold nonempty_exists. destruct (fs !! p) as [n|] eqn:E; [|discriminate].
  now rewrite (makedirs_keeps fs d p n E).
Qed.

(** One conversion with a scale that is not zero returns, keeps every
    file, keeps every file that is not empty so, and has a destination
    that is not empty when it reports success. *)
Lemma convert_keeps tool (fs : gmap string fnode) src dst scale :
  scale <> 0%N ->
  exists out,
    _convert_single_file tool run_tool fs src dst scale = inr out
    /\ (forall p, nonempty_exists fs p = true ->
                  nonempty_exists (out_fs out) p = true)
    /\ (forall p, is_Some (fs !! p) -> is_Some (out_fs out !! p))
    /\ (out_ok out = true -> nonempty_exists (out_fs out) dst = true).
Proof.
  intros Hscale. unfold _convert_single_file.
  destruct (nonempty_exists fs dst) eqn:Edst.
  - eexists. split; [reflexivity|]. cbn. auto.
  - destruct (N.eqb_spec scale 0) as [|_]; [contradiction|].
    set (cmd := [tool; src; "--resize"; str_of_N (100 / scale) +:+ "%"; "-o"; dst]).
    destruct (run_tool cmd (makedirs_exist_ok fs (dirname dst))) as [e|fs2] eqn:Er.
    + eexists. split; [reflexivity|]. cbn. split; [|split; [|discriminate]].
      * intros p. apply nonempty_exists_makedirs.
      * intros p [n Hn]. rewrite (makedirs_keeps _ _ _ _ Hn). eauto.
    + destruct (run_tool_writes_output _ _ _ Er) as (data & Hdata & ->).
      change (List.last cmd "") with dst.
      eexists. split; [reflexivity|]. cbn. split; [|split].
      * intros p Hp. apply nonempty_exists_insert; [assumption|].
        left. now apply nonempty_exists_makedirs.
      * intros p [n Hn]. destruct (decide (dst = p)) as [->|Hne].
        -- rewrite lookup_insert_eq. eauto.
        -- rewrite lookup_insert_ne by assumption.
           rewrite (makedirs_keeps _ _ _ _ Hn). eauto.
      * intros _. apply nonempty_exists_insert; [assumption|now right].
Qed.

Lemma convert_skips tool (fs : gmap string fnode) src dst scale :
  nonempty_exists fs dst = true ->
  _convert_single_file tool run_tool fs src dst scale = skipped fs.
Proof. intros H. unfold _convert_single_file. now rewrite H. Qed.

(** Publishing again converts nothing again: the task on a texture
    without UDIM token returns, and when its three conversions have
    succeeded, the same task on the file system it leaves finds the
    three outputs in place, runs no converter and changes no file. *)
Theorem second_conversion_is_skipped (fs : gmap string fnode) (src : string) :
  find_udim src = None ->
  exists p,
    convert_texture_task OIIO_TOOL run_tool _expand_udim_tiles fs src = inr p
    /\ (Forall (fun r => fst r = true) (results p) ->
        convert_texture_task OIIO_TOOL run_tool _expand_udim_tiles (task_fs p) src
        = inr {| task_fs := task_fs p;
                 results := [(true, "Skipped"); (true, "Skipped"); (true, "Skipped")];
                 runs := [] |}).
Proof.
  intros Hudim. unfold convert_texture_task. rewrite Hudim.
  assert (forall fs0 msg, Forall (fun r : bool * string => fst r = true)
                            (results {| task_fs := fs0; results := [(false, msg)];
                                        runs := [] |}) -> False) as Hfail.
  { intros fs0 msg H. cbn in H. inversion H as [|? ? Hf _]. discriminate Hf. }
  destruct OIIO_TOOL as [tool|]; [|eexists; split; [reflexivity|];
                                   intros H; now apply Hfail in H].
  destruct (String.eqb tool "");
    [eexists; split; [reflexivity|]; intros H; now apply Hfail in H|].
  destruct (fs !! src) as [n|] eqn:Esrc;
    [|eexists; split; [reflexivity|]; intros H; now apply Hfail in H].
  cbn [fold_left LOD_SPECS fst snd convert_one task_fs results runs].
  destruct (convert_keeps tool fs src (get_dst_path src "LOD2") 2)
    as (o1 & -> & N1 & S1 & D1); [discriminate|].
  cbn [task_fs results runs convert_one fst snd].
  destruct (convert_keeps tool (out_fs o1) src (get_dst_path src "LOD4") 4)
    as (o2 & -> & N2 & S2 & D2); [discriminate|].
  cbn [task_fs results runs convert_one fst snd].
  destruct (convert_keeps tool (out_fs o2) src (get_dst_path src "LOD10") 10)
    as (o3 & -> & N3 & S3 & D3); [discriminate|].
  cbn [task_fs results runs app].
  eexists. split; [reflexivity|]. cbn [task_fs results].
  intros Hok.
  inversion Hok as [|? ? H1 Hok1]; subst.
  inversion Hok1 as [|? ? H2 Hok2]; subst.
  inversion Hok2 as [|? ? H3 _]; subst.
  cbn [fst] in H1, H2, H3.
  destruct (S3 src (S2 src (S1 src (ex_intro _ n Esrc)))) as [n3 ->].
  rewrite (convert_skips tool (out_fs o3) src (get_dst_path src "LOD2"))
    by auto.
  cbn [skipped task_fs results runs out_fs out_ok out_msg out_runs
       convert_one fst snd].
  rewrite (convert_skips tool (out_fs o3) src (get_dst_path src "LOD4"))
    by auto.
  cbn [skipped task_fs results runs out_fs out_ok out_msg out_runs
       convert_one fst snd].
  rewrite (convert_skips tool (out_fs o3) src (get_dst_path src "LOD10"))
    by auto.
  reflexivity.
Qed.

End Task.

Lemma second_conversion_is_skipped_witness :
  let tool := fun (cmd : list string) (fs : gmap string fnode) =>
                (inr (<[List.last cmd "" := FFile "pixels"]> fs)
                 : string + gmap string fnode) in
  let tiles := fun (_ : gmap string fnode) (_ : string) => @nil (nat * string) in
  let fs : gmap string fnode := <["tex/wood.exr" := FFile "source"]> ∅ in
  exists p,
    convert_texture_task (Some "oiiotool") tool tiles fs "tex/wood.exr" = inr p
    /\ length (runs p) = 3%nat
    /\ convert_texture_task (Some "oiiotool") tool tiles (task_fs p) "tex/wood.exr"
       = inr {| task_fs := task_fs p;
                results := [(true, "Skipped"); (true, "Skipped"); (true, "Skipped")];
                runs := [] |}.
Proof.
  intros tool tiles fs.
  destruct (second_conversion_is_skipped (Some "oiiotool") tool tiles)
    with (fs := fs) (src := "tex/wood.exr") as (p & Hp & Hre).
  - intros cmd fs0 fs' H. injection H as <-.
    exists "pixels". split; [discriminate|reflexivity].
  - reflexivity.
  - exists p. split; [exact Hp|].
    vm_compute in Hp. injection Hp as <-.
    split; [reflexivity|]. apply Hre. repeat constructor.
Defined.

(** *** A texture converted on the farm *)

Section FarmThenLocal.

Variable tool : string.
Variable run_tool : list string -> gmap string fnode -> string + gmap string fnode.
Variable _expand_udim_tiles : gmap string fnode -> string -> list (nat * string).

Hypothesis run_tool_writes_output : forall cmd fs fs',
  run_tool cmd fs = inr fs' ->
  exists data, data <> "" /\ fs' = <[List.last cmd "" := FFile data]> fs.

(** One run of the farm loop that succeeds keeps every file, keeps
    every file that is not empty so, and leaves its destination not
    empty. *)
Lemma farm_run_keeps (fs fs2 : gmap string fnode) src pct dst :
  run_tool [tool; src; "--resize"; pct; "-o"; dst]
           (makedirs_exist_ok fs (dirname dst)) = inr fs2 ->
  (forall p, nonempty_exists fs p = true -> nonempty_exists fs2 p = true)
  /\ (forall p, is_Some (fs !! p) -> is_Some (fs2 !! p))
  /\ nonempty_exists fs2 dst = true.
Proof.
  intros Er. destruct (run_tool_writes_output _ _ _ Er) as (data & Hdata & ->).
  change (List.last [tool; src; "--resize"; pct; "-o"; dst] "") with dst.
  split; [|split].
  - intros p Hp. apply nonempty_exists_insert; [assumption|].
    left. now apply nonempty_exists_makedirs.
  - intros p [n Hn]. destruct (decide (dst = p)) as [->|Hne].
    + rewrite lookup_insert_eq. eauto.
    + rewrite lookup_insert_ne by assumption.
      rewrite (makedirs_keeps _ _ _ _ Hn). eauto.
  - apply nonempty_exists_insert; [assumption|now right].
Qed.

(** What the farm has converted, a local publish does not convert
    again: after a conversion of the farm script that reports success,
    the task of the publish tool on the same texture finds its three
    outputs in place and runs no converter.  This holds for a texture
    that exists, without UDIM token, for which the two scripts agree on
    the place of the LOD folder (the first folder named export, in any
    case of letters, is the parent of the file or the parent of that
    one, and the last one in lower case is the parent of the file). *)
Theorem farm_outputs_are_found_by_the_local_task
  (fs : gmap string fnode) (src : string) :
  tool <> "" ->
  (forall idx,
      first_index (fun seg => String.eqb (lower seg) "export")
        (split_on "/" (replace_backslash src)) = Some idx ->
      (idx + 2 <= length (split_on "/" (replace_backslash src)) <= idx + 3)%nat) ->
  (forall k,
      last_index_of "export" (split_on "/" (replace_backslash src)) = Some k ->
      (k + 2)%nat = length (split_on "/" (replace_backslash src))) ->
  find_udim src = None ->
  is_Some (fs !! src) ->
  FarmConvert.farm_ok (FarmConvert.convert_texture tool run_tool fs src) = true ->
  convert_texture_task (Some tool) run_tool _expand_udim_tiles
    (FarmConvert.farm_fs (FarmConvert.convert_texture tool run_tool fs src)) src
  = inr {| task_fs := FarmConvert.farm_fs (FarmConvert.convert_texture tool run_tool fs src);
           results := [(true, "Skipped"); (true, "Skipped"); (true, "Skipped")];
           runs := [] |}.
Proof.
  intros Htool Hidx Hk Hudim Hsrc.
  pose proof (find_udim_last_segment src Hudim) as Hlast.
  assert (forall lod, lod <> "" -> TextureLOD.has_slash lod = false ->
                      no_backslash lod = true ->
                      get_dst_path src lod = farm_get_dst_path src lod) as Hdst.
  { intros lod H1 H2 H3. now rewrite local_plain, farm_plain. }
  unfold FarmConvert.convert_texture.
  cbn [FarmConvert.convert_loop FarmConvert.LOD_SPECS].
  destruct (run_tool _ (makedirs_exist_ok fs _)) as [e1|fs1] eqn:E1;
    [discriminate|].
  destruct (farm_run_keeps _ _ _ _ _ E1) as (N1 & S1 & D1).
  destruct (run_tool _ (makedirs_exist_ok fs1 _)) as [e2|fs2] eqn:E2;
    [discriminate|].
  destruct (farm_run_keeps _ _ _ _ _ E2) as (N2 & S2 & D2).
  destruct (run_tool _ (makedirs_exist_ok fs2 _)) as [e3|fs3] eqn:E3;
    [discriminate|].
  destruct (farm_run_keeps _ _ _ _ _ E3) as (N3 & S3 & D3).
  intros _. cbn [FarmConvert.farm_fs].
  unfold convert_texture_task. rewrite Hudim.
  destruct (String.eqb_spec tool ""); [contradiction|].
  destruct (S3 src (S2 src (S1 src Hsrc))) as [n3 ->].
  cbn [fold_left TextureTask.LOD_SPECS fst snd convert_one task_fs results runs].
  rewrite !Hdst by (discriminate || reflexivity).
  rewrite (convert_skips run_tool tool fs3 src (farm_get_dst_path src "LOD2"))
    by auto.
  cbn [skipped task_fs results runs out_fs out_ok out_msg out_runs
       convert_one fst snd].
  rewrite (convert_skips run_tool tool fs3 src (farm_get_dst_path src "LOD4"))
    by auto.
  cbn [skipped task_fs results runs out_fs out_ok out_msg out_runs
       convert_one fst snd].
  rewrite (convert_skips run_tool tool fs3 src (farm_get_dst_path src "LOD10"))
    by auto.
  reflexivity.
Qed.

End FarmThenLocal.

Lemma farm_outputs_are_found_by_the_local_task_witness :
  let run := fun (cmd : list string) (fs : gmap string fnode) =>
               (inr (<[List.last cmd "" := FFile "pixels"]> fs)
                : string + gmap string fnode) in
  let tiles := fun (_ : gmap string fnode) (_ : string) => @nil (nat * string) in
  let fs : gmap string fnode := <["/proj/export/wood.exr" := FFile "source"]> ∅ in
  let fs' := FarmConvert.farm_fs (FarmConvert.convert_texture "oiiotool" run fs "/proj/export/wood.exr") in
  convert_texture_task (Some "oiiotool") run tiles fs' "/proj/export/wood.exr"
  = inr {| task_fs := fs';
           results := [(true, "Skipped"); (true, "Skipped"); (true, "Skipped")];
           runs := [] |}.
Proof.
  intros run tiles fs fs'.
  apply (farm_outputs_are_found_by_the_local_task "oiiotool" run tiles).
  - intros cmd fs0 fs1 H. injection H as <-.
    exists "pixels". split; [discriminate|reflexivity].
  - discriminate.
  - intros idx H. vm_compute in H. injection H as <-. vm_compute. lia.
  - intros k H. vm_compute in H. injection H as <-. reflexivity.
  - reflexivity.
  - vm_compute. eauto.
  - reflexivity.
Defined.

End TextureTaskFacts.

(** ** The job id read off the output of the submission *)

Module JobIdFacts.
Import Str StrFacts PyStr PyStrFacts JobId.

Lemma splitlines_line l r :
  no_linebreak l = true -> splitlines (l +:+ String LF r) = l :: splitlines r.
Proof.
  induction l as [|c l IH]; intros Hl.
  - cbn [String.append splitlines].
    change (is_linebreak LF) with true. cbn iota.
    destruct r as [|c' r']; [reflexivity|].
    change (Ascii.eqb LF CR) with false. reflexivity.
  - cbn [no_linebreak] in Hl. apply andb_true_iff in Hl as [Hc Hl].
    apply negb_true_iff in Hc.
    change (String c l +:+ String LF r) with (String c (l +:+ String LF r)).
    cbn [splitlines]. now rewrite Hc, IH.
Qed.

Lemma splitlines_head l c r :
  no_linebreak l = true -> is_linebreak c = true ->
  exists tl, splitlines (l +:+ String c r) = l :: tl.
Proof.
  induction l as [|a l IH]; intros Hl Hc.
  - cbn [String.append splitlines]. rewrite Hc.
    destruct r as [|c' r']; [eauto|].
    destruct (Ascii.eqb c CR && Ascii.eqb c' LF); eauto.
  - cbn [no_linebreak] in Hl. apply andb_true_iff in Hl as [Ha Hl].
    apply negb_true_iff in Ha.
    change (String a l +:+ String c r) with (String a (l +:+ String c r)).
    cbn [splitlines]. rewrite Ha.
    destruct (IH Hl Hc) as [tl ->]. eauto.
Qed.

Lemma splitlines_single l :
  no_linebreak l = true -> l <> "" -> splitlines l = [l].
Proof.
  induction l as [|c l IH]; intros Hl Hne; [contradiction|].
  cbn [no_linebreak] in Hl. apply andb_true_iff in Hl as [Hc Hl].
  apply negb_true_iff in Hc. cbn [splitlines]. rewrite Hc.
  destruct l as [|c' l']; [reflexivity|].
  now rewrite IH.
Qed.

Lemma no_linebreak_app s t :
  no_linebreak (s +:+ t) = no_linebreak s && no_linebreak t.
Proof.
  induction s as [|c s IH]; [reflexivity|].
  change (String c s +:+ t) with (String c (s +:+ t)).
  cbn [no_linebreak]. now rewrite IH, andb_assoc.
Qed.

Lemma job_line_id id :
  contains_char "=" id = false ->
  nth 1 (split_on "=" ("JobID=" +:+ id)) "" = id.
Proof.
  intros Hid.
  change ("JobID=" +:+ id) with ("JobID" +:+ String "=" id).
  rewrite split_on_app.
  rewrite (split_on_no_sep "=" id Hid). reflexivity.
Qed.

(** The id is read back: when the output has a line [JobID=<id>], the
    lines before it do not start with [JobID=], and the id holds no
    equals sign, no line break and no white space at its ends, then
    [submit_job] returns this id, whatever follows the line. *)
Theorem parse_job_id_reads_the_id (before : list string) (id rest : string) :
  Forall (fun l => no_linebreak l = true /\ startswith "JobID=" l = false)
         before ->
  no_linebreak id = true -> contains_char "=" id = false -> strip id = id ->
  (rest = "" \/ exists c r, rest = String c r /\ is_linebreak c = true) ->
  parse_job_id (lines_then before ("JobID=" +:+ id +:+ rest)) = Some id.
Proof.
  intros Hbefore Hnl Heq Hstrip Hrest.
  assert (first_job_line
            (splitlines (lines_then before ("JobID=" +:+ id +:+ rest)))
          = Some id) as Hfirst.
  { induction Hbefore as [|l before [Hl Hs] _ IH].
    - cbn [lines_then fold_right].
      assert (exists tl, splitlines ("JobID=" +:+ id +:+ rest)
                         = ("JobID=" +:+ id) :: tl) as [tl ->].
      { assert (no_linebreak ("JobID=" +:+ id) = true) as Hline
            by (rewrite no_linebreak_app, Hnl; reflexivity).
        destruct Hrest as [->|(c & r & -> & Hc)].
        - exists []. rewrite append_nil_r.
          apply splitlines_single; [exact Hline|discriminate].
        - rewrite <- append_assoc. now apply splitlines_head. }
      cbn [first_job_line].
      change (startswith "JobID=" ("JobID=" +:+ id)) with true. cbn iota.
      now rewrite job_line_id, Hstrip.
    - cbn [lines_then fold_right]. rewrite splitlines_line by assumption.
      cbn [first_job_line]. rewrite Hs. exact IH. }
  unfold parse_job_id. rewrite Hfirst.
  destruct (String.eqb_spec (lines_then before ("JobID=" +:+ id +:+ rest)) "")
    as [E|]; [|reflexivity].
  rewrite E in Hfirst. discriminate Hfirst.
Qed.

Lemma parse_job_id_reads_the_id_witness :
  parse_job_id
    (lines_then ["Submitting to Deadline..."; "Result=Success"]
       ("JobID=" +:+ "65f0c1a2b3" +:+ String LF "The job was submitted."))
  = Some "65f0c1a2b3".
Proof.
  apply parse_job_id_reads_the_id.
  - repeat constructor.
  - reflexivity.
  - reflexivity.
  - reflexivity.
  - right. eexists _, _. split; reflexivity.
Defined.

(** *** What an id can be *)

Lemma splitlines_no_linebreak s : Forall (fun l => no_linebreak l = true) (splitlines s).
Proof.
  induction s as [|c s IH]; [constructor|].
  cbn [splitlines]. destruct (is_linebreak c) eqn:Ec.
  - assert (Forall (fun l => no_linebreak l = true) (splitlines s)) as Hs
        by exact IH.
    destruct s as [|c' s']; [repeat constructor|].
    destruct (Ascii.eqb c CR && Ascii.eqb c' LF) eqn:Ecr.
    + constructor; [reflexivity|].
      apply andb_true_iff in Ecr as [_ Hlf]. apply Ascii.eqb_eq in Hlf. subst c'.
      cbn [splitlines] in Hs. change (is_linebreak LF) with true in Hs.
      cbn iota in Hs. destruct s' as [|c2 s2]; [constructor|].
      change (Ascii.eqb LF CR) with false in Hs. cbn [andb] in Hs.
      now inversion Hs.
    + constructor; [reflexivity|exact Hs].
  - destruct (splitlines s) as [|h t]; [repeat constructor; cbn; now rewrite Ec|].
    inversion IH as [|? ? Hh Ht]; subst.
    constructor; [cbn [no_linebreak]; now rewrite Ec, Hh|exact Ht].
Qed.

Lemma no_linebreak_join sep (l : list string) p :
  no_linebreak (join sep l) = true -> In p l -> no_linebreak p = true.
Proof.
  induction l as [|x l IH]; intros H Hin; [destruct Hin|].
  destruct l as [|y l].
  - destruct Hin as [<-|[]]. exact H.
  - rewrite join_cons, !no_linebreak_app in H.
    apply andb_true_iff in H as [Hx H]. apply andb_true_iff in H as [_ H].
    destruct Hin as [<-|Hin]; [exact Hx|now apply IH].
Qed.

Lemma lstrip_suffix x : exists pre, x = pre +:+ lstrip x.
Proof.
  induction x as [|c x [pre IH]]; [now exists ""|].
  cbn [lstrip]. destruct (is_space c); [|now exists ""].
  exists (String c pre). cbn. now rewrite <- IH.
Qed.

Lemma rstrip_prefix x : exists suf, x = rstrip x +:+ suf.
Proof.
  induction x as [|c x [suf IH]]; [now exists ""|].
  cbn [rstrip]. destruct (is_space c && String.eqb (rstrip x) "");
    [now exists (String c x)|].
  exists suf. cbn. now rewrite <- IH.
Qed.

Lemma rstrip_idempotent x : rstrip (rstrip x) = rstrip x.
Proof.
  induction x as [|c x IH]; [reflexivity|].
  cbn [rstrip].
  destruct (is_space c && String.eqb (rstrip x) "") eqn:E; [reflexivity|].
  cbn [rstrip]. now rewrite IH, E.
Qed.

Lemma lstrip_rstrip_lstrip x : lstrip (rstrip (lstrip x)) = rstrip (lstrip x).
Proof.
  induction x as [|c x IH]; [reflexivity|].
  cbn [lstrip]. destruct (is_space c) eqn:Ec; [exact IH|].
  cbn [rstrip]. rewrite Ec. cbn [andb lstrip]. now rewrite Ec.
Qed.

Lemma strip_idempotent x : strip (strip x) = strip x.
Proof. unfold strip. now rewrite lstrip_rstrip_lstrip, rstrip_idempotent. Qed.

Lemma strip_part x : exists pre suf, x = pre +:+ strip x +:+ suf.
Proof.
  destruct (lstrip_suffix x) as [pre Hpre].
  destruct (rstrip_prefix (lstrip x)) as [suf Hsuf].
  exists pre, suf. unfold strip. now rewrite <- Hsuf.
Qed.

Lemma first_job_line_some lines id :
  first_job_line lines = Some id ->
  exists line, In line lines /\ startswith "JobID=" line = true
               /\ id = strip (nth 1 (split_on "=" line) "").
Proof.
  induction lines as [|l lines IH]; [discriminate|].
  cbn [first_job_line]. destruct (startswith "JobID=" l) eqn:E.
  - intros [= <-]. exists l. split; [now left|]. now split.
  - intros H. destruct (IH H) as (line & Hin & Hl). exists line.
    split; [now right|exact Hl].
Qed.

Lemma first_job_line_none lines :
  first_job_line lines = None
  <-> Forall (fun l => startswith "JobID=" l = false) lines.
Proof.
  induction lines as [|l lines IH]; [split; [constructor|reflexivity]|].
  cbn [first_job_line]. destruct (startswith "JobID=" l) eqn:E.
  - split; [discriminate|]. intros H. inversion H; congruence.
  - rewrite IH. split; [now constructor|]. intros H. now inversion H.
Qed.

(** No id is returned exactly when no line of the output starts with
    [JobID=]; and an id that is returned holds no equals sign and no
    line break and has no white space at its ends, so it is one word of
    a line [JobID=...] of the output. *)
Theorem parse_job_id_shape (stdout : string) :
  (parse_job_id stdout = None
   <-> Forall (fun l => startswith "JobID=" l = false) (splitlines stdout))
  /\ (forall id, parse_job_id stdout = Some id ->
        contains_char "=" id = false
        /\ no_linebreak id = true
        /\ strip id = id
        /\ exists line, In line (splitlines stdout)
                        /\ startswith "JobID=" line = true).
Proof.
  unfold parse_job_id. destruct (String.eqb_spec stdout "") as [->|Hne].
  - split; [split; [constructor|reflexivity]|discriminate].
  - split; [apply first_job_line_none|].
    intros id (line & Hin & Hstart & ->)%first_job_line_some.
    set (piece := nth 1 (split_on "=" line) "").
    assert (piece = "" \/ In piece (split_on "=" line)) as Hpiece.
    { unfold piece. destruct (nth_in_or_default 1 (split_on "=" line) "");
        [now right|now left]. }
    assert (contains_char "=" piece = false) as Heq.
    { destruct Hpiece as [->|Hp]; [reflexivity|].
      now apply (split_on_pieces "=" line). }
    assert (no_linebreak piece = true) as Hnl.
    { destruct Hpiece as [->|Hp]; [reflexivity|].
      apply (no_linebreak_join "=" (split_on "=" line)); [|exact Hp].
      rewrite (join_split_on "=" line).
      pose proof (splitlines_no_linebreak stdout) as Hall.
      rewrite Forall_forall in Hall. apply Hall.
      now apply list_elem_of_In. }
    destruct (strip_part piece) as (pre & suf & Hps).
    split; [|split; [|split]].
    + rewrite Hps, !contains_char_app in Heq.
      apply orb_false_iff in Heq as [_ Heq].
      now apply orb_false_iff in Heq as [Heq _].
    + rewrite Hps, !no_linebreak_app in Hnl.
      apply andb_true_iff in Hnl as [_ Hnl].
      now apply andb_true_iff in Hnl as [Hnl _].
    + apply strip_idempotent.
    + eauto.
Qed.

End JobIdFacts.

(** ** The batches of the texture tasks *)

Module FarmBatchesFacts.
Import FarmBatches.
Local Open Scope Z_scope.

Lemma consecutive_bound ranges : forall from stop,
  consecutive from ranges stop -> from <= stop + 1.
Proof.
  induction ranges as [|[s e] rest IH]; intros from stop; cbn.
  - lia.
  - intros (-> & Hse & Hrest). apply IH in Hrest. lia.
Qed.

Lemma batch_in_range (l : list string) s e :
  0 <= s -> s <= e -> e < Z.of_nat (length l) ->
  batch l s e = firstn (Z.to_nat (e + 1 - s)) (skipn (Z.to_nat s) l).
Proof.
  intros Hs Hse He. unfold batch, slice, slice_index.
  destruct (Z.ltb_spec s 0); [lia|].
  destruct (Z.ltb_spec (e + 1) 0); [lia|].
  now rewrite !Z.min_l by lia.
Qed.

Lemma batches_from (l : list string) ranges : forall from,
  0 <= from -> consecutive from ranges (Z.of_nat (length l) - 1) ->
  concat (map (fun r => batch l (fst r) (snd r)) ranges)
  = skipn (Z.to_nat from) l.
Proof.
  induction ranges as [|[s e] rest IH]; intros from Hfrom; cbn.
  - intros ->. rewrite skipn_all2; [reflexivity|]. lia.
  - intros (-> & Hse & Hrest).
    pose proof (consecutive_bound _ _ _ Hrest) as Hb.
    rewrite batch_in_range by lia.
    rewrite (IH (e + 1)) by (assumption || lia).
    replace (Z.to_nat (e + 1)) with (Z.to_nat (e + 1 - from) + Z.to_nat from)%nat
      by lia.
    rewrite <- skipn_skipn. apply firstn_skipn.
Qed.

(** The tasks of the texture job share the manifest out: for frame
    ranges that follow one another from 0 to the last index, the range
    the submission gives the job, the batches of the tasks put together
    are the manifest, every file once and in order. *)
Theorem batches_share_out_the_manifest (all_files : list string)
  (ranges : list (Z * Z)) :
  consecutive 0 ranges (Z.of_nat (length all_files) - 1) ->
  concat (map (fun r => batch all_files (fst r) (snd r)) ranges) = all_files.
Proof.
  intros H. now rewrite (batches_from all_files ranges 0) by (lia || assumption).
Qed.

Lemma batches_share_out_the_manifest_witness :
  concat (map (fun r => batch ["a.exr"; "b.exr"; "c.exr"; "d.exr"; "e.exr"]
                          (fst r) (snd r))
              [(0, 1); (2, 3); (4, 4)])
  = ["a.exr"; "b.exr"; "c.exr"; "d.exr"; "e.exr"]%string.
Proof.
  apply batches_share_out_the_manifest. cbn. repeat split; lia.
Defined.

End FarmBatchesFacts.

(** ** What a pass of the material rebinder guarantees *)

Module MaterialRebinderInvariants.
Import Str Usd MaterialRebinder StrFacts MaterialRebinderFacts MaterialRebinderPass.

Lemma bind_target_same_shape (s1 s2 : gmap Path Prim) x :
  same_shape s1 s2 -> bind_target s1 x = bind_target s2 x.
Proof.
  intros H. unfold bind_target.
  pose proof (H x) as Hx. pose proof (H (GetParentPath x)) as Hp.
  destruct (s1 !! x) as [q1|], (s2 !! x) as [q2|]; try tauto.
  destruct Hx as (Hty & Hca & _). unfold is_subset. rewrite Hty, Hca.
  destruct (s1 !! GetParentPath x) as [m1|], (s2 !! GetParentPath x) as [m2|];
    try tauto.
  destruct Hp as (Hpt & _). unfold is_mesh. now rewrite Hpt.
Qed.

Lemma mtl_child_not_copyable (top : string) (stg : gmap Path Prim) d :
  mtl_child top d -> copyable top stg d = false.
Proof.
  intros H%mtl_child_prefix. unfold copyable.
  destruct (stg !! d); [|reflexivity].
  now rewrite H, andb_false_r.
Qed.

(** After a pass no direct binding leaves the asset for a material the
    pass could copy: on the stage the pass leaves, the direct binding of
    every prim the binding API applies to, and of every subset of a
    mesh, has no target or exactly one, and that one is not a material
    outside the top prim with a defining layer. *)
Theorem direct_bindings_stay_inside (top : string) layer stg x q ts :
  stage (fix_materials top layer stg) !! x = Some q ->
  bind_target (stage (fix_materials top layer stg)) x = true ->
  rels q !! binding_rel = Some ts ->
  ts = []
  \/ exists t, ts = [t]
       /\ copyable top stg t = false
       /\ copyable top (stage (fix_materials top layer stg)) t = false.
Proof.
  intros Hq Hbt Hts.
  rewrite <- (bind_target_same_shape _ _ x (pass_shape top layer stg)) in Hbt.
  rewrite pass_stage, Hbt in Hq.
  destruct (stage (after_copies top layer stg) !! x) as [q1|];
    [|discriminate Hq].
  cbn in Hq. injection Hq as <-.
  rewrite rebound_collections_rels, rebound_rels_direct in Hts.
  unfold new_targets in Hts. rewrite binding_rel_not_collection in Hts.
  destruct (rels q1 !! binding_rel) as [[|old rest]|]; cbn in Hts;
    [injection Hts as <-; now left| |discriminate Hts].
  injection Hts as <-. right. exists (remap_get (mat_remap (after_copies top layer stg)) old).
  split; [reflexivity|]. rewrite pass_copyable.
  assert (copyable top stg (remap_get (mat_remap (after_copies top layer stg)) old)
          = false) as H; [|now split].
  unfold remap_get.
  destruct (mat_remap (after_copies top layer stg) !! old) as [d|] eqn:E; cbn.
  - apply copies_remap in E as [_ Hd]. now apply mtl_child_not_copyable.
  - destruct (copyable top stg old) eqn:C; [|reflexivity].
    apply (copies_remap_keys top layer) in C. rewrite E in C.
    now destruct C.
Qed.

Lemma direct_bindings_stay_inside_witness :
  [["Top"; "mtl"; "M"]] = []
  \/ exists t, [["Top"; "mtl"; "M"]] = [t]
       /\ copyable "Top" example_stage t = false
       /\ copyable "Top" (stage (fix_materials "Top" ∅ example_stage)) t = false.
Proof.
  apply (direct_bindings_stay_inside "Top" ∅ example_stage ["Top"; "geo"; "s"]
           (set_rels example_subset
              (<[binding_rel := [["Top"; "mtl"; "M"]]]> ∅)));
    vm_compute; reflexivity.
Defined.

(** *** Collection bindings *)

Lemma remap_get_not_copyable (top : string) layer stg old :
  copyable top stg (remap_get (mat_remap (after_copies top layer stg)) old)
  = false.
Proof.
  unfold remap_get.
  destruct (mat_remap (after_copies top layer stg) !! old) as [d|] eqn:E; cbn.
  - apply copies_remap in E as [_ Hd]. now apply mtl_child_not_copyable.
  - destruct (copyable top stg old) eqn:C; [|reflexivity].
    apply (copies_remap_keys top layer) in C. rewrite E in C.
    now destruct C.
Qed.

Lemma classify_fold_complete s ts : forall acc,
  (is_Some (fst acc) \/ exists m, In m ts /\ is_material_at s m = true) ->
  (is_Some (snd acc) \/ exists c, In c ts /\ is_material_at s c = false) ->
  exists m c,
    fold_left (fun acc tgt =>
                 if is_material_at s tgt then (Some tgt, snd acc)
                 else (fst acc, Some tgt)) ts acc = (Some m, Some c).
Proof.
  induction ts as [|t ts IH]; intros [a b] Hm Hc; cbn [fold_left fst snd] in *.
  - destruct Hm as [[m ->]|(m & [] & _)]. destruct Hc as [[c ->]|(c & [] & _)].
    eauto.
  - destruct (is_material_at s t) eqn:Et; apply IH; cbn [fst snd].
    + left. eauto.
    + destruct Hc as [Hc|(c & [<-|Hin] & Hcm)]; [now left|congruence|].
      right. eauto.
    + destruct Hm as [Hm|(m & [<-|Hin] & Hmm)]; [now left|congruence|].
      right. eauto.
    + left. eauto.
Qed.

Lemma rebind_collection_applies remap s ts m c :
  In m ts -> is_material_at s m = true ->
  In c ts -> is_material_at s c = false ->
  is_Some (rebind_collection remap s ts).
Proof.
  intros Hm Hmm Hc Hcm. unfold rebind_collection.
  assert (2 <= length ts)%nat as Hlen.
  { destruct ts as [|a [|b ts]]; cbn; try lia; [destruct Hm|].
    destruct Hm as [<-|[]], Hc as [<-|[]]. congruence. }
  destruct (Nat.ltb_spec (length ts) 2); [lia|].
  unfold classify.
  destruct (classify_fold_complete s ts (None, None)) as (m' & c' & ->);
    cbn [fst snd]; eauto.
Qed.

(** After a pass a collection binding that names a material and
    something else names the two of them only, and no material the pass
    copies: on the stage the pass leaves, every relationship
    [material:binding:collection...] with a target that is a material
    and a target that is not has exactly two targets, the first not a
    material, the second not a material outside the top prim with a
    defining layer. *)
Theorem collection_bindings_stay_inside (top : string) layer stg x q name ts m c :
  stage (fix_materials top layer stg) !! x = Some q ->
  rels q !! name = Some ts ->
  startswith collection_prefix name = true ->
  In m ts -> is_material_at (stage (fix_materials top layer stg)) m = true ->
  In c ts -> is_material_at (stage (fix_materials top layer stg)) c = false ->
  exists c' m',
    ts = [c'; m']
    /\ is_material_at (stage (fix_materials top layer stg)) c' = false
    /\ copyable top stg m' = false.
Proof.
  intros Hq Hts Hname Hm Hmm Hc Hcm.
  assert (same_shape (stage (after_bindings top layer stg))
                     (stage (fix_materials top layer stg))) as Hshape.
  { eapply same_shape_trans; [|apply pass_shape].
    apply same_shape_sym, bindings_shape. }
  rewrite <- (is_material_at_same_shape _ _ m Hshape) in Hmm.
  rewrite <- (is_material_at_same_shape _ _ c Hshape) in Hcm.
  rewrite pass_stage in Hq.
  destruct (stage (after_copies top layer stg) !! x) as [q1|];
    [|discriminate Hq].
  cbn in Hq. injection Hq as <-.
  rewrite rebound_collections_rels in Hts.
  match type of Hts with
  | context [rels ?q2 !! name] => destruct (rels q2 !! name) as [ts2|];
                                  [|discriminate Hts]
  end.
  cbn in Hts. injection Hts as <-.
  unfold new_targets in *. rewrite Hname in *.
  destruct (rebind_collection (mat_remap (after_copies top layer stg))
              (stage (after_bindings top layer stg)) ts2) as [new|] eqn:E.
  - cbn in *. unfold rebind_collection in E.
    destruct (Nat.ltb (length ts2) 2); [discriminate E|].
    destruct (classify (stage (after_bindings top layer stg)) ts2)
      as [[m0|] [c0|]] eqn:Ec; try discriminate E.
    injection E as <-. exists c0, (remap_get (mat_remap (after_copies top layer stg)) m0).
    split; [reflexivity|]. split.
    + rewrite <- (is_material_at_same_shape _ _ _ Hshape).
      now apply classify_spec in Ec.
    + apply remap_get_not_copyable.
  - cbn in *.
    destruct (rebind_collection_applies (mat_remap (after_copies top layer stg))
                (stage (after_bindings top layer stg)) ts2 m c Hm Hmm Hc Hcm)
      as [new Hnew].
    congruence.
Qed.

Lemma collection_bindings_stay_inside_witness :
  exists c' m',
    [["Top"; "geo.collection:c"]; ["Top"; "mtl"; "M"]] = [c'; m']
    /\ is_material_at (stage (fix_materials "Top" ∅ example_stage)) c' = false
    /\ copyable "Top" example_stage m' = false.
Proof.
  apply (collection_bindings_stay_inside "Top" ∅ example_stage ["Top"; "geo"]
           (set_rels example_mesh
              (<["material:binding" := [["Top"; "mtl"; "M"]]]>
                 (<["material:binding:collection:c"
                    := [["Top"; "geo.collection:c"]; ["Top"; "mtl"; "M"]]]> ∅)))
           "material:binding:collection:c" _
           ["Top"; "mtl"; "M"] ["Top"; "geo.collection:c"]);
    vm_compute; auto.
Defined.

(** *** The copies *)

Lemma copy_step_cases (top : string) st p :
  copy_step [top] [top; "mtl"] st p = st
  \/ exists prim,
       stage st !! p = Some prim
       /\ copy_step [top] [top; "mtl"] st p
          = let dst := copy_destination (meta st) [top; "mtl"] (GetName p) in
            {| meta := <[dst := material_spec]> (meta st);
               stage := compose_copy (stage st) dst prim;
               mat_remap := <[p := dst]> (mat_remap st);
               copied_mats := S (copied_mats st);
               rebind_count := rebind_count st;
               subset_rebind_count := subset_rebind_count st;
               coll_rebind_count := coll_rebind_count st |}.
Proof.
  destruct (copyable top (stage st) p) eqn:C.
  - right. pose proof C as C'. unfold copyable in C'.
    destruct (stage st !! p) as [prim|] eqn:E; [|discriminate].
    exists prim. split; [reflexivity|]. now apply copy_step_copy.
  - left. now apply copy_step_skip.
Qed.

(** The copy loop keeps its table injective: a destination is taken
    where the override layer has nothing, and every earlier destination
    is in the override layer. *)
Lemma copy_loop_distinct (top : string) l : forall st,
  (forall k d, mat_remap st !! k = Some d -> is_Some (meta st !! d)) ->
  (forall k1 k2 d, mat_remap st !! k1 = Some d -> mat_remap st !! k2 = Some d ->
                   k1 = k2) ->
  let r := fold_left (copy_step [top] [top; "mtl"]) l st in
  (forall k d, mat_remap r !! k = Some d -> is_Some (meta r !! d))
  /\ (forall k1 k2 d, mat_remap r !! k1 = Some d -> mat_remap r !! k2 = Some d ->
                      k1 = k2)
  /\ (forall k d, mat_remap r !! k = Some d ->
         mat_remap st !! k = Some d \/ meta st !! d = None).
Proof.
  induction l as [|p l IH]; intros st Hin Hinj; cbn [fold_left].
  - split; [exact Hin|]. split; [exact Hinj|]. intros k d H. now left.
  - destruct (copy_step_cases top st p) as [->|(prim & Hp & ->)];
      [now apply IH|].
    pose proof (copy_destination_fresh (meta st) [top; "mtl"] (GetName p))
      as Hfresh.
    cbn zeta. set (dst := copy_destination (meta st) [top; "mtl"] (GetName p)) in *.
    set (st' := {| meta := <[dst := material_spec]> (meta st);
                   stage := compose_copy (stage st) dst prim;
                   mat_remap := <[p := dst]> (mat_remap st);
                   copied_mats := S (copied_mats st);
                   rebind_count := rebind_count st;
                   subset_rebind_count := subset_rebind_count st;
                   coll_rebind_count := coll_rebind_count st |}).
    assert (forall k d, mat_remap st' !! k = Some d ->
                        (k = p /\ d = dst) \/ (k <> p /\ mat_remap st !! k = Some d))
      as Hcase.
    { intros k d. cbn [mat_remap st']. destruct (decide (k = p)) as [->|Hne].
      - rewrite lookup_insert_eq. intros [= <-]. now left.
      - rewrite lookup_insert_ne by congruence. now right. }
    destruct (IH st') as (I1 & I2 & I3).
    + intros k d [[-> ->]|[_ H]]%Hcase; cbn [meta st'].
      * rewrite lookup_insert_eq. eauto.
      * destruct (decide (dst = d)) as [->|Hne];
          [rewrite lookup_insert_eq; eauto|].
        rewrite lookup_insert_ne by assumption. now apply (Hin k).
    + intros k1 k2 d [[-> ->]|[N1 H1]]%Hcase [[-> E2]|[N2 H2]]%Hcase.
      * reflexivity.
      * apply Hin in H2. rewrite Hfresh in H2. now destruct H2.
      * subst d. apply Hin in H1. rewrite Hfresh in H1. now destruct H1.
      * now apply (Hinj k1 k2 d).
    + split; [exact I1|]. split; [exact I2|].
      intros k d H. destruct (I3 k d H) as [[[-> ->]|[_ Hold]]%Hcase|Hnone].
      * now right.
      * now left.
      * right. cbn [meta st'] in Hnone.
        destruct (decide (dst = d)) as [->|Hne];
          [now rewrite lookup_insert_eq in Hnone|].
        now rewrite lookup_insert_ne in Hnone.
Qed.

(** The copy of a material is new and its own: the table a pass leaves
    maps exactly the materials outside the top prim that have a defining
    layer, each to a path directly under [<top>/mtl] where the override
    layer held nothing before the pass and holds a prim after it, and no
    two materials to the same path, whatever their names. *)
Theorem copies_are_new_and_distinct (top : string) layer stg :
  (forall k, copyable top stg k = true
             <-> is_Some (mat_remap (fix_materials top layer stg) !! k))
  /\ (forall k d, mat_remap (fix_materials top layer stg) !! k = Some d ->
         mtl_child top d
         /\ layer !! d = None
         /\ is_Some (meta (fix_materials top layer stg) !! d)
         /\ forall k', mat_remap (fix_materials top layer stg) !! k' = Some d ->
                       k' = k).
Proof.
  rewrite pass_remap.
  destruct (copy_loop_distinct top
              (TraverseAll (stage (pass_start top layer stg)))
              (pass_start top layer stg)) as (I1 & I2 & I3).
  { intros k d H. cbn in H. now rewrite lookup_empty in H. }
  { intros k1 k2 d H. cbn in H. now rewrite lookup_empty in H. }
  fold (after_copies top layer stg) in I1, I2, I3.
  split.
  - intros k. split; [apply copies_remap_keys|].
    intros [d Hd]. now apply copies_remap in Hd.
  - intros k d Hd. split; [now apply copies_remap in Hd|]. split; [|split].
    + destruct (I3 k d Hd) as [H|H];
        [cbn in H; now rewrite lookup_empty in H|].
      destruct (layer !! d) eqn:E; [|reflexivity].
      assert (is_Some (meta (pass_start top layer stg) !! d)) as Hs
          by (apply start_meta_grows; rewrite E; eauto).
      rewrite H in Hs. now destruct Hs.
    + apply (pass_carries top layer stg). now apply (I1 k).
    + intros k' Hk'. now apply (I2 k' k d).
Qed.

(** Two materials of the same name outside the asset. *)
Lemma copies_are_new_and_distinct_witness :
  let stg : gmap Path Prim :=
    <[["a"; "M"] := example_material]> (<[["b"; "M"] := example_material]> ∅) in
  is_Some (mat_remap (fix_materials "Top" ∅ stg) !! ["a"; "M"])
  /\ is_Some (mat_remap (fix_materials "Top" ∅ stg) !! ["b"; "M"])
  /\ mat_remap (fix_materials "Top" ∅ stg) !! ["a"; "M"]
     <> mat_remap (fix_materials "Top" ∅ stg) !! ["b"; "M"].
Proof.
  intros stg.
  destruct (copies_are_new_and_distinct "Top" ∅ stg) as [Hk H].
  assert (is_Some (mat_remap (fix_materials "Top" ∅ stg) !! ["a"; "M"])) as Ha
      by (apply Hk; vm_compute; reflexivity).
  assert (is_Some (mat_remap (fix_materials "Top" ∅ stg) !! ["b"; "M"])) as Hb
      by (apply Hk; vm_compute; reflexivity).
  split; [exact Ha|]. split; [exact Hb|].
  destruct Ha as [d Hd]. intros E. rewrite Hd in E. symmetry in E.
  destruct (H _ _ Hd) as (_ & _ & _ & Hinj).
  specialize (Hinj _ E). discriminate Hinj.
Defined.

End MaterialRebinderInvariants.

(** ** The scene after an export of the LODs *)

Module LODSceneFacts.
Import Str LODExport.

Section Maya.

Variable Mesh : Type.
Variable polyReduce_like_mel : Mesh -> Q -> option Mesh.
Variable polyReduce_short : Mesh -> Q -> option Mesh.
Variable cleanup_light : Mesh -> Mesh.
Variable polyReduce : Mesh -> Q -> option Mesh.
Variable polySoftEdge : Mesh -> option Mesh.
Variable polyCleanup : Mesh -> option Mesh.

Lemma single_lod_scene (st st' : maya Mesh) top_name src dir variant_type i
  percent path :
  scene Mesh st !! (top_name +:+ "_" +:+ variant_suffix variant_type) = None ->
  _create_single_lod_usd Mesh polyReduce polySoftEdge polyCleanup
    st top_name src dir variant_type i percent = Some (st', path) ->
  scene Mesh st' = scene Mesh st.
Proof.
  intros Hfree. unfold _create_single_lod_usd, duplicate_as.
  set (tmp := top_name +:+ "_" +:+ variant_suffix variant_type) in *.
  destruct (scene Mesh st !! src) as [geo|]; [|discriminate].
  intros [= <- _].
  unfold reduce_node, arnoldExportAss, delete_node.
  destruct (String.eqb variant_type "geoVariant");
    cbn [scene files reductions]; rewrite ?lookup_insert_eq;
    cbn [scene files reductions]; rewrite ?lookup_insert_eq;
    cbn [scene files reductions].
  - rewrite insert_insert_eq. now apply delete_insert_id.
  - now apply delete_insert_id.
Qed.

Lemma geo_lods_scene top_name top_node dir base n : forall (st st' : maya Mesh),
  scene Mesh st !! (top_name +:+ "_geoLOD") = None ->
  export_geo_lods Mesh polyReduce polySoftEdge polyCleanup
    st top_name top_node dir base n = Some st' ->
  scene Mesh st' = scene Mesh st.
Proof.
  unfold export_geo_lods.
  induction n as [|n IH]; intros st st' Hfree.
  - cbn. now intros [= <-].
  - rewrite seq_S, fold_left_app. cbn [fold_left Nat.add].
    destruct (fold_left _ (seq 1 n) (Some st)) as [st1|] eqn:E;
      [|discriminate].
    pose proof (IH st st1 Hfree E) as H1.
    cbn [export_geo_lod].
    destruct (_create_single_lod_usd _ _ _ _ st1 _ _ _ _ _ _)
      as [[st2 path]|] eqn:E2; [|discriminate].
    intros [= <-]. rewrite <- H1.
    apply (single_lod_scene st1 st2 top_name top_node dir "geoVariant" (1 + n)
             (LODPlanner.remove_percent base (1 + n)) path); [|exact E2].
    now rewrite H1.
Qed.

Lemma lod_iterations_scene variant_dir tmp percent l :
  forall (acc : maya Mesh * list string) base g,
    scene Mesh (fst acc) = <[tmp := g]> base ->
    exists g',
      scene Mesh (fst (fold_left
                         (lod_iteration Mesh polyReduce_like_mel polyReduce_short
                            cleanup_light variant_dir tmp percent) l acc))
      = <[tmp := g']> base.
Proof.
  induction l as [|i l IH]; intros acc base g Hacc; cbn [fold_left].
  - eauto.
  - apply (IH _ base (map (fun m => fst (_reduce_with_cleanup_25 Mesh
                                          polyReduce_like_mel polyReduce_short
                                          cleanup_light m percent)) g)).
    unfold lod_iteration, reduce_node, arnoldExportAss.
    cbn [fst snd]. rewrite Hacc, lookup_insert_eq.
    cbn [scene files reductions]. rewrite lookup_insert_eq.
    cbn [scene files reductions]. apply insert_insert_eq.
Qed.

Lemma create_lod_usd_scene (st st' : maya Mesh) top_name src variant_dir n
  percent paths :
  scene Mesh st !! (top_name +:+ "_LOD") = None ->
  _create_lod_usd Mesh polyReduce_like_mel polyReduce_short cleanup_light
    st top_name src variant_dir n percent = Some (st', paths) ->
  scene Mesh st' = scene Mesh st.
Proof.
  intros Hfree. unfold _create_lod_usd, duplicate_as.
  destruct (scene Mesh st !! src) as [geo|]; [|discriminate].
  destruct (fold_left _ (seq 0 n) _) as [st1 lod_paths] eqn:E.
  intros [= <- _].
  destruct (lod_iterations_scene variant_dir (top_name +:+ "_LOD") percent
              (seq 0 n)
              ({| scene := <[top_name +:+ "_LOD" := geo]> (scene Mesh st);
                  files := files Mesh st; reductions := reductions Mesh st |}, [])
              (scene Mesh st) geo eq_refl) as [g' Hg].
  rewrite E in Hg. cbn [fst] in Hg.
  unfold delete_node. cbn [scene]. rewrite Hg.
  now apply delete_insert_id.
Qed.

(** An export of the LODs leaves the scene as it found it: the
    reductions work on a duplicate that is deleted at the end, so when
    the name of the duplicate is free, the nodes of the scene and their
    meshes are the same after the geometry loop of release 26.02.03, and
    after [_create_lod_usd] of release 25.12.7, as before. *)
Theorem lod_export_restores_the_scene (st : maya Mesh)
  (top_name top_node dir : string) (base : Q) (n : nat) :
  (forall st',
      scene Mesh st !! (top_name +:+ "_geoLOD") = None ->
      export_geo_lods Mesh polyReduce polySoftEdge polyCleanup
        st top_name top_node dir base n = Some st' ->
      scene Mesh st' = scene Mesh st)
  /\ (forall st' paths,
        scene Mesh st !! (top_name +:+ "_LOD") = None ->
        _create_lod_usd Mesh polyReduce_like_mel polyReduce_short cleanup_light
          st top_name top_node dir n base = Some (st', paths) ->
        scene Mesh st' = scene Mesh st).
Proof.
  split.
  - intros st'. apply geo_lods_scene.
  - intros st' paths. apply create_lod_usd_scene.
Qed.

End Maya.

Lemma lod_export_restores_the_scene_witness :
  exists st',
    export_geo_lods N halve Some Some example_scene "Top" "Top" "pub/geo" 50 3
    = Some st'
    /\ scene N st' = scene N example_scene
    /\ files N st' !! "pub/geo/geoVariant_geoLOD3.usdc" = Some [500%N].
Proof.
  destruct (lod_export_restores_the_scene N halve halve id halve Some Some
              example_scene "Top" "Top" "pub/geo" 50 3) as [H _].
  eexists. split; [vm_compute; reflexivity|].
  split; [|vm_compute; reflexivity].
  apply H; vm_compute; reflexivity.
Defined.

End LODSceneFacts.

(** ** The clean shader layer *)

Module CleanShaderFacts.
Import Str Usd Assembly.

Lemma material_specs_spec (src : gmap Path PrimSpec) p s :
  In (p, s) (material_specs src)
  <-> src !! p = Some s /\ typeName s = "Material".
Proof.
  unfold material_specs. rewrite filter_In. cbn [snd].
  rewrite <- list_elem_of_In, elem_of_map_to_list, String.eqb_eq. reflexivity.
Qed.

(** The copy loop of [clean_shader_file]: what the layer holds after the
    materials of [l] have been copied under [/mtl]. *)
Lemma clean_loop (src : gmap Path PrimSpec) l : forall acc : gmap Path PrimSpec,
  (forall e, In e l -> src !! fst e = Some (snd e) /\ typeName (snd e) = "Material") ->
  let r := fold_left (fun (acc : gmap Path PrimSpec) e =>
                        <[AppendChild ["mtl"] (GetName (fst e)) := snd e]> acc)
                     l acc in
  (forall p s, r !! p = Some s ->
     acc !! p = Some s
     \/ exists q, p = ["mtl"; GetName q] /\ src !! q = Some s
                  /\ typeName s = "Material")
  /\ (forall p s, acc !! p = Some s ->
        (exists name, p = ["mtl"; name]) \/ r !! p = Some s)
  /\ (forall e, In e l ->
        exists q, r !! ["mtl"; GetName (fst e)] = Some (snd q)
                  /\ src !! fst q = Some (snd q)
                  /\ typeName (snd q) = "Material"
                  /\ GetName (fst q) = GetName (fst e))
  /\ (forall name q, acc !! ["mtl"; name] = Some (snd q) ->
        src !! fst q = Some (snd q) -> typeName (snd q) = "Material" ->
        GetName (fst q) = name ->
        exists q', r !! ["mtl"; name] = Some (snd q')
                   /\ src !! fst q' = Some (snd q')
                   /\ typeName (snd q') = "Material"
                   /\ GetName (fst q') = name).
Proof.
  induction l as [|[k v] l IH]; intros acc Hl; cbn [fold_left].
  - repeat split; eauto. intros e [].
  - destruct (Hl (k, v) (or_introl eq_refl)) as [Hk Hv]. cbn [fst snd] in *.
    destruct (IH (<[AppendChild ["mtl"] (GetName k) := v]> acc)) as (I1 & I2 & I3 & I4).
    { intros e He. apply Hl. now right. }
    change (AppendChild ["mtl"] (GetName k)) with ["mtl"; GetName k] in *.
    split; [|split; [|split]].
    + intros p s H. destruct (I1 p s H) as [Ha|Hq]; [|now right].
      destruct (decide (["mtl"; GetName k] = p)) as [<-|Hne].
      * rewrite lookup_insert_eq in Ha. injection Ha as <-. right. eauto.
      * rewrite lookup_insert_ne in Ha by assumption. now left.
    + intros p s Ha.
      destruct (decide (["mtl"; GetName k] = p)) as [<-|Hne]; [left; eauto|].
      apply I2. now rewrite lookup_insert_ne.
    + intros e [<-|He]; [|now apply I3]. cbn [fst snd].
      apply (I4 (GetName k) (k, v)); cbn [fst snd]; auto.
      apply lookup_insert_eq.
    + intros name q Ha Hq Hm Hn.
      destruct (decide (GetName k = name)) as [E|Hne].
      * apply (I4 name (k, v)); cbn [fst snd]; auto.
        rewrite E. apply lookup_insert_eq.
      * apply (I4 name q); auto.
        rewrite lookup_insert_ne by congruence. exact Ha.
Qed.


End CleanShaderFacts.

(** ** The meta layer in the stack of the payload *)

Module MetaLayerFacts.
Import Str Usd LayerComposer.

Section Disk.

Variable creatable : string -> bool.
Variable Resolve : string -> string.

Lemma str_in_In x xs : str_in x xs = true <-> In x xs.
Proof.
  unfold str_in. rewrite existsb_exists. split.
  - intros (y & Hy & ->%String.eqb_eq). exact Hy.
  - intros H. exists x. split; [exact H|apply String.eqb_refl].
Qed.

(** The meta layer is stacked once: after [_author_meta_and_fix_materials]
    has prepended it, the resolved identifier of the meta layer is among
    the resolved sublayers of the payload, first unless it was there
    before; and prepending it again, to the payload as it is now, leaves
    the sublayers of the payload as they are.  The resolver is taken to
    resolve a resolved identifier to itself, and the two layers to be
    different files. *)
Theorem meta_layer_is_stacked_once (disk disk1 : gmap string Layer)
  (payload_usdc meta_out_path meta_id : string) (payload : Layer) :
  replace_backslash payload_usdc <> replace_backslash meta_out_path ->
  resolve_or Resolve (resolve_or Resolve (replace_backslash meta_out_path))
  = resolve_or Resolve (replace_backslash meta_out_path) ->
  disk !! replace_backslash payload_usdc = Some payload ->
  prepend_meta creatable Resolve disk payload_usdc meta_out_path
  = inr (meta_id, disk1) ->
  exists payload1,
    disk1 !! replace_backslash payload_usdc = Some payload1
    /\ In (resolve_or Resolve meta_id)
          (map (resolve_or Resolve) (subLayerPaths payload1))
    /\ (subLayerPaths payload1 = subLayerPaths payload
        \/ subLayerPaths payload1
           = resolve_or Resolve meta_id :: subLayerPaths payload)
    /\ forall disk2 id2,
         prepend_meta creatable Resolve disk1 payload_usdc meta_out_path
         = inr (id2, disk2) ->
         id2 = meta_id
         /\ (subLayerPaths <$> disk2 !! replace_backslash payload_usdc)
            = Some (subLayerPaths payload1).
Proof.
  intros Hne Hres Hpay. unfold prepend_meta, CreateNew. rewrite Hpay.
  set (pid := replace_backslash payload_usdc) in *.
  set (mid := replace_backslash meta_out_path) in *.
  destruct (creatable mid) eqn:Ec; [|discriminate].
  destruct (str_in (resolve_or Resolve mid)
                   (map (resolve_or Resolve) (subLayerPaths payload))) eqn:Ein.
  - intros [= <- <-]. exists payload.
    rewrite lookup_insert_ne by congruence.
    split; [exact Hpay|]. split; [now apply str_in_In|].
    split; [now left|].
    intros disk2 id2. rewrite Hpay, Ein.
    intros [= <- <-]. split; [reflexivity|].
    rewrite lookup_insert_ne by congruence.
    rewrite lookup_insert_ne by congruence. now rewrite Hpay.
  - intros [= <- <-].
    exists (set_subLayerPaths payload (resolve_or Resolve mid :: subLayerPaths payload)).
    rewrite lookup_insert_eq. split; [reflexivity|].
    cbn [subLayerPaths set_subLayerPaths map]. rewrite Hres.
    split; [now left|]. split; [now right|].
    intros disk2 id2.
    assert (str_in (resolve_or Resolve mid)
              (resolve_or Resolve mid
               :: map (resolve_or Resolve) (subLayerPaths payload)) = true) as ->
        by (apply str_in_In; now left).
    intros [= <- <-]. split; [reflexivity|].
    rewrite lookup_insert_ne by congruence.
    now rewrite lookup_insert_eq.
Qed.

End Disk.

Lemma meta_layer_is_stacked_once_witness :
  let payload := set_subLayerPaths empty_layer ["v001/shd.usdc"; "v001/shd.usdc"] in
  let disk : gmap string Layer := <["v001/payload.usdc" := payload]> ∅ in
  let disk1 : gmap string Layer :=
    <["v001/payload.usdc"
      := set_subLayerPaths payload
           ["v001/meta.usdc"; "v001/shd.usdc"; "v001/shd.usdc"]]>
      (<["v001/meta.usdc" := empty_layer]> disk) in
  exists payload1,
    disk1 !! "v001/payload.usdc" = Some payload1
    /\ In "v001/meta.usdc" (subLayerPaths payload1)
    /\ forall disk2 id2,
         prepend_meta (fun _ => true) (fun p => p) disk1
           "v001\payload.usdc" "v001\meta.usdc" = inr (id2, disk2) ->
         (subLayerPaths <$> disk2 !! "v001/payload.usdc")
         = Some ["v001/meta.usdc"; "v001/shd.usdc"; "v001/shd.usdc"].
Proof.
  intros payload disk disk1.
  destruct (meta_layer_is_stacked_once (fun _ => true) (fun p => p) disk disk1
              "v001\payload.usdc" "v001\meta.usdc" "v001/meta.usdc" payload)
    as (payload1 & H1 & H2 & _ & H4).
  - vm_compute. discriminate.
  - reflexivity.
  - reflexivity.
  - vm_compute. reflexivity.
  - exists payload1. pose proof H1 as H1'.
    vm_compute in H1'. injection H1' as <-.
    split; [exact H1|]. split; [vm_compute; auto|].
    intros disk2 id2 H. now apply H4 in H as [_ H].
Defined.

End MetaLayerFacts.
